(** * FluentBox: locale resolution, bundle loading and cascading lookup

    A shallow embedding of [src/index.ts] (class [FluentBox]) and the
    properties of its loader, its message cascade and its aliasing clone.

    JavaScript objects live in a store: a [FluentBox] handle is a cell whose
    collection-valued fields ([Map], [Set], arrays) are references to other
    cells, so that [clone] shares them the way the source does, while its
    scalar fields are copied.  Methods are computations in a small
    state-and-exception monad over that store. *)

From Stdlib Require Import String Ascii List Bool Arith Lia.
From stdpp Require Import base option list gmap strings.

Local Open Scope string_scope.
Local Open Scope list_scope.

(** ** Strings: [String.prototype.toLowerCase] on ASCII text

    Locale identifiers are ASCII, which is the only text the engine ever
    lower-cases; code units outside [A-Z] are left as they are.  (The
    upper-case counterpart serves the sample locale canonicaliser.) *)

Definition lower_ascii (c : ascii) : ascii :=
  let n := nat_of_ascii c in
  if (65 <=? n)%nat && (n <=? 90)%nat then ascii_of_nat (n + 32) else c.

Definition upper_ascii (c : ascii) : ascii :=
  let n := nat_of_ascii c in
  if (97 <=? n)%nat && (n <=? 122)%nat then ascii_of_nat (n - 32) else c.

Fixpoint toLowerCase (s : string) : string :=
  match s with
  | EmptyString => EmptyString
  | String c r => String (lower_ascii c) (toLowerCase r)
  end.

Fixpoint toUpperCase (s : string) : string :=
  match s with
  | EmptyString => EmptyString
  | String c r => String (upper_ascii c) (toUpperCase r)
  end.

(** ** External collaborators

    [Intl.Locale] is the platform's locale parser: [new Intl.Locale(s)]
    either throws or yields an object whose [toString()] is the canonical
    identifier. *)

Class IntlLocaleAPI := {
  canonical : string -> option string
}.

(** [@fluent/bundle]: a bundle answers [getMessage(id)] with a message or
    [undefined]; a message carries a pattern or [null].  Resolving a
    pattern yields a text and reports the formatting errors it meets, one
    after the other; [resolvePattern] gives the text and these errors, in
    the order of their report, as they come out when every error is
    collected (the text then holds a placeholder for each part that
    failed).  What [formatPattern] makes of a report depends on the
    caller's error array, see [formatPattern] below. *)

Class FluentBundleAPI := {
  FluentBundle : Type;
  Pattern : Type;
  FluentArgs : Type;
  FormatError : Type;
  bundle_getMessage : FluentBundle -> string -> option (option Pattern);
  resolvePattern :
    FluentBundle -> Pattern -> option FluentArgs -> string * list FormatError
}.

Inductive Method := http | fileSystem.

(** Modelled from the spec: [fsLoader.ts] and [httpLoader.ts] are not part of
    the sources at hand.  Section 6 gives their contract: from the locale's
    path component, the source and the file-name list, a loader settles
    either with the bundle built for that locale ([Some]) or with a failure
    ([None]); [index.ts] adds that a fulfilled loader yields the pair
    [[localeAsStr, bundle]]. *)

Class ResourceBackend `{FluentBundleAPI} := {
  fsloader :
    string -> option string -> list string -> string -> option FluentBundle;
  httpLoader :
    string -> option string -> list string -> string -> option FluentBundle
}.

(** ** Objects and the store *)

(** An [Intl.Locale] object: immutable, so it is a value; [loc_oid] is its
    identity (what a [Set<Intl.Locale>] compares), [loc_tag] its
    [toString()]. *)
Record Locale := mkLocale { loc_oid : nat; loc_tag : string }.

Definition ref := nat.

(** What the engine throws, or lets through: its own errors, and the
    formatting error that [formatPattern] throws. *)
Inductive JsError {FB : FluentBundleAPI} :=
| MalformedLocale (s : string)
| NotALocaleObject
| UnsupportedLocale (s : string)
| RangeError (s : string)
| InitializerError
| TypeError
| FormattingError (e : FormatError).

(** Completion of a synchronous computation; [OutOfFuel] stands for a
    recursion deeper than the fuel given to the model. *)
Inductive Res {FB : FluentBundleAPI} (A : Type) :=
| Ok (a : A)
| Throw (e : JsError)
| OutOfFuel.
Arguments Ok {FB A} a.
Arguments Throw {FB A} e.
Arguments OutOfFuel {FB A}.

Definition res_map {FB : FluentBundleAPI} {A B} (f : A -> B) (r : Res A)
    : Res B :=
  match r with
  | Ok a => Ok (f a)
  | Throw e => Throw e
  | OutOfFuel => OutOfFuel
  end.

(** Settled state of a promise. *)
Inductive Promise (A : Type) :=
| Fulfilled (a : A)
| Rejected.
Arguments Fulfilled {A} a.
Arguments Rejected {A}.

Section Engine.
Context {Intl : IntlLocaleAPI} {FB : FluentBundleAPI} {RB : ResourceBackend}.

(** What a bundle initializer leaves behind: the bundle as it mutated it,
    and whether it returned or threw. *)
Inductive InitOutcome :=
| Returned (b : FluentBundle)
| Raised (b : FluentBundle).

Definition BundleInitializer := Locale -> FluentBundle -> InitOutcome.

(** The fields of a [FluentBox] object. *)
Record FluentBox := mkFluentBox {
  _currentLocale : option Locale;
  _localeToPathComponents : ref;
  _locales : ref;
  _defaultLocale : option Locale;
  _fallbacks : ref;
  _assets : ref;
  _source : string;
  _files : ref;
  _bundleInitializers : ref;
  _clean : bool;
  _method : Method
}.

Inductive Cell :=
| CBox (b : FluentBox)
| CPathMap (m : gmap string string)
| CLocaleSet (s : gset string)
| CFallbacks (m : gmap string (list string))
| CAssets (m : gmap string FluentBundle)
| CFiles (l : list string)
| CInits (l : list BundleInitializer).

(** [fetch_log] records every loader invocation (the locale it was asked
    for), as a fetch mock would. *)
Record World := mkWorld {
  store : gmap ref Cell;
  next_ref : ref;
  next_oid : nat;
  fetch_log : list string
}.

Definition M (A : Type) : Type := World -> Res A * World.

Definition ret {A} (a : A) : M A := fun W => (Ok a, W).
Definition throw {A} (e : JsError) : M A := fun W => (Throw e, W).
Definition out_of_fuel {A} : M A := fun W => (OutOfFuel, W).
(** A completion that does not touch the store. *)
Definition of_res {A} (r : Res A) : M A := fun W => (r, W).
Definition bind {A B} (m : M A) (k : A -> M B) : M B :=
  fun W =>
    match m W with
    | (Ok a, W') => k a W'
    | (Throw e, W') => (Throw e, W')
    | (OutOfFuel, W') => (OutOfFuel, W')
    end.

Notation "'let*' x ':=' c1 'in' c2" := (bind c1 (fun x => c2))
  (at level 10, x pattern, c1 at level 100, c2 at level 200).

(** [try { m } catch (e) { ... }]: an exception becomes a value. *)
Definition catch {A} (m : M A) : M (A + JsError) :=
  fun W =>
    match m W with
    | (Ok a, W') => (Ok (inl a), W')
    | (Throw e, W') => (Ok (inr e), W')
    | (OutOfFuel, W') => (OutOfFuel, W')
    end.

Fixpoint for_of {A} (l : list A) (body : A -> M unit) : M unit :=
  match l with
  | [] => ret tt
  | x :: r => let* _ := body x in for_of r body
  end.

Fixpoint foldM {A B} (body : B -> A -> M B) (l : list A) (acc : B) : M B :=
  match l with
  | [] => ret acc
  | x :: r => let* acc' := body acc x in foldM body r acc'
  end.

(** *** Store primitives *)

Definition set_store (f : gmap ref Cell -> gmap ref Cell) (W : World) : World :=
  mkWorld (f (store W)) (next_ref W) (next_oid W) (fetch_log W).

Definition read (r : ref) : M Cell :=
  fun W =>
    match store W !! r with
    | Some c => (Ok c, W)
    | None => (Throw TypeError, W)
    end.

Definition write (r : ref) (c : Cell) : M unit :=
  fun W => (Ok tt, set_store (insert r c) W).

Definition alloc (c : Cell) : M ref :=
  fun W =>
    (Ok (next_ref W),
     mkWorld (<[next_ref W := c]> (store W)) (S (next_ref W))
             (next_oid W) (fetch_log W)).

Definition log_fetch (localeAsStr : string) : M unit :=
  fun W =>
    (Ok tt,
     mkWorld (store W) (next_ref W) (next_oid W) (fetch_log W ++ [localeAsStr])).

Definition read_box (r : ref) : M FluentBox :=
  let* c := read r in
  match c with CBox b => ret b | _ => throw TypeError end.
Definition read_pathmap (r : ref) : M (gmap string string) :=
  let* c := read r in
  match c with CPathMap m => ret m | _ => throw TypeError end.
Definition read_localeset (r : ref) : M (gset string) :=
  let* c := read r in
  match c with CLocaleSet s => ret s | _ => throw TypeError end.
Definition read_fallbacks (r : ref) : M (gmap string (list string)) :=
  let* c := read r in
  match c with CFallbacks m => ret m | _ => throw TypeError end.
Definition read_assets (r : ref) : M (gmap string FluentBundle) :=
  let* c := read r in
  match c with CAssets m => ret m | _ => throw TypeError end.
Definition read_files (r : ref) : M (list string) :=
  let* c := read r in
  match c with CFiles l => ret l | _ => throw TypeError end.
Definition read_inits (r : ref) : M (list BundleInitializer) :=
  let* c := read r in
  match c with CInits l => ret l | _ => throw TypeError end.

(** *** [Intl.Locale] objects *)

(** [new Intl.Locale(a)]: a fresh object; a string is canonicalised (or
    rejected with a [RangeError]), a locale object is copied. *)
Definition new_Locale (a : string + Locale) : M Locale :=
  fun W =>
    let fresh tag :=
      (Ok (mkLocale (next_oid W) tag),
       mkWorld (store W) (next_ref W) (S (next_oid W)) (fetch_log W)) in
    match a with
    | inl s =>
        match canonical s with
        | Some tag => fresh tag
        | None => (Throw (RangeError s), W)
        end
    | inr l => fresh (loc_tag l)
    end.

Definition arg_toString (a : string + Locale) : string :=
  match a with inl s => s | inr l => loc_tag l end.

Definition _parseLocaleOrThrow (s : string + Locale) : M Locale :=
  let* r := catch (new_Locale s) in
  match r with
  | inl l => ret l
  | inr _ => throw (MalformedLocale (arg_toString s))
  end.

(** *** Construction *)

(** [FluentBoxOptions], as the type declares it.  The constructor's
    [typeof]/[instanceof] tests reject only values that this type already
    excludes, so they have no counterpart here. *)
Record FluentBoxOptions := mkOptions {
  opt_locales : list string;
  opt_fallbacks : option (list (string * list string));
  opt_defaultLocale : string;
  opt_source : string;
  opt_files : list string;
  opt_clean : bool;
  opt_method : Method
}.

Definition pathmap_set (r : ref) (k v : string) : M unit :=
  let* m := read_pathmap r in write r (CPathMap (<[k := v]> m)).
Definition localeset_add (r : ref) (k : string) : M unit :=
  let* s := read_localeset r in write r (CLocaleSet ({[k]} ∪ s)).
Definition fallbacks_set (r : ref) (k : string) (v : list string) : M unit :=
  let* m := read_fallbacks r in write r (CFallbacks (<[k := v]> m)).
Definition assets_set (r : ref) (k : string) (v : FluentBundle) : M unit :=
  let* m := read_assets r in write r (CAssets (<[k := v]> m)).
Definition assets_clear (r : ref) : M unit :=
  let* _ := read_assets r in write r (CAssets ∅).
Definition inits_push (r : ref) (fn : BundleInitializer) : M unit :=
  let* l := read_inits r in write r (CInits (l ++ [fn])).

(** [Array.prototype.map] with a callback that may throw. *)
Fixpoint array_map {A B} (f : A -> M B) (l : list A) : M (list B) :=
  match l with
  | [] => ret []
  | x :: r => let* y := f x in let* ys := array_map f r in ret (y :: ys)
  end.

Definition files_push (r : ref) (fileName : string) : M unit :=
  let* l := read_files r in write r (CFiles (l ++ [fileName])).

Definition with_currentLocale (v : option Locale) (b : FluentBox) : FluentBox :=
  mkFluentBox v (_localeToPathComponents b) (_locales b) (_defaultLocale b)
    (_fallbacks b) (_assets b) (_source b) (_files b) (_bundleInitializers b)
    (_clean b) (_method b).
Definition with_defaultLocale (v : option Locale) (b : FluentBox) : FluentBox :=
  mkFluentBox (_currentLocale b) (_localeToPathComponents b) (_locales b) v
    (_fallbacks b) (_assets b) (_source b) (_files b) (_bundleInitializers b)
    (_clean b) (_method b).
Definition with_source (v : string) (b : FluentBox) : FluentBox :=
  mkFluentBox (_currentLocale b) (_localeToPathComponents b) (_locales b)
    (_defaultLocale b) (_fallbacks b) (_assets b) v (_files b)
    (_bundleInitializers b) (_clean b) (_method b).
Definition with_files (v : ref) (b : FluentBox) : FluentBox :=
  mkFluentBox (_currentLocale b) (_localeToPathComponents b) (_locales b)
    (_defaultLocale b) (_fallbacks b) (_assets b) (_source b) v
    (_bundleInitializers b) (_clean b) (_method b).
Definition with_clean (v : bool) (b : FluentBox) : FluentBox :=
  mkFluentBox (_currentLocale b) (_localeToPathComponents b) (_locales b)
    (_defaultLocale b) (_fallbacks b) (_assets b) (_source b) (_files b)
    (_bundleInitializers b) v (_method b).
Definition with_method (v : Method) (b : FluentBox) : FluentBox :=
  mkFluentBox (_currentLocale b) (_localeToPathComponents b) (_locales b)
    (_defaultLocale b) (_fallbacks b) (_assets b) (_source b) (_files b)
    (_bundleInitializers b) (_clean b) v.

(** [this.field = v] *)
Definition set_field (this : ref) (f : FluentBox -> FluentBox) : M unit :=
  let* b := read_box this in write this (CBox (f b)).

(** The object as the field initialisers leave it, which is also all that
    [new FluentBox(FluentBox._PRIVATE_CTOR)] does. *)
Definition FluentBox_fields : M ref :=
  let* pcs := alloc (CPathMap ∅) in
  let* ls := alloc (CLocaleSet ∅) in
  let* fbs := alloc (CFallbacks ∅) in
  let* assets := alloc (CAssets ∅) in
  let* files := alloc (CFiles []) in
  let* inits := alloc (CInits []) in
  alloc (CBox {| _currentLocale := None;
                 _localeToPathComponents := pcs;
                 _locales := ls;
                 _defaultLocale := None;
                 _fallbacks := fbs;
                 _assets := assets;
                 _source := "";
                 _files := files;
                 _bundleInitializers := inits;
                 _clean := true;
                 _method := http |}).

(** [new FluentBox(options)]; the result is the address of the new
    object. *)
Definition FluentBox_new (options : FluentBoxOptions) : M ref :=
  let* this := FluentBox_fields in
  let* b := read_box this in
  let* _ :=
    for_of (opt_locales options) (fun unparsedLocale =>
      let* parsedLocale := _parseLocaleOrThrow (inl unparsedLocale) in
      let* _ := pathmap_set (_localeToPathComponents b)
                            (loc_tag parsedLocale) unparsedLocale in
      localeset_add (_locales b) (loc_tag parsedLocale)) in
  let fallbacks := default [] (opt_fallbacks options) in
  let* _ :=
    for_of fallbacks (fun '(fallbackUnparsedLocale, fallbackArray) =>
      let* fallbackParsedLocale :=
        _parseLocaleOrThrow (inl fallbackUnparsedLocale) in
      let* arr :=
        array_map (fun a =>
                     let* l := _parseLocaleOrThrow (inl a) in ret (loc_tag l))
                  fallbackArray in
      fallbacks_set (_fallbacks b) (loc_tag fallbackParsedLocale) arr) in
  let* defaultLocale := _parseLocaleOrThrow (inl (opt_defaultLocale options)) in
  let* _ := set_field this (with_defaultLocale (Some defaultLocale)) in
  let* _ := set_field this (with_source (opt_source options)) in
  let* files := alloc (CFiles []) in
  let* _ := set_field this (with_files files) in
  let* _ := for_of (opt_files options) (files_push files) in
  let* _ := set_field this (with_clean (opt_clean options)) in
  let* _ := set_field this (with_method (opt_method options)) in
  ret this.

Definition addBundleInitializer (this : ref) (fn : BundleInitializer) : M unit :=
  let* b := read_box this in inits_push (_bundleInitializers b) fn.

Definition supportsLocale (this : ref) (argument : string + Locale) : M bool :=
  let* b := read_box this in
  let* s := read_localeset (_locales b) in
  ret (bool_decide (arg_toString argument ∈ s)).

Definition currentLocale (this : ref) : M (option Locale) :=
  let* b := read_box this in ret (_currentLocale b).

(** *** Fallback enumeration *)

Fixpoint _enumerateFallbacks (fuel : nat) (this : ref) (locale : string)
    (output : list Locale) : M (list Locale) :=
  match fuel with
  | 0 => out_of_fuel
  | S fuel' =>
      let* b := read_box this in
      let* fbs := read_fallbacks (_fallbacks b) in
      match fbs !! locale with
      | None => ret output
      | Some list =>
          foldM (fun output item =>
                   let* l := new_Locale (inl item) in
                   _enumerateFallbacks fuel' this item (output ++ [l]))
                list output
      end
  end.

(** [Set.prototype.add] on a [Set<Intl.Locale>]: membership is object
    identity; the set keeps insertion order. *)
Definition set_add (l : Locale) (output : list Locale) : list Locale :=
  if existsb (fun x => Nat.eqb (loc_oid x) (loc_oid l)) output
  then output else output ++ [l].

Fixpoint _enumerateFallbacksToSet (fuel : nat) (this : ref) (locale : string)
    (output : list Locale) : M (list Locale) :=
  match fuel with
  | 0 => out_of_fuel
  | S fuel' =>
      let* b := read_box this in
      let* fbs := read_fallbacks (_fallbacks b) in
      match fbs !! locale with
      | None => ret output
      | Some list =>
          foldM (fun output item =>
                   let* l := new_Locale (inl item) in
                   _enumerateFallbacksToSet fuel' this item (set_add l output))
                list output
      end
  end.

Definition localeAndFallbacks (fuel : nat) (this : ref) : M (list Locale) :=
  let* b := read_box this in
  match _currentLocale b with
  | Some cur => _enumerateFallbacks fuel this (loc_tag cur) [cur]
  | None => ret []
  end.

Definition fallbacks (fuel : nat) (this : ref) : M (list Locale) :=
  let* b := read_box this in
  match _currentLocale b with
  | Some cur => _enumerateFallbacks fuel this (loc_tag cur) []
  | None => ret []
  end.

(** *** Loading *)

(** [_loadSingleLocale]: the loader chosen by [_method] is started for the
    locale, which the fetch log records; the result is the settled state of
    the promise it returns. *)
Definition _loadSingleLocale (this : ref) (locale : Locale)
    : M (Promise (string * FluentBundle)) :=
  let self := this in
  let localeAsStr := loc_tag locale in
  let* b := read_box self in
  let* pcs := read_pathmap (_localeToPathComponents b) in
  let* files := read_files (_files b) in
  let* _ := log_fetch localeAsStr in
  let settled :=
    match _method b with
    | fileSystem => fsloader (_source b) (pcs !! localeAsStr) files localeAsStr
    | http => httpLoader (_source b) (pcs !! localeAsStr) files localeAsStr
    end in
  ret (match settled with
       | Some bundle => Fulfilled (localeAsStr, bundle)
       | None => Rejected
       end).

(** A [load] between its synchronous part and the settlement of its
    loaders: either the batch is in flight, or the promise executor threw
    (which rejects the promise that [load] returned). *)
Inductive LoadInFlight :=
| InFlight (newLocale : Locale) (tasks : list (Promise (string * FluentBundle)))
| ExecutorThrew (e : JsError).

(** The synchronous part of [load]: the argument checks, which throw to the
    caller, then the promise executor, which computes [toLoad] and starts
    one loader per element of it. *)
Definition load_begin (fuel : nat) (this : ref) (newLocale : option Locale)
    : M LoadInFlight :=
  let* b := read_box this in
  match (match newLocale with Some l => Some l | None => _defaultLocale b end) with
  | None => throw NotALocaleObject
  | Some newLocale =>
      let* supported := supportsLocale this (inr newLocale) in
      if negb supported then throw (UnsupportedLocale (loc_tag newLocale))
      else
        let self := this in
        let* r :=
          catch (let toLoad := [newLocale] in
                 let* toLoad :=
                   _enumerateFallbacksToSet fuel self (loc_tag newLocale) toLoad in
                 array_map (_loadSingleLocale self) toLoad) in
        match r with
        | inl tasks => ret (InFlight newLocale tasks)
        | inr e => ret (ExecutorThrew e)
        end
  end.

(** [Promise.all]: fulfilled with all the values when every promise is. *)
Fixpoint Promise_all {A} (l : list (Promise A)) : Promise (list A) :=
  match l with
  | [] => Fulfilled []
  | Rejected :: _ => Rejected
  | Fulfilled a :: r =>
      match Promise_all r with
      | Fulfilled res => Fulfilled (a :: res)
      | Rejected => Rejected
      end
  end.

(** The [then] handler of [load]. *)
Definition load_then (self : ref) (newLocale : Locale)
    (res : list (string * FluentBundle)) : M unit :=
  let* b := read_box self in
  let* _ := (if _clean b then assets_clear (_assets b) else ret tt) in
  let* _ := for_of res (fun pair => assets_set (_assets b) (fst pair) (snd pair)) in
  let* _ := set_field self (with_currentLocale (Some newLocale)) in
  let* inits := read_inits (_bundleInitializers b) in
  for_of inits (fun bundleInit =>
    let* assets := read_assets (_assets b) in
    match assets !! loc_tag newLocale with
    | None => throw TypeError
    | Some bundle =>
        match bundleInit newLocale bundle with
        | Returned bundle' => assets_set (_assets b) (loc_tag newLocale) bundle'
        | Raised bundle' =>
            let* _ := assets_set (_assets b) (loc_tag newLocale) bundle' in
            throw InitializerError
        end
    end).

(** Settlement: [then] runs when every loader fulfilled and resolves
    [true]; a rejected loader, or an exception in the [then] handler, runs
    [catch], which resolves [false]. *)
Definition load_settle (self : ref) (p : LoadInFlight) : M (Promise bool) :=
  match p with
  | ExecutorThrew _ => ret Rejected
  | InFlight newLocale tasks =>
      match Promise_all tasks with
      | Fulfilled res =>
          let* r := catch (load_then self newLocale res) in
          match r with
          | inl _ => ret (Fulfilled true)
          | inr _ => ret (Fulfilled false)
          end
      | Rejected => ret (Fulfilled false)
      end
  end.

(** A [load] awaited with nothing else running in between. *)
Definition load (fuel : nat) (this : ref) (newLocale : option Locale)
    : M (Promise bool) :=
  let* p := load_begin fuel this newLocale in load_settle this p.

(** *** Message cascade *)

(** The caller's error array, or [null]. *)
Definition Sink := option (list FormatError).

Definition sink_push (errors : Sink) (errs : list FormatError) : Sink :=
  match errors with
  | Some l => Some (l ++ errs)
  | None => None
  end.

(** [bundle.formatPattern(pattern, args, errors)]: with an error array,
    every formatting error met is appended to it and the text is returned;
    with [null], which is what [getMessage] passes by default, the first
    error met is thrown. *)
Definition formatPattern (assets : FluentBundle) (pattern : Pattern)
    (args : option FluentArgs) (errors : Sink) : Res (string * Sink) :=
  let '(s, errs) := resolvePattern assets pattern args in
  match errors, errs with
  | None, e :: _ => Throw (FormattingError e)
  | _, _ => Ok (s, sink_push errors errs)
  end.

(** The [for (let fl of fallbacks)] loop of [_getMessageByLocale]. *)
Fixpoint first_message (rec : string -> Sink -> M (option string * Sink))
    (fallbacks : list string) (errors : Sink) : M (option string * Sink) :=
  match fallbacks with
  | [] => ret (None, errors)
  | fl :: rest =>
      let* (r, errors') := rec fl errors in
      match r with
      | Some s => ret (Some s, errors')
      | None => first_message rec rest errors'
      end
  end.

Fixpoint _getMessageByLocale (fuel : nat) (this : ref) (id locale : string)
    (args : option FluentArgs) (errors : Sink) : M (option string * Sink) :=
  match fuel with
  | 0 => out_of_fuel
  | S fuel' =>
      let* b := read_box this in
      let* table := read_assets (_assets b) in
      let own :=
        match table !! locale with
        | Some assets =>
            match bundle_getMessage assets id with
            | Some (Some value) =>
                Some (res_map (fun '(s, errors') => (Some s, errors'))
                              (formatPattern assets value args errors))
            | Some None => Some (Ok (Some "", errors))
            | None => None
            end
        | None => None
        end in
      match own with
      | Some answer => of_res answer
      | None =>
          let* fbs := read_fallbacks (_fallbacks b) in
          let* (r, errors') :=
            match fbs !! locale with
            | Some fallbacks =>
                first_message
                  (fun fl errors => _getMessageByLocale fuel' this id fl args errors)
                  fallbacks errors
            | None => ret (None, errors)
            end in
          match r with
          | Some s => ret (Some s, errors')
          | None =>
              match _defaultLocale b with
              | Some d =>
                  let nextLocale := loc_tag d in
                  if bool_decide (toLowerCase locale <> toLowerCase nextLocale)
                  then _getMessageByLocale fuel' this id nextLocale args errors'
                  else ret (None, errors')
              | None => ret (None, errors')
              end
          end
      end
  end.

Definition getMessage (fuel : nat) (this : ref) (id : string)
    (args : option FluentArgs) (errors : Sink) : M (option string * Sink) :=
  let* b := read_box this in
  match _currentLocale b with
  | None => ret (None, errors)
  | Some cur => _getMessageByLocale fuel this id (loc_tag cur) args errors
  end.

(** The [for (let fl of fallbacks)] loop of [_hasMessageByLocale]. *)
Fixpoint any_message (rec : string -> M bool) (fallbacks : list string)
    : M bool :=
  match fallbacks with
  | [] => ret false
  | fl :: rest =>
      let* r := rec fl in
      if r then ret true else any_message rec rest
  end.

Fixpoint _hasMessageByLocale (fuel : nat) (this : ref) (id locale : string)
    : M bool :=
  match fuel with
  | 0 => out_of_fuel
  | S fuel' =>
      let* b := read_box this in
      let* table := read_assets (_assets b) in
      let own :=
        match table !! locale with
        | Some assets =>
            match bundle_getMessage assets id with
            | Some _ => true
            | None => false
            end
        | None => false
        end in
      if own then ret true
      else
        let* fbs := read_fallbacks (_fallbacks b) in
        let* r :=
          match fbs !! locale with
          | Some fallbacks =>
              any_message (fun fl => _hasMessageByLocale fuel' this id fl)
                          fallbacks
          | None => ret false
          end in
        if r then ret true
        else
          match _defaultLocale b with
          | Some d =>
              let nextLocale := loc_tag d in
              if bool_decide (toLowerCase locale <> toLowerCase nextLocale)
              then _hasMessageByLocale fuel' this id nextLocale
              else ret false
          | None => ret false
          end
  end.

Definition hasMessage (fuel : nat) (this : ref) (id : string) : M bool :=
  let* b := read_box this in
  match _currentLocale b with
  | Some cur => _hasMessageByLocale fuel this id (loc_tag cur)
  | None => ret false
  end.

(** *** Clone *)

(** [clone]: a new object, every field of which is assigned from [this];
    the collections that the private constructor allocated for it are
    dropped. *)
Definition clone (this : ref) : M ref :=
  let* r := FluentBox_fields in
  let* b := read_box this in
  let* _ := write r (CBox {| _currentLocale := _currentLocale b;
                             _localeToPathComponents := _localeToPathComponents b;
                             _locales := _locales b;
                             _defaultLocale := _defaultLocale b;
                             _fallbacks := _fallbacks b;
                             _assets := _assets b;
                             _source := _source b;
                             _files := _files b;
                             _bundleInitializers := _bundleInitializers b;
                             _clean := _clean b;
                             _method := _method b |}) in
  ret r.

End Engine.

(** * Vocabulary of the properties *)

Section Vocabulary.
Context {Intl : IntlLocaleAPI} {FB : FluentBundleAPI} {RB : ResourceBackend}.

Definition readonly {A} (m : M A) : Prop := forall W, snd (m W) = W.

(** The object at [this] is a [FluentBox] whose Asset Table holds [table]
    and whose fallback graph holds [fbs]. *)
Record engine_at (W : World) (this : ref) (b : FluentBox)
    (table : gmap string FluentBundle) (fbs : gmap string (list string))
    : Prop := {
  at_box : store W !! this = Some (CBox b);
  at_assets : store W !! _assets b = Some (CAssets table);
  at_fallbacks : store W !! _fallbacks b = Some (CFallbacks fbs)
}.

(** What step 2a of the cascade answers for a message of the bundle: the
    outcome of [formatPattern] on its pattern, or the empty string when it
    has none. *)
Definition render (assets : FluentBundle) (value : option Pattern)
    (args : option FluentArgs) (errors : Sink) : Res (option string * Sink) :=
  match value with
  | Some pattern =>
      res_map (fun '(s, errors') => (Some s, errors'))
              (formatPattern assets pattern args errors)
  | None => Ok (Some "", errors)
  end.

(** The errors that formatting the message reports. *)
Definition format_errors (assets : FluentBundle) (value : option Pattern)
    (args : option FluentArgs) : list FormatError :=
  match value with
  | Some pattern => snd (resolvePattern assets pattern args)
  | None => []
  end.

(** The message [id] as the bundle loaded for [locale] defines it, if it
    does. *)
Definition own_message (table : gmap string FluentBundle) (locale id : string)
    : option (FluentBundle * option Pattern) :=
  match table !! locale with
  | Some assets =>
      match bundle_getMessage assets id with
      | Some value => Some (assets, value)
      | None => None
      end
  | None => None
  end.

Definition default_differs (b : FluentBox) (locale : string) : bool :=
  match _defaultLocale b with
  | Some d => bool_decide (toLowerCase locale <> toLowerCase (loc_tag d))
  | None => false
  end.

Definition default_tag (b : FluentBox) : string :=
  match _defaultLocale b with
  | Some d => loc_tag d
  | None => ""
  end.

Definition fallbacks_of (fbs : gmap string (list string)) (locale : string)
    : list string :=
  default [] (fbs !! locale).

(** The cascade stops here: a string was found, or an exception passes
    through. *)
Definition answers (r : Res (option string * Sink)) : Prop :=
  match r with
  | Ok (None, _) => False
  | OutOfFuel => False
  | _ => True
  end.

(** [getMessage] answered something else than [null]. *)
Definition found (p : option string * Sink) : bool :=
  match fst p with
  | Some _ => true
  | None => false
  end.

(** What [hasMessage] does where [getMessage] ends with [r]: it answers
    whether a string was found, and [true] where the bundle that defines
    the message threw a formatting error; anything else the two have in
    common. *)
Definition has_of (r : Res (option string * Sink)) : Res bool :=
  match r with
  | Ok p => Ok (found p)
  | Throw (FormattingError _) => Ok true
  | Throw e => Throw e
  | OutOfFuel => OutOfFuel
  end.

Definition agree (mh : M bool) (mg : M (option string * Sink)) : Prop :=
  forall W, fst (mh W) = has_of (fst (mg W)).

(** A computation that throws no formatting error. *)
Definition plain {A} (m : M A) : Prop :=
  forall W e0, fst (m W) = Throw e0 -> forall e, e0 <> FormattingError e.

(** *** Frames *)

Definition preserves (R : World -> World -> Prop) {A} (m : M A) : Prop :=
  forall W, R W (snd (m W)).

(** No cell changed and none was allocated (the fetch log and the supply of
    object identities may have moved). *)
Definition same_store (W W' : World) : Prop :=
  store W' = store W /\ next_ref W' = next_ref W.

(** No loader was started. *)
Definition same_log (W W' : World) : Prop := fetch_log W' = fetch_log W.

(** What may happen to the cell at [r]: nothing; or, if it is the object
    [this], a new [_currentLocale]; or, if it is the Asset Table [a], new
    contents. *)
Definition cell_frame (this a r : ref) (c c' : option Cell) : Prop :=
  c' = c
  \/ (r = this /\ exists b cur,
        c = Some (CBox b) /\ c' = Some (CBox (with_currentLocale cur b)))
  \/ (r = a /\ exists m m', c = Some (CAssets m) /\ c' = Some (CAssets m')).

Definition frame (this a : ref) (W W' : World) : Prop :=
  next_ref W' = next_ref W
  /\ forall r, cell_frame this a r (store W !! r) (store W' !! r).

(** Everything a handle is configured with, read through the handle. *)
Record Config := mkConfig {
  cfg_locales : gset string;
  cfg_pathComponents : gmap string string;
  cfg_fallbacks : gmap string (list string);
  cfg_defaultLocale : option Locale;
  cfg_source : string;
  cfg_files : list string;
  cfg_clean : bool;
  cfg_method : Method;
  cfg_bundleInitializers : list BundleInitializer
}.

Definition read_config (this : ref) : M Config :=
  bind (read_box this) (fun b =>
  bind (read_localeset (_locales b)) (fun ls =>
  bind (read_pathmap (_localeToPathComponents b)) (fun pcs =>
  bind (read_fallbacks (_fallbacks b)) (fun fbs =>
  bind (read_files (_files b)) (fun files =>
  bind (read_inits (_bundleInitializers b)) (fun inits =>
  ret (mkConfig ls pcs fbs (_defaultLocale b) (_source b) files (_clean b)
                (_method b) inits))))))).

(** The Asset Table as read through a handle. *)
Definition read_table (this : ref) : M (gmap string FluentBundle) :=
  bind (read_box this) (fun b => read_assets (_assets b)).

(** *** Handles on one engine *)

(** Two objects agree on every field but, possibly, [_currentLocale]. *)
Definition same_config (b1 b2 : FluentBox) : Prop :=
  with_currentLocale None b1 = with_currentLocale None b2.

(** [h1] and [h2] are two distinct [FluentBox] objects with the same
    fields, the current locale apart: the same references to the
    collections, the same scalars. *)
Definition aliases (W : World) (h1 h2 : ref) : Prop :=
  h1 <> h2
  /\ exists b1 b2,
       store W !! h1 = Some (CBox b1)
       /\ store W !! h2 = Some (CBox b2)
       /\ same_config b1 b2.

(** The object at [self], if there is one, is as it was. *)
Definition keeps_object (self : ref) (W W' : World) : Prop :=
  forall b, store W !! self = Some (CBox b) -> store W' !! self = Some (CBox b).

(** What the rest of the constructor, once the locale loop is over, may do
    to the locale set at [ls] and to the object at [this] (both allocated
    already): nothing to the former, and nothing to the [_locales] field of
    the latter. *)
Definition keeps_locales (ls this : ref) (W W' : World) : Prop :=
  ls < next_ref W -> this < next_ref W ->
  next_ref W <= next_ref W'
  /\ store W' !! ls = store W !! ls
  /\ (forall b, store W !! this = Some (CBox b) ->
        exists b', store W' !! this = Some (CBox b') /\ _locales b' = _locales b).

(** *** The commit of a batch, as functions of the table *)

(** What the loader started for [localeAsStr] settles with; it depends on
    the store only. *)
Definition loader_outcome (st : gmap ref Cell) (this : ref)
    (localeAsStr : string) : Res (Promise (string * FluentBundle)) :=
  fst (_loadSingleLocale this (mkLocale 0 localeAsStr) (mkWorld st 0 0 [])).

(** The loaders of a batch: one per element of [toLoad], each settling as
    the store says. *)
Definition batch_of (st : gmap ref Cell) (this : ref) (toLoad : list Locale)
    (tasks : list (Promise (string * FluentBundle))) : Prop :=
  Forall2 (fun l t => loader_outcome st this (loc_tag l) = Ok t) toLoad tasks.

(** Every object of [output] was created before now: its identity is below
    the next one that [new Intl.Locale] will hand out. *)
Definition created_before (W : World) (output : list Locale) : Prop :=
  Forall (fun x => loc_oid x < next_oid W) output.

(** The canonical forms of a list of spellings. *)
Definition canonical_forms (spellings : list string) : gset string :=
  list_to_set (omap canonical spellings).

(** The table after [clear] (under the clean policy) and the [set] of
    every pair of the batch, in order. *)
Definition commit_table (clean : bool) (table : gmap string FluentBundle)
    (res : list (string * FluentBundle)) : gmap string FluentBundle :=
  foldl (fun acc pair => <[fst pair := snd pair]> acc)
        (if clean then ∅ else table) res.

(** The initializer loop on the table. *)
Fixpoint run_initializers (inits : list BundleInitializer) (newLocale : Locale)
    (table : gmap string FluentBundle) : Res unit * gmap string FluentBundle :=
  match inits with
  | [] => (Ok tt, table)
  | bundleInit :: rest =>
      match table !! loc_tag newLocale with
      | None => (Throw TypeError, table)
      | Some bundle =>
          match bundleInit newLocale bundle with
          | Returned bundle' =>
              run_initializers rest newLocale (<[loc_tag newLocale := bundle']> table)
          | Raised bundle' =>
              (Throw InitializerError, <[loc_tag newLocale := bundle']> table)
          end
      end
  end.

(** A bundle after every initializer has run on it, in registration
    order. *)
Fixpoint initialized (inits : list BundleInitializer) (newLocale : Locale)
    (bundle : FluentBundle) : FluentBundle :=
  match inits with
  | [] => bundle
  | bundleInit :: rest =>
      match bundleInit newLocale bundle with
      | Returned bundle' => initialized rest newLocale bundle'
      | Raised bundle' => initialized rest newLocale bundle'
      end
  end.

End Vocabulary.

(** * Vocabulary of the further properties *)

Section FurtherVocabulary.
Context {Intl : IntlLocaleAPI} {FB : FluentBundleAPI} {RB : ResourceBackend}.

(** [new Intl.Locale(s)] throws. *)
Definition malformed (s : string) : bool :=
  match canonical s with
  | Some _ => false
  | None => true
  end.

(** The spellings of the options in the order the constructor parses them:
    the locales, then every fallback entry (its key, then its array), then
    the default locale. *)
Definition fallback_spellings (entries : list (string * list string))
    : list string :=
  flat_map (fun entry => fst entry :: snd entry) entries.

Definition option_spellings (options : FluentBoxOptions) : list string :=
  opt_locales options
  ++ fallback_spellings (default [] (opt_fallbacks options))
  ++ [opt_defaultLocale options].

Definition first_malformed (options : FluentBoxOptions) : option string :=
  find malformed (option_spellings options).

(** The store after [new FluentBox(options)] ran in a world whose next free
    address was [n]: the object is at [6 + n], after the six collections of
    its field initialisers, and the file list that the constructor
    allocates is at [7 + n]. *)
Record constructed (options : FluentBoxOptions) (n : ref) (W W' : World)
    : Prop := {
  new_object :
    exists d,
      store W' !! (6 + n)
      = Some (CBox {| _currentLocale := None;
                      _localeToPathComponents := n;
                      _locales := 1 + n;
                      _defaultLocale := Some d;
                      _fallbacks := 2 + n;
                      _assets := 3 + n;
                      _source := opt_source options;
                      _files := 7 + n;
                      _bundleInitializers := 5 + n;
                      _clean := opt_clean options;
                      _method := opt_method options |})
      /\ canonical (opt_defaultLocale options) = Some (loc_tag d);
  new_locales :
    store W' !! (1 + n)
    = Some (CLocaleSet (canonical_forms (opt_locales options)));
  new_paths :
    exists pcs,
      store W' !! n = Some (CPathMap pcs)
      /\ dom pcs = canonical_forms (opt_locales options)
      /\ forall c u, pcs !! c = Some u ->
           canonical u = Some c /\ u ∈ opt_locales options;
  new_fallbacks :
    exists fbs,
      store W' !! (2 + n) = Some (CFallbacks fbs)
      /\ dom fbs
         = canonical_forms (fst <$> default [] (opt_fallbacks options))
      /\ forall k list, fbs !! k = Some list ->
           exists key arr,
             (key, arr) ∈ default [] (opt_fallbacks options)
             /\ canonical key = Some k
             /\ Forall2 (fun a c => canonical a = Some c) arr list;
  new_assets : store W' !! (3 + n) = Some (CAssets ∅);
  new_initializers : store W' !! (5 + n) = Some (CInits []);
  new_files : store W' !! (7 + n) = Some (CFiles (opt_files options));
  new_next : next_ref W' = 8 + n;
  new_frame : forall r, r < n -> store W' !! r = store W !! r
}.

(** Only the cell at [r] may have changed, and nothing was allocated. *)
Definition only_at (r : ref) (W W' : World) : Prop :=
  next_ref W' = next_ref W
  /\ forall r', r' <> r -> store W' !! r' = store W !! r'.

(** [rank] decreases along every edge of the fallback graph: the graph
    has no cycle. *)
Definition ranked (rank : string -> nat) (fbs : gmap string (list string))
    : Prop :=
  map_Forall (fun locale list => Forall (fun item => rank item < rank locale) list)
             fbs.

(** Every identifier listed in the graph is accepted by [Intl.Locale]. *)
Definition parsable (fbs : gmap string (list string)) : Prop :=
  map_Forall (fun _ list => Forall (fun item => is_Some (canonical item)) list)
             fbs.

(** Every locale of [trap] has a successor in [trap]: a walk that enters
    [trap] can go on for ever. *)
Definition trapped (next : string -> list string) (trap : gset string) : Prop :=
  set_Forall (fun locale => Exists (fun item => item ∈ trap) (next locale)) trap.

(** Where the cascade goes from a locale that has nothing for the message:
    its fallbacks, then the default locale unless it is that locale. *)
Definition cascade_next (b : FluentBox) (fbs : gmap string (list string))
    (locale : string) : list string :=
  fallbacks_of fbs locale
  ++ (if default_differs b locale then [default_tag b] else []).

(** Some bundle of the table defines the message. *)
Definition defined_somewhere (table : gmap string FluentBundle) (id : string)
    : bool :=
  existsb (fun entry => match bundle_getMessage (snd entry) id with
                        | Some _ => true
                        | None => false
                        end)
          (map_to_list table).

(** The object at [this] and its fallback graph, which is all that the
    enumerations read. *)
Definition graph_at (W : World) (this : ref) (b : FluentBox)
    (fbs : gmap string (list string)) : Prop :=
  store W !! this = Some (CBox b)
  /\ store W !! _fallbacks b = Some (CFallbacks fbs).

(** The computation ended otherwise than by returning a value. *)
Definition no_value {A} (r : Res A) : Prop :=
  match r with Ok _ => False | _ => True end.

(** The configuration with one more bundle initializer. *)
Definition with_initializer (fn : BundleInitializer) (cfg : Config) : Config :=
  mkConfig (cfg_locales cfg) (cfg_pathComponents cfg) (cfg_fallbacks cfg)
           (cfg_defaultLocale cfg) (cfg_source cfg) (cfg_files cfg)
           (cfg_clean cfg) (cfg_method cfg)
           (cfg_bundleInitializers cfg ++ [fn]).

End FurtherVocabulary.

(** * A concrete environment

    Instances of the three external interfaces, small enough to run the
    engine on: they give the examples and counterexamples below something
    to compute with. *)

(** The case rules of BCP 47 canonicalisation on tags of the shape
    [language], [language-script], [language-region] or
    [language-script-region]: language in lower case, script in title
    case, region in upper case.  Other tags are rejected by this instance
    (the platform routine accepts more, and replaces deprecated subtags). *)

Definition is_alpha (c : ascii) : bool :=
  let n := nat_of_ascii (lower_ascii c) in (97 <=? n)%nat && (n <=? 122)%nat.

Definition is_digit (c : ascii) : bool :=
  let n := nat_of_ascii c in (48 <=? n)%nat && (n <=? 57)%nat.

Fixpoint all_chars (p : ascii -> bool) (s : string) : bool :=
  match s with
  | EmptyString => true
  | String c r => p c && all_chars p r
  end.

Fixpoint subtags_from (s : string) (cur : string) : list string :=
  match s with
  | EmptyString => [cur]
  | String c r =>
      if Ascii.eqb c "-" then cur :: subtags_from r EmptyString
      else subtags_from r (cur +:+ String c EmptyString)
  end.

Definition subtags (s : string) : list string := subtags_from s EmptyString.

Definition is_language (t : string) : bool :=
  ((String.length t =? 2)%nat || (String.length t =? 3)%nat) && all_chars is_alpha t.
Definition is_script (t : string) : bool :=
  (String.length t =? 4)%nat && all_chars is_alpha t.
Definition is_region (t : string) : bool :=
  ((String.length t =? 2)%nat && all_chars is_alpha t)
  || ((String.length t =? 3)%nat && all_chars is_digit t).

Definition titleCase (t : string) : string :=
  match t with
  | EmptyString => EmptyString
  | String c r => String (upper_ascii c) (toLowerCase r)
  end.

Definition bcp47_canonical (s : string) : option string :=
  match subtags s with
  | [l] =>
      if is_language l then Some (toLowerCase l) else None
  | [l; x] =>
      if is_language l && is_script x
      then Some (toLowerCase l +:+ "-" +:+ titleCase x)
      else if is_language l && is_region x
      then Some (toLowerCase l +:+ "-" +:+ toUpperCase x)
      else None
  | [l; sc; r] =>
      if is_language l && is_script sc && is_region r
      then Some (toLowerCase l +:+ "-" +:+ titleCase sc +:+ "-" +:+ toUpperCase r)
      else None
  | _ => None
  end.

#[export] Instance sample_intl : IntlLocaleAPI := {|
  canonical := bcp47_canonical
|}.

(** Bundles as finite maps from message ids to an optional pattern.  A
    pattern is either plain text, which is its own rendering, or, when it
    starts with [$], a reference to the variable of that name: it renders
    as the variable's value, and an unknown variable renders as a
    placeholder and is reported. *)
Definition sample_variable (args : option (list (string * string)))
    (name : string) : option string :=
  match args with
  | Some bindings =>
      snd <$> find (fun binding => String.eqb (fst binding) name) bindings
  | None => None
  end.

Definition sample_resolve (bundle : gmap string (option string))
    (pattern : string) (args : option (list (string * string)))
    : string * list string :=
  match pattern with
  | String "$" name =>
      match sample_variable args name with
      | Some value => (value, [])
      | None => ("{$" +:+ name +:+ "}", ["Unknown variable: $" +:+ name])
      end
  | _ => (pattern, [])
  end.

#[export] Instance sample_bundles : FluentBundleAPI := {|
  FluentBundle := gmap string (option string);
  Pattern := string;
  FluentArgs := list (string * string);
  FormatError := string;
  bundle_getMessage := fun bundle id => bundle !! id;
  resolvePattern := sample_resolve
|}.

(** A resource tree: one bundle per path component below the source
    ["res/lang"]; a locale without a directory there (here ["de"]) fails to
    load. *)
Definition bundle_en_us : gmap string (option string) :=
  {[ "hello" := Some "Hello"; "bye" := Some "Goodbye"; "blank" := None ]}.
Definition bundle_pt_br : gmap string (option string) :=
  {[ "hello" := Some "Oi" ]}.
Definition bundle_pt : gmap string (option string) :=
  {[ "hello" := Some "Ola"; "thanks" := Some "Obrigado" ]}.
Definition bundle_es : gmap string (option string) :=
  {[ "thanks" := Some "Gracias"; "please" := Some "Por favor" ]}.
Definition bundle_fr : gmap string (option string) :=
  {[ "hello" := Some "Bonjour"; "merci" := Some "Merci";
     "salut" := Some "$name" ]}.
Definition bundle_gl : gmap string (option string) :=
  {[ "hello" := Some "Ola" ]}.
Definition bundle_nl : gmap string (option string) :=
  {[ "hello" := Some "Hallo" ]}.

Definition sample_tree : gmap string (gmap string (option string)) :=
  {[ "en-us" := bundle_en_us; "pt-br" := bundle_pt_br; "pt" := bundle_pt;
     "es" := bundle_es; "fr" := bundle_fr; "gl" := bundle_gl;
     "nl" := bundle_nl ]}.

Definition sample_loader (source : string) (pathComponent : option string)
    (files : list string) (localeAsStr : string)
    : option (gmap string (option string)) :=
  if String.eqb source "res/lang"
  then match pathComponent with
       | Some c => sample_tree !! c
       | None => None
       end
  else None.

#[export] Instance sample_backend : ResourceBackend := {|
  fsloader := sample_loader;
  httpLoader := sample_loader
|}.

Definition empty_world : World := mkWorld ∅ 0 0 [].

(** The world a computation leaves. *)
Definition after {A} (m : M A) (W : World) : World := snd (m W).

(** Observations of a handle, for stating examples: its fields, its Asset
    Table, its fallback graph and its locale set (empty when the store does
    not hold them). *)
Definition the_box `{FluentBundleAPI} (W : World) (this : ref) : FluentBox :=
  match store W !! this with
  | Some (CBox b) => b
  | _ => mkFluentBox None 0 0 None 0 0 "" 0 0 true http
  end.
Definition the_table `{FluentBundleAPI} (W : World) (this : ref)
    : gmap string FluentBundle :=
  match store W !! _assets (the_box W this) with
  | Some (CAssets m) => m
  | _ => ∅
  end.
Definition the_fallbacks `{FluentBundleAPI} (W : World) (this : ref)
    : gmap string (list string) :=
  match store W !! _fallbacks (the_box W this) with
  | Some (CFallbacks m) => m
  | _ => ∅
  end.
Definition the_locales `{FluentBundleAPI} (W : World) (this : ref) : gset string :=
  match store W !! _locales (the_box W this) with
  | Some (CLocaleSet s) => s
  | _ => ∅
  end.
Definition the_initializers `{FluentBundleAPI} (W : World) (this : ref)
    : list BundleInitializer :=
  match store W !! _bundleInitializers (the_box W this) with
  | Some (CInits l) => l
  | _ => []
  end.

(** An application: eight declared locales (the path components are the
    spellings given here), Brazilian Portuguese falling back on Portuguese
    and Spanish, which both fall back on French; Galician on Portuguese;
    Dutch on German, for which there are no resources. *)
Definition sample_options (clean : bool) : FluentBoxOptions := {|
  opt_locales := ["en-us"; "pt-br"; "pt"; "es"; "fr"; "gl"; "nl"; "de"];
  opt_fallbacks := Some [("pt-br", ["pt"; "es"]); ("pt", ["fr"]); ("es", ["fr"]);
                         ("gl", ["pt"]); ("nl", ["de"])];
  opt_defaultLocale := "en-us";
  opt_source := "res/lang";
  opt_files := ["main"];
  opt_clean := clean;
  opt_method := http
|}.

(** [new FluentBox(options)] in the empty world puts the object at
    address 6, after its six collections. *)
Definition sample_box : ref := 6.

(** An initializer: it brands the bundle it is given. *)
Definition brand (bundle : gmap string (option string))
    : gmap string (option string) :=
  <["brand" := Some "Acme"]> bundle.
Definition brand_initializer : BundleInitializer :=
  fun _ bundle => Returned (brand bundle).

(** The accumulating application just constructed and given its
    initializer, then with its default locale loaded; [en_US] is the locale
    object its constructor made. *)
Definition world_new : World :=
  after (addBundleInitializer sample_box brand_initializer)
        (after (FluentBox_new (sample_options false)) empty_world).
Definition world_default : World := after (load 8 sample_box None) world_new.
Definition en_US : Locale := mkLocale 19 "en-US".

(** The locale objects the examples pass to [load], each created in the
    world named. *)
Definition locale_in (W : World) (tag : string) : Locale := mkLocale (next_oid W) tag.
Definition with_locale (tag : string) (W : World) : World :=
  after (new_Locale (inl tag)) W.

(** Galician requested after the default locale: the cascade example. *)
Definition world_gl_arg : World := with_locale "gl" world_default.
Definition gl : Locale := locale_in world_default "gl".
Definition world_gl : World := after (load 8 sample_box (Some gl)) world_gl_arg.

(** Dutch requested after the default locale: German fails to load. *)
Definition world_nl_arg : World := with_locale "nl" world_default.
Definition nl : Locale := locale_in world_default "nl".

(** Brazilian Portuguese requested first: French is reachable twice. *)
Definition world_ptBR_arg : World := with_locale "pt-BR" world_new.
Definition ptBR : Locale := locale_in world_new "pt-BR".

(** Japanese is not declared. *)
Definition world_ja_arg : World := with_locale "ja" world_default.
Definition ja : Locale := locale_in world_default "ja".

(** A clone of the freshly constructed handle (at address 14, after the
    six collections its private construction allocates and drops), and
    French then loaded through the original. *)
Definition world_cloned : World := after (clone sample_box) world_new.
Definition sample_clone : ref := 14.
Definition world_fr_arg : World := with_locale "fr" world_cloned.
Definition fr : Locale := locale_in world_cloned "fr".
Definition world_fr : World := after (load 8 sample_box (Some fr)) world_fr_arg.

(** The same application under the clean policy: the default locale is
    loaded, then Galician. *)
Definition clean_new : World :=
  after (addBundleInitializer sample_box brand_initializer)
        (after (FluentBox_new (sample_options true)) empty_world).
Definition clean_default : World := after (load 8 sample_box None) clean_new.
Definition clean_gl_arg : World := with_locale "gl" clean_default.
Definition clean_gl : World :=
  after (load 8 sample_box (Some (locale_in clean_default "gl"))) clean_gl_arg.


(** The configuration as read through a handle (an empty one when the
    store does not hold it). *)
Definition the_config (W : World) (this : ref) : Config :=
  match fst (read_config this W) with
  | Ok cfg => cfg
  | _ => mkConfig ∅ ∅ ∅ None "" [] true http []
  end.

(** The application just constructed, before anything else is done to
    it. *)
Definition world_constructed : World :=
  after (FluentBox_new (sample_options false)) empty_world.

(** A rank on the locales of the application that decreases along its
    fallback graph. *)
Definition sample_rank (locale : string) : nat :=
  if String.eqb locale "pt-BR" then 3
  else if String.eqb locale "gl" then 3
  else if String.eqb locale "pt" then 2
  else if String.eqb locale "es" then 2
  else if String.eqb locale "nl" then 2
  else if String.eqb locale "fr" then 1
  else if String.eqb locale "de" then 1
  else 0.

(** The fallback graph of the application, as its constructor stores
    it. *)
Definition sample_graph : gmap string (list string) :=
  <["pt-BR" := ["pt"; "es"]]>
    (<["pt" := ["fr"]]>
       (<["es" := ["fr"]]> (<["gl" := ["pt"]]> (<["nl" := ["de"]]> ∅)))).

(** The loaders of a [load] in flight. *)
Definition tasks_of (r : Res LoadInFlight)
    : list (Promise (string * FluentBundle)) :=
  match r with
  | Ok (InFlight _ tasks) => tasks
  | _ => []
  end.

(** An application whose default locale has a fallback: American English
    falls back on French.  The default locale is loaded, then French. *)
Definition looping_options : FluentBoxOptions := {|
  opt_locales := ["en-us"; "fr"];
  opt_fallbacks := Some [("en-us", ["fr"])];
  opt_defaultLocale := "en-us";
  opt_source := "res/lang";
  opt_files := ["main"];
  opt_clean := false;
  opt_method := http
|}.
Definition looping_new : World := after (FluentBox_new looping_options) empty_world.
Definition looping_default : World := after (load 8 sample_box None) looping_new.
Definition looping_en_US : Locale := mkLocale 4 "en-US".
Definition looping_fr_arg : World := with_locale "fr" looping_default.
Definition looping_fr : World :=
  after (load 8 sample_box (Some (locale_in looping_default "fr"))) looping_fr_arg.

(** An application whose fallback graph has a cycle: Portuguese falls back
    on Spanish and Spanish on Portuguese. *)
Definition cyclic_options : FluentBoxOptions := {|
  opt_locales := ["en-us"; "pt"; "es"];
  opt_fallbacks := Some [("pt", ["es"]); ("es", ["pt"])];
  opt_defaultLocale := "en-us";
  opt_source := "res/lang";
  opt_files := ["main"];
  opt_clean := false;
  opt_method := http
|}.
Definition cyclic_new : World := after (FluentBox_new cyclic_options) empty_world.
Definition cyclic_pt_arg : World := with_locale "pt" cyclic_new.
Definition cyclic_pt : Locale := locale_in cyclic_new "pt".

(** An initializer that brands the bundle and then throws; the
    application with this initializer only. *)
Definition failing_initializer : BundleInitializer :=
  fun _ bundle => Raised (brand bundle).
Definition failing_new : World :=
  after (addBundleInitializer sample_box failing_initializer) world_constructed.
Definition failing_gl_arg : World := with_locale "gl" failing_new.
Definition failing_gl : Locale := locale_in failing_new "gl".

(** The error array that a lookup hands back. *)
Definition sink_of (r : Res (option string * Sink)) : Sink :=
  match r with
  | Ok (_, errors) => errors
  | _ => None
  end.

(** An error array that holds an error already. *)
Definition earlier_errors : @Sink sample_bundles := Some ["earlier"].
(** * Properties *)

Section Properties.
Context {Intl : IntlLocaleAPI} {FB : FluentBundleAPI} {RB : ResourceBackend}.

Notation "'let*' x ':=' c1 'in' c2" := (bind c1 (fun x => c2))
  (at level 10, x pattern, c1 at level 100, c2 at level 200).

(** ** Running the monad *)

Lemma bind_eq {A B} (m : M A) (k : A -> M B) W :
  bind m k W =
  match m W with
  | (Ok a, W') => k a W'
  | (Throw e, W') => (Throw e, W')
  | (OutOfFuel, W') => (OutOfFuel, W')
  end.
Proof. reflexivity. Qed.

Lemma bind_ok {A B} (m : M A) (k : A -> M B) W a W' :
  m W = (Ok a, W') -> bind m k W = k a W'.
Proof. intros H. rewrite bind_eq, H. reflexivity. Qed.

Lemma run_pair {A} (m : M A) W a : fst (m W) = a -> m W = (a, snd (m W)).
Proof. destruct (m W). cbn. now intros ->. Qed.

Lemma read_box_ok W r b :
  store W !! r = Some (CBox b) -> read_box r W = (Ok b, W).
Proof. intros H. unfold read_box, bind, read. rewrite H. reflexivity. Qed.

Lemma read_assets_ok W r m :
  store W !! r = Some (CAssets m) -> read_assets r W = (Ok m, W).
Proof. intros H. unfold read_assets, bind, read. rewrite H. reflexivity. Qed.

Lemma read_fallbacks_ok W r m :
  store W !! r = Some (CFallbacks m) -> read_fallbacks r W = (Ok m, W).
Proof. intros H. unfold read_fallbacks, bind, read. rewrite H. reflexivity. Qed.

Lemma read_localeset_ok W r s :
  store W !! r = Some (CLocaleSet s) -> read_localeset r W = (Ok s, W).
Proof. intros H. unfold read_localeset, bind, read. rewrite H. reflexivity. Qed.

Lemma read_pathmap_ok W r m :
  store W !! r = Some (CPathMap m) -> read_pathmap r W = (Ok m, W).
Proof. intros H. unfold read_pathmap, bind, read. rewrite H. reflexivity. Qed.

Lemma read_files_ok W r l :
  store W !! r = Some (CFiles l) -> read_files r W = (Ok l, W).
Proof. intros H. unfold read_files, bind, read. rewrite H. reflexivity. Qed.

Lemma read_inits_ok W r l :
  store W !! r = Some (CInits l) -> read_inits r W = (Ok l, W).
Proof. intros H. unfold read_inits, bind, read. rewrite H. reflexivity. Qed.

(** Typed reads either fail with the world untouched or return the cell. *)
Lemma read_box_inv W r x W' :
  read_box r W = (x, W') ->
  W' = W /\ ((exists b, x = Ok b /\ store W !! r = Some (CBox b))
             \/ (x = Throw TypeError /\ forall b, store W !! r <> Some (CBox b))).
Proof.
  unfold read_box, bind, read.
  destruct (store W !! r) as [[]|]; cbn; intros [= <- <-]; split; eauto;
    right; split; auto; congruence.
Qed.

Lemma read_assets_inv W r x W' :
  read_assets r W = (x, W') ->
  W' = W /\ ((exists m, x = Ok m /\ store W !! r = Some (CAssets m))
             \/ (x = Throw TypeError /\ forall m, store W !! r <> Some (CAssets m))).
Proof.
  unfold read_assets, bind, read.
  destruct (store W !! r) as [[]|]; cbn; intros [= <- <-]; split; eauto;
    right; split; auto; congruence.
Qed.

(** ** Computations that leave the world as it is *)

Lemma readonly_ret {A} (a : A) : readonly (ret a).
Proof. intros W. reflexivity. Qed.

Lemma readonly_throw {A} e : readonly (throw (A:=A) e).
Proof. intros W. reflexivity. Qed.

Lemma readonly_out_of_fuel {A} : readonly (out_of_fuel (A:=A)).
Proof. intros W. reflexivity. Qed.

Lemma readonly_of_res {A} (r : Res A) : readonly (of_res r).
Proof. intros W. reflexivity. Qed.

Lemma readonly_bind {A B} (m : M A) (k : A -> M B) :
  readonly m -> (forall a, readonly (k a)) -> readonly (bind m k).
Proof.
  intros Hm Hk W. rewrite bind_eq. specialize (Hm W).
  destruct (m W) as [[a|e|] W1]; cbn in *; subst; auto. apply Hk.
Qed.

Lemma readonly_read r : readonly (read r).
Proof. intros W. unfold read. destruct (store W !! r); reflexivity. Qed.

Lemma readonly_read_box r : readonly (read_box r).
Proof.
  apply readonly_bind; [apply readonly_read|].
  intros []; first [apply readonly_ret | apply readonly_throw].
Qed.
Lemma readonly_read_assets r : readonly (read_assets r).
Proof.
  apply readonly_bind; [apply readonly_read|].
  intros []; first [apply readonly_ret | apply readonly_throw].
Qed.
Lemma readonly_read_fallbacks r : readonly (read_fallbacks r).
Proof.
  apply readonly_bind; [apply readonly_read|].
  intros []; first [apply readonly_ret | apply readonly_throw].
Qed.
Lemma readonly_read_localeset r : readonly (read_localeset r).
Proof.
  apply readonly_bind; [apply readonly_read|].
  intros []; first [apply readonly_ret | apply readonly_throw].
Qed.

Create HintDb readonly.
#[local] Hint Resolve readonly_ret readonly_throw readonly_out_of_fuel
  readonly_of_res readonly_read_box readonly_read_assets readonly_read_fallbacks
  readonly_read_localeset : readonly.

Lemma readonly_first_message rec fallbacks errors :
  (forall fl errs, readonly (rec fl errs)) ->
  readonly (first_message rec fallbacks errors).
Proof.
  intros Hrec. revert errors.
  induction fallbacks as [|fl rest IH]; intros errors; cbn; auto with readonly.
  apply readonly_bind; [apply Hrec|].
  intros [[s|] errors']; auto with readonly.
Qed.

Lemma readonly_any_message rec fallbacks :
  (forall fl, readonly (rec fl)) -> readonly (any_message rec fallbacks).
Proof.
  intros Hrec. induction fallbacks as [|fl rest IH]; cbn; auto with readonly.
  apply readonly_bind; [apply Hrec|].
  intros []; auto with readonly.
Qed.

Lemma readonly_getMessageByLocale fuel this id locale args errors :
  readonly (_getMessageByLocale fuel this id locale args errors).
Proof.
  revert locale errors.
  induction fuel as [|fuel IH]; intros locale errors; cbn; auto with readonly.
  apply readonly_bind; auto with readonly. intros b.
  apply readonly_bind; auto with readonly. intros table.
  match goal with |- readonly (match ?o with _ => _ end) => destruct o end;
    auto with readonly.
  apply readonly_bind; auto with readonly. intros fbs.
  apply readonly_bind.
  - destruct (fbs !! locale); auto with readonly.
    apply readonly_first_message. auto.
  - intros [[s|] errors']; auto with readonly.
    destruct (_defaultLocale b); auto with readonly.
    case_bool_decide; auto with readonly.
Qed.

Lemma readonly_hasMessageByLocale fuel this id locale :
  readonly (_hasMessageByLocale fuel this id locale).
Proof.
  revert locale.
  induction fuel as [|fuel IH]; intros locale; cbn; auto with readonly.
  apply readonly_bind; auto with readonly. intros b.
  apply readonly_bind; auto with readonly. intros table.
  match goal with |- readonly (if ?o then _ else _) => destruct o end;
    auto with readonly.
  apply readonly_bind; auto with readonly. intros fbs.
  apply readonly_bind.
  - destruct (fbs !! locale); auto with readonly.
    apply readonly_any_message. auto.
  - intros []; auto with readonly.
    destruct (_defaultLocale b); auto with readonly.
    case_bool_decide; auto with readonly.
Qed.

Lemma readonly_getMessage fuel this id args errors :
  readonly (getMessage fuel this id args errors).
Proof.
  apply readonly_bind; auto with readonly. intros b.
  destruct (_currentLocale b); auto with readonly.
  apply readonly_getMessageByLocale.
Qed.

Lemma readonly_hasMessage fuel this id : readonly (hasMessage fuel this id).
Proof.
  apply readonly_bind; auto with readonly. intros b.
  destruct (_currentLocale b); auto with readonly.
  apply readonly_hasMessageByLocale.
Qed.

(** ** The cascade on a well-typed store *)

Lemma getMessageByLocale_found W this b table fbs fuel id locale args errors
    assets value :
  engine_at W this b table fbs ->
  own_message table locale id = Some (assets, value) ->
  _getMessageByLocale (S fuel) this id locale args errors W =
  (render assets value args errors, W).
Proof.
  intros [Hb Ha Hf] Hown. cbn [_getMessageByLocale].
  rewrite (bind_ok _ _ _ _ _ (read_box_ok _ _ _ Hb)).
  rewrite (bind_ok _ _ _ _ _ (read_assets_ok _ _ _ Ha)).
  unfold own_message in Hown.
  destruct (table !! locale) as [bundle|]; [|discriminate].
  destruct (bundle_getMessage bundle id) as [v|]; [|discriminate].
  injection Hown as -> ->. unfold render.
  destruct value as [pattern|]; reflexivity.
Qed.

Lemma getMessageByLocale_miss W this b table fbs fuel id locale args errors :
  engine_at W this b table fbs ->
  own_message table locale id = None ->
  _getMessageByLocale (S fuel) this id locale args errors W =
  match first_message
          (fun fl errors => _getMessageByLocale fuel this id fl args errors)
          (fallbacks_of fbs locale) errors W with
  | (Ok (Some s, errors'), W') => (Ok (Some s, errors'), W')
  | (Ok (None, errors'), W') =>
      if default_differs b locale
      then _getMessageByLocale fuel this id (default_tag b) args errors' W'
      else (Ok (None, errors'), W')
  | (Throw e, W') => (Throw e, W')
  | (OutOfFuel, W') => (OutOfFuel, W')
  end.
Proof.
  intros [Hb Ha Hf] Hown. cbn [_getMessageByLocale].
  rewrite (bind_ok _ _ _ _ _ (read_box_ok _ _ _ Hb)).
  rewrite (bind_ok _ _ _ _ _ (read_assets_ok _ _ _ Ha)).
  unfold own_message in Hown.
  replace (match table !! locale with
           | Some assets =>
               match bundle_getMessage assets id with
               | Some (Some value) =>
                   Some (res_map (fun '(s, errors') => (Some s, errors'))
                                 (formatPattern assets value args errors))
               | Some None => Some (Ok (Some "", errors))
               | None => None
               end
           | None => None
           end) with (@None (Res (option string * Sink))).
  2:{ destruct (table !! locale) as [bundle|]; [|reflexivity].
      destruct (bundle_getMessage bundle id); [discriminate|reflexivity]. }
  rewrite (bind_ok _ _ _ _ _ (read_fallbacks_ok _ _ _ Hf)).
  rewrite bind_eq. unfold fallbacks_of, default_differs, default_tag.
  destruct (fbs !! locale) as [l|]; cbn.
  - destruct (first_message _ l errors W) as [[[[s|] errors']|e|] W']; try reflexivity.
    destruct (_defaultLocale b); [case_bool_decide|]; reflexivity.
  - destruct (_defaultLocale b); [case_bool_decide|]; reflexivity.
Qed.

Lemma hasMessageByLocale_found W this b table fbs fuel id locale mv :
  engine_at W this b table fbs ->
  own_message table locale id = Some mv ->
  _hasMessageByLocale (S fuel) this id locale W = (Ok true, W).
Proof.
  intros [Hb Ha Hf] Hown. cbn [_hasMessageByLocale].
  rewrite (bind_ok _ _ _ _ _ (read_box_ok _ _ _ Hb)).
  rewrite (bind_ok _ _ _ _ _ (read_assets_ok _ _ _ Ha)).
  unfold own_message in Hown.
  destruct (table !! locale) as [bundle|]; [|discriminate].
  destruct (bundle_getMessage bundle id) as [v|]; [|discriminate].
  reflexivity.
Qed.

Lemma hasMessageByLocale_miss W this b table fbs fuel id locale :
  engine_at W this b table fbs ->
  own_message table locale id = None ->
  _hasMessageByLocale (S fuel) this id locale W =
  match any_message (fun fl => _hasMessageByLocale fuel this id fl)
                    (fallbacks_of fbs locale) W with
  | (Ok true, W') => (Ok true, W')
  | (Ok false, W') =>
      if default_differs b locale
      then _hasMessageByLocale fuel this id (default_tag b) W'
      else (Ok false, W')
  | (Throw e, W') => (Throw e, W')
  | (OutOfFuel, W') => (OutOfFuel, W')
  end.
Proof.
  intros [Hb Ha Hf] Hown. cbn [_hasMessageByLocale].
  rewrite (bind_ok _ _ _ _ _ (read_box_ok _ _ _ Hb)).
  rewrite (bind_ok _ _ _ _ _ (read_assets_ok _ _ _ Ha)).
  unfold own_message in Hown.
  replace (match table !! locale with
           | Some assets =>
               match bundle_getMessage assets id with
               | Some _ => true
               | None => false
               end
           | None => false
           end) with false.
  2:{ destruct (table !! locale) as [bundle|]; [|reflexivity].
      destruct (bundle_getMessage bundle id); [discriminate|reflexivity]. }
  rewrite (bind_ok _ _ _ _ _ (read_fallbacks_ok _ _ _ Hf)).
  rewrite bind_eq. unfold fallbacks_of, default_differs, default_tag.
  destruct (fbs !! locale) as [l|]; cbn.
  - destruct (any_message _ l W) as [[[]|e|] W']; try reflexivity.
    destruct (_defaultLocale b); [case_bool_decide|]; reflexivity.
  - destruct (_defaultLocale b); [case_bool_decide|]; reflexivity.
Qed.

(** ** [hasMessage] against [getMessage] *)

Lemma plain_read_box r : plain (read_box r).
Proof.
  intros W e0. unfold read_box, bind, read.
  destruct (store W !! r) as [[]|]; cbn; intros [= <-]; discriminate.
Qed.
Lemma plain_read_assets r : plain (read_assets r).
Proof.
  intros W e0. unfold read_assets, bind, read.
  destruct (store W !! r) as [[]|]; cbn; intros [= <-]; discriminate.
Qed.
Lemma plain_read_fallbacks r : plain (read_fallbacks r).
Proof.
  intros W e0. unfold read_fallbacks, bind, read.
  destruct (store W !! r) as [[]|]; cbn; intros [= <-]; discriminate.
Qed.

Lemma agree_ret (p : option string * Sink) : agree (ret (found p)) (ret p).
Proof. intros W. reflexivity. Qed.

Lemma agree_render assets value args errors :
  agree (ret true) (of_res (render assets value args errors)).
Proof.
  intros W. unfold render, formatPattern, of_res. cbn.
  destruct value as [pattern|]; [|reflexivity].
  destruct (resolvePattern assets pattern args) as [s errs].
  destruct errors as [l|], errs as [|e errs]; reflexivity.
Qed.

Lemma agree_bind_same {A} (m : M A) kh kg :
  plain m ->
  (forall a, agree (kh a) (kg a)) -> agree (bind m kh) (bind m kg).
Proof.
  intros Hm Hk W. rewrite !bind_eq. specialize (Hm W).
  destruct (m W) as [[a|e|] W1]; cbn in *; auto; [apply Hk|].
  destruct e; try reflexivity. now destruct (Hm _ eq_refl e).
Qed.

Lemma agree_bind mh mg kh kg :
  agree mh mg -> readonly mh -> readonly mg ->
  (forall p, agree (kh (found p)) (kg p)) ->
  (forall W, fst (kh true W) = Ok true) ->
  agree (bind mh kh) (bind mg kg).
Proof.
  intros Hm Hh Hg Hk Htrue W. rewrite !bind_eq.
  specialize (Hm W). specialize (Hh W). specialize (Hg W).
  destruct (mh W) as [rh Wh], (mg W) as [rg Wg]. cbn in *. subst Wh Wg.
  destruct rg as [p|e|]; cbn in Hm; subst rh; cbn; auto; [apply Hk|].
  destruct e; cbn; auto.
Qed.

Lemma agree_loops rech recg fallbacks errors :
  (forall fl errs, agree (rech fl) (recg fl errs)) ->
  (forall fl, readonly (rech fl)) ->
  (forall fl errs, readonly (recg fl errs)) ->
  agree (any_message rech fallbacks) (first_message recg fallbacks errors).
Proof.
  intros Hrec Hh Hg. revert errors.
  induction fallbacks as [|fl rest IH]; intros errors; cbn.
  - apply (agree_ret (None, errors)).
  - apply agree_bind; auto.
    intros [[s|] errors']; cbn.
    + apply (agree_ret (Some s, errors')).
    + apply IH.
Qed.

Lemma agree_rest fuel this id locale args errors b :
  (forall locale errors,
     agree (_hasMessageByLocale fuel this id locale)
           (_getMessageByLocale fuel this id locale args errors)) ->
  agree
    (let* fbs := read_fallbacks (_fallbacks b) in
     let* r :=
       match fbs !! locale with
       | Some fallbacks =>
           any_message (fun fl => _hasMessageByLocale fuel this id fl) fallbacks
       | None => ret false
       end in
     if r then ret true
     else
       match _defaultLocale b with
       | Some d =>
           let nextLocale := loc_tag d in
           if bool_decide (toLowerCase locale <> toLowerCase nextLocale)
           then _hasMessageByLocale fuel this id nextLocale
           else ret false
       | None => ret false
       end)
    (let* fbs := read_fallbacks (_fallbacks b) in
     let* (r, errors') :=
       match fbs !! locale with
       | Some fallbacks =>
           first_message
             (fun fl errors => _getMessageByLocale fuel this id fl args errors)
             fallbacks errors
       | None => ret (None, errors)
       end in
     match r with
     | Some s => ret (Some s, errors')
     | None =>
         match _defaultLocale b with
         | Some d =>
             let nextLocale := loc_tag d in
             if bool_decide (toLowerCase locale <> toLowerCase nextLocale)
             then _getMessageByLocale fuel this id nextLocale args errors'
             else ret (None, errors')
         | None => ret (None, errors')
         end
     end).
Proof.
  intros IH.
  apply agree_bind_same; [apply plain_read_fallbacks|]. intros fbs.
  apply agree_bind.
  - destruct (fbs !! locale).
    + apply agree_loops; auto using readonly_hasMessageByLocale,
        readonly_getMessageByLocale.
    + apply (agree_ret (None, errors)).
  - destruct (fbs !! locale); auto with readonly.
    apply readonly_any_message. auto using readonly_hasMessageByLocale.
  - destruct (fbs !! locale); auto with readonly.
    apply readonly_first_message.
    auto using readonly_getMessageByLocale.
  - intros [[s|] errors']; cbn.
    + apply (agree_ret (Some s, errors')).
    + destruct (_defaultLocale b); [case_bool_decide|]; auto;
        apply (agree_ret (None, errors')).
  - reflexivity.
Qed.

Lemma agree_byLocale fuel this id locale args errors :
  agree (_hasMessageByLocale fuel this id locale)
        (_getMessageByLocale fuel this id locale args errors).
Proof.
  revert locale errors.
  induction fuel as [|fuel IH]; intros locale errors; cbn.
  - intros W. reflexivity.
  - apply agree_bind_same; [apply plain_read_box|]. intros b.
    apply agree_bind_same; [apply plain_read_assets|]. intros table.
    destruct (table !! locale) as [assets|].
    + destruct (bundle_getMessage assets id) as [[value|]|].
      * apply (agree_render assets (Some value) args errors).
      * apply (agree_render assets None args errors).
      * now apply agree_rest.
    + now apply agree_rest.
Qed.

Lemma agree_top fuel this id args errors :
  agree (hasMessage fuel this id) (getMessage fuel this id args errors).
Proof.
  apply agree_bind_same; [apply plain_read_box|]. intros b.
  destruct (_currentLocale b).
  - apply agree_byLocale.
  - apply (agree_ret (None, errors)).
Qed.
(** ** The error sink only grows *)

Lemma sink_push_nil errors : sink_push errors [] = errors.
Proof. destruct errors as [l|]; cbn; [rewrite app_nil_r|]; reflexivity. Qed.

Lemma sink_push_app errors errs1 errs2 :
  sink_push (sink_push errors errs1) errs2 = sink_push errors (errs1 ++ errs2).
Proof. destruct errors as [l|]; cbn; [rewrite app_assoc|]; reflexivity. Qed.

Lemma first_message_appends rec fallbacks :
  (forall fl errors W r errors' W',
     rec fl errors W = (Ok (r, errors'), W') ->
     exists errs, errors' = sink_push errors errs) ->
  forall errors W r errors' W',
    first_message rec fallbacks errors W = (Ok (r, errors'), W') ->
    exists errs, errors' = sink_push errors errs.
Proof.
  intros Hrec. induction fallbacks as [|fl rest IH]; intros errors W r errors' W'; cbn.
  - intros [= <- <- <-]. exists []. now rewrite sink_push_nil.
  - rewrite bind_eq.
    destruct (rec fl errors W) as [[[[s|] e1]|e|] W1] eqn:Hfl; try discriminate.
    + intros [= <- <- <-]. eapply Hrec; eauto.
    + intros Hrest. apply IH in Hrest as [errs2 ->].
      apply Hrec in Hfl as [errs1 ->].
      exists (errs1 ++ errs2). apply sink_push_app.
Qed.

Lemma getMessageByLocale_appends fuel this id args :
  forall locale errors W r errors' W',
    _getMessageByLocale fuel this id locale args errors W = (Ok (r, errors'), W') ->
    exists errs, errors' = sink_push errors errs.
Proof.
  induction fuel as [|fuel IH]; intros locale errors W r errors' W'; cbn;
    [discriminate|].
  rewrite bind_eq. destruct (read_box this W) as [[b|e|] W1]; try discriminate.
  rewrite bind_eq. destruct (read_assets (_assets b) W1) as [[table|e|] W2];
    try discriminate.
  assert (Hrest :
    (let* fbs := read_fallbacks (_fallbacks b) in
     let* (r, errors') :=
       match fbs !! locale with
       | Some fallbacks =>
           first_message
             (fun fl errors => _getMessageByLocale fuel this id fl args errors)
             fallbacks errors
       | None => ret (None, errors)
       end in
     match r with
     | Some s => ret (Some s, errors')
     | None =>
         match _defaultLocale b with
         | Some d =>
             let nextLocale := loc_tag d in
             if bool_decide (toLowerCase locale <> toLowerCase nextLocale)
             then _getMessageByLocale fuel this id nextLocale args errors'
             else ret (None, errors')
         | None => ret (None, errors')
         end
     end) W2 = (Ok (r, errors'), W') ->
    exists errs, errors' = sink_push errors errs).
  { rewrite bind_eq.
    destruct (read_fallbacks (_fallbacks b) W2) as [[fbs|e|] W3]; try discriminate.
    assert (Htail : forall e1 W4,
      (exists errs, e1 = sink_push errors errs) ->
      match _defaultLocale b with
      | Some d =>
          if bool_decide (toLowerCase locale <> toLowerCase (loc_tag d))
          then _getMessageByLocale fuel this id (loc_tag d) args e1
          else ret (None, e1)
      | None => ret (None, e1)
      end W4 = (Ok (r, errors'), W') ->
      exists errs, errors' = sink_push errors errs).
    { intros e1 W4 [errs1 ->].
      destruct (_defaultLocale b) as [d|]; [case_bool_decide|].
      - intros Hdef. apply IH in Hdef as [errs2 ->].
        exists (errs1 ++ errs2). apply sink_push_app.
      - intros [= <- <- <-]. eauto.
      - intros [= <- <- <-]. eauto. }
    rewrite bind_eq. destruct (fbs !! locale) as [l|].
    - destruct (first_message _ l errors W3) as [[[[s|] e1]|e|] W4] eqn:Hloop;
        try discriminate.
      + intros [= <- <- <-].
        eapply first_message_appends; [|exact Hloop]. apply IH.
      + apply Htail. eapply first_message_appends; [|exact Hloop]. apply IH.
    - cbn. apply Htail. exists []. now rewrite sink_push_nil. }
  destruct (table !! locale) as [assets|]; [|exact Hrest].
  destruct (bundle_getMessage assets id) as [[value|]|]; [| |exact Hrest].
  - unfold of_res, formatPattern.
    destruct (resolvePattern assets value args) as [s errs].
    destruct errors as [l|], errs as [|e0 errs]; cbn; try discriminate;
      intros Heq; injection Heq as <- <- <-.
    + now exists [].
    + now exists (e0 :: errs).
    + now exists [].
  - unfold of_res. cbv beta. intros [= <- <- <-]. exists [].
    now rewrite sink_push_nil.
Qed.

Lemma getMessage_appends fuel this id args errors W r errors' W' :
  getMessage fuel this id args errors W = (Ok (r, errors'), W') ->
  exists errs, errors' = sink_push errors errs.
Proof.
  unfold getMessage. rewrite bind_eq.
  destruct (read_box this W) as [[b|e|] W1]; try discriminate.
  destruct (_currentLocale b).
  - apply getMessageByLocale_appends.
  - intros [= <- <- <-]. exists []. now rewrite sink_push_nil.
Qed.


(** ** With an error array, no formatting error is thrown *)

Lemma first_message_collects rec fallbacks :
  (forall fl l W e, fst (rec fl (Some l) W) <> Throw (FormattingError e)) ->
  (forall fl errors W r errors' W',
     rec fl errors W = (Ok (r, errors'), W') ->
     exists errs, errors' = sink_push errors errs) ->
  forall l W e,
    fst (first_message rec fallbacks (Some l) W) <> Throw (FormattingError e).
Proof.
  intros Hrec Happ. induction fallbacks as [|fl rest IH]; intros l W e; cbn;
    [discriminate|].
  rewrite bind_eq. pose proof (Hrec fl l W e) as Hfl.
  destruct (rec fl (Some l) W) as [[[[s|] e1]|e0|] W1] eqn:Hrun; cbn in *;
    try discriminate; [|exact Hfl].
  destruct (Happ _ _ _ _ _ _ Hrun) as [errs ->]. apply IH.
Qed.

Lemma getMessageByLocale_collects fuel this id args :
  forall locale l W e,
    fst (_getMessageByLocale fuel this id locale args (Some l) W)
    <> Throw (FormattingError e).
Proof.
  induction fuel as [|fuel IH]; intros locale l W e; cbn [_getMessageByLocale];
    [discriminate|].
  rewrite bind_eq. pose proof (plain_read_box this W) as Hb.
  destruct (read_box this W) as [[b|e0|] W1]; cbn in Hb |- *;
    [|intros [= ->]; exact (Hb _ eq_refl e eq_refl)|discriminate].
  rewrite bind_eq. pose proof (plain_read_assets (_assets b) W1) as Ha.
  destruct (read_assets (_assets b) W1) as [[table|e0|] W2]; cbn in Ha |- *;
    [|intros [= ->]; exact (Ha _ eq_refl e eq_refl)|discriminate].
  assert (Hrest :
    fst ((let* fbs := read_fallbacks (_fallbacks b) in
          let* (r, errors') :=
            match fbs !! locale with
            | Some fallbacks =>
                first_message
                  (fun fl errors => _getMessageByLocale fuel this id fl args errors)
                  fallbacks (Some l)
            | None => ret (None, Some l)
            end in
          match r with
          | Some s => ret (Some s, errors')
          | None =>
              match _defaultLocale b with
              | Some d =>
                  let nextLocale := loc_tag d in
                  if bool_decide (toLowerCase locale <> toLowerCase nextLocale)
                  then _getMessageByLocale fuel this id nextLocale args errors'
                  else ret (None, errors')
              | None => ret (None, errors')
              end
          end) W2) <> Throw (FormattingError e)).
  { rewrite bind_eq. pose proof (plain_read_fallbacks (_fallbacks b) W2) as Hf.
    destruct (read_fallbacks (_fallbacks b) W2) as [[fbs|e0|] W3]; cbn in Hf |- *;
      [|intros [= ->]; exact (Hf _ eq_refl e eq_refl)|discriminate].
    assert (Htail : forall l1 W4,
      fst (match _defaultLocale b with
           | Some d =>
               if bool_decide (toLowerCase locale <> toLowerCase (loc_tag d))
               then _getMessageByLocale fuel this id (loc_tag d) args (Some l1)
               else ret (None, Some l1)
           | None => ret (None, Some l1)
           end W4) <> Throw (FormattingError e)).
    { intros l1 W4. destruct (_defaultLocale b) as [d|]; [case_bool_decide|];
        [apply IH | discriminate | discriminate]. }
    rewrite bind_eq. destruct (fbs !! locale) as [list|].
    - pose proof (first_message_collects
                    (fun fl errors => _getMessageByLocale fuel this id fl args errors)
                    list IH (getMessageByLocale_appends fuel this id args)
                    l W3 e) as Hloop.
      destruct (first_message _ list (Some l) W3) as [[[[s|] e1]|e0|] W4] eqn:Hrun;
        cbn in Hloop |- *; try discriminate; [|exact Hloop].
      destruct (first_message_appends _ list
                  (getMessageByLocale_appends fuel this id args) _ _ _ _ _ Hrun)
        as [errs ->].
      apply Htail.
    - cbn. apply Htail. }
  destruct (table !! locale) as [assets|]; [|exact Hrest].
  destruct (bundle_getMessage assets id) as [[value|]|]; [| |exact Hrest].
  - unfold of_res, formatPattern.
    destruct (resolvePattern assets value args) as [s errs]. cbn.
    destruct errs; discriminate.
  - discriminate.
Qed.

Lemma getMessage_collects fuel this id args l W e :
  fst (getMessage fuel this id args (Some l) W) <> Throw (FormattingError e).
Proof.
  unfold getMessage. rewrite bind_eq. pose proof (plain_read_box this W) as Hb.
  destruct (read_box this W) as [[b|e0|] W1]; cbn in Hb |- *;
    [|intros [= ->]; exact (Hb _ eq_refl e eq_refl)|discriminate].
  destruct (_currentLocale b); [apply getMessageByLocale_collects | discriminate].
Qed.

(** ** Claims about the cascade *)

Lemma getMessage_current W this b fuel id args errors cur :
  store W !! this = Some (CBox b) -> _currentLocale b = Some cur ->
  getMessage fuel this id args errors W =
  _getMessageByLocale fuel this id (loc_tag cur) args errors W.
Proof.
  intros Hb Hcur. unfold getMessage.
  rewrite (bind_ok _ _ _ _ _ (read_box_ok _ _ _ Hb)), Hcur. reflexivity.
Qed.

Lemma hasMessage_current W this b fuel id cur :
  store W !! this = Some (CBox b) -> _currentLocale b = Some cur ->
  hasMessage fuel this id W = _hasMessageByLocale fuel this id (loc_tag cur) W.
Proof.
  intros Hb Hcur. unfold hasMessage.
  rewrite (bind_ok _ _ _ _ _ (read_box_ok _ _ _ Hb)), Hcur. reflexivity.
Qed.

Lemma default_differs_same b d locale :
  _defaultLocale b = Some d ->
  toLowerCase locale = toLowerCase (loc_tag d) ->
  default_differs b locale = false.
Proof.
  intros Hd Heq. unfold default_differs. rewrite Hd.
  apply bool_decide_eq_false. intros Hne. apply Hne, Heq.
Qed.

Lemma default_differs_other b d locale :
  _defaultLocale b = Some d ->
  toLowerCase locale <> toLowerCase (loc_tag d) ->
  default_differs b locale = true /\ default_tag b = loc_tag d.
Proof.
  intros Hd Hne. unfold default_differs, default_tag. rewrite Hd.
  split; [apply bool_decide_eq_true, Hne | reflexivity].
Qed.

(** A locale with nothing of its own for [id], no fallbacks, and which is
    the default locale up to case: one call, no recursion. *)
Lemma getMessageByLocale_default_end W this b table fbs fuel id locale args errors :
  engine_at W this b table fbs ->
  default_differs b locale = false ->
  own_message table locale id = None ->
  fallbacks_of fbs locale = [] ->
  _getMessageByLocale (S fuel) this id locale args errors W = (Ok (None, errors), W).
Proof.
  intros He Hd Hown Hfb.
  rewrite (getMessageByLocale_miss _ _ _ _ _ _ _ _ _ _ He Hown), Hfb, Hd.
  reflexivity.
Qed.

Lemma hasMessageByLocale_default_end W this b table fbs fuel id locale :
  engine_at W this b table fbs ->
  default_differs b locale = false ->
  own_message table locale id = None ->
  fallbacks_of fbs locale = [] ->
  _hasMessageByLocale (S fuel) this id locale W = (Ok false, W).
Proof.
  intros He Hd Hown Hfb.
  rewrite (hasMessageByLocale_miss _ _ _ _ _ _ _ _ He Hown), Hfb, Hd.
  reflexivity.
Qed.

(** C7 (amended): [hasMessage] against [getMessage].  On every world
    [hasMessage] does what the outcome of [getMessage] determines: it
    answers whether [getMessage] returned a string, it answers [true] where
    [getMessage] throws a formatting error, and otherwise the two end
    alike.  So whenever [getMessage] returns, [hasMessage(id)] is [true]
    exactly when the result is not [null]; with an error array the two end
    alike on every world and the equivalence holds as stated; a formatting
    error is thrown only without an error array, and [hasMessage] is then
    [true].  A message that the current locale's bundle defines without a
    value gives [true] and the empty string; a handle with no current
    locale gives [false] and [null]. *)
Theorem hasMessage_agrees_with_getMessage fuel this id args errors W :
  fst (hasMessage fuel this id W)
  = has_of (fst (getMessage fuel this id args errors W))
  /\ (forall p,
        fst (getMessage fuel this id args errors W) = Ok p ->
        fst (hasMessage fuel this id W) = Ok (found p))
  /\ (is_Some errors ->
      fst (hasMessage fuel this id W)
      = res_map found (fst (getMessage fuel this id args errors W))
      /\ (fst (hasMessage fuel this id W) = Ok true <->
          exists s errors',
            fst (getMessage fuel this id args errors W) = Ok (Some s, errors')))
  /\ (forall e,
        fst (getMessage fuel this id args errors W) = Throw (FormattingError e) ->
        errors = None /\ fst (hasMessage fuel this id W) = Ok true)
  /\ (forall b table fbs cur assets,
        engine_at W this b table fbs ->
        _currentLocale b = Some cur ->
        own_message table (loc_tag cur) id = Some (assets, None) ->
        0 < fuel ->
        hasMessage fuel this id W = (Ok true, W)
        /\ getMessage fuel this id args errors W = (Ok (Some "", errors), W))
  /\ (forall b,
        store W !! this = Some (CBox b) ->
        _currentLocale b = None ->
        hasMessage fuel this id W = (Ok false, W)
        /\ getMessage fuel this id args errors W = (Ok (None, errors), W)).
Proof.
  pose proof (agree_top fuel this id args errors W) as Hag.
  split; [exact Hag|]. split; [|split; [|split; [|split]]].
  - intros p Hp. now rewrite Hag, Hp.
  - intros [l ->].
    pose proof (getMessage_collects fuel this id args l W) as Hcol.
    assert (Heq : fst (hasMessage fuel this id W)
                  = res_map found (fst (getMessage fuel this id args (Some l) W))).
    { rewrite Hag.
      destruct (fst (getMessage fuel this id args (Some l) W)) as [p|e|];
        try reflexivity.
      destruct e; try reflexivity. now destruct (Hcol e). }
    split; [exact Heq|]. rewrite Heq.
    destruct (fst (getMessage fuel this id args (Some l) W)) as [[[s|] e']|e|];
      cbn; split; try discriminate; eauto.
    + intros (s & e2 & [=]).
    + intros (s & e2 & [=]).
    + intros (s & e2 & [=]).
  - intros e He. split.
    + destruct errors as [l|]; [|reflexivity].
      now destruct (getMessage_collects fuel this id args l W e).
    + now rewrite Hag, He.
  - intros b table fbs cur assets He Hcur Hown Hfuel.
    destruct fuel as [|fuel]; [lia|].
    rewrite (hasMessage_current _ _ _ _ _ _ (at_box _ _ _ _ _ He) Hcur).
    rewrite (getMessage_current _ _ _ _ _ _ _ _ (at_box _ _ _ _ _ He) Hcur).
    rewrite (hasMessageByLocale_found _ _ _ _ _ _ _ _ _ He Hown).
    rewrite (getMessageByLocale_found _ _ _ _ _ _ _ _ _ _ _ _ He Hown).
    split; reflexivity.
  - intros b Hb Hcur. unfold hasMessage, getMessage.
    rewrite !(bind_ok _ _ _ _ _ (read_box_ok _ _ _ Hb)), Hcur.
    split; reflexivity.
Qed.

(** C8: default-locale termination.  At a locale that equals the default
    locale up to case, the cascade is the locale's own bundle followed by
    the loop over its fallbacks, with no call for the default locale after
    it; so when that locale has no fallbacks and nothing for the id, a
    single call (recursion budget 1) answers not-found, for
    [_getMessageByLocale] and [_hasMessageByLocale], and for [getMessage]
    and [hasMessage] when it is the current locale. *)
Theorem default_locale_termination W this b table fbs d locale id args errors :
  engine_at W this b table fbs ->
  _defaultLocale b = Some d ->
  toLowerCase locale = toLowerCase (loc_tag d) ->
  own_message table locale id = None ->
  (forall fuel,
     _getMessageByLocale (S fuel) this id locale args errors W
     = first_message
         (fun fl errors => _getMessageByLocale fuel this id fl args errors)
         (fallbacks_of fbs locale) errors W
     /\ _hasMessageByLocale (S fuel) this id locale W
        = any_message (fun fl => _hasMessageByLocale fuel this id fl)
                      (fallbacks_of fbs locale) W)
  /\ (fallbacks_of fbs locale = [] ->
      forall fuel, 1 <= fuel ->
        _getMessageByLocale fuel this id locale args errors W
        = (Ok (None, errors), W)
        /\ _hasMessageByLocale fuel this id locale W = (Ok false, W)
        /\ (forall cur, _currentLocale b = Some cur -> loc_tag cur = locale ->
              getMessage fuel this id args errors W = (Ok (None, errors), W)
              /\ hasMessage fuel this id W = (Ok false, W))).
Proof.
  intros He Hd Hlow Hown.
  pose proof (default_differs_same _ _ _ Hd Hlow) as Hdd.
  split.
  - intros fuel. split.
    + rewrite (getMessageByLocale_miss _ _ _ _ _ _ _ _ _ _ He Hown), Hdd.
      destruct (first_message _ _ errors W) as [[[[s|] e']|e|] W']; reflexivity.
    + rewrite (hasMessageByLocale_miss _ _ _ _ _ _ _ _ He Hown), Hdd.
      destruct (any_message _ _ W) as [[[]|e|] W']; reflexivity.
  - intros Hfb fuel Hfuel. destruct fuel as [|fuel]; [lia|].
    pose proof (getMessageByLocale_default_end _ _ _ _ _ fuel _ _ args errors
                  He Hdd Hown Hfb) as Hg.
    pose proof (hasMessageByLocale_default_end _ _ _ _ _ fuel _ _
                  He Hdd Hown Hfb) as Hh.
    split; [exact Hg|]. split; [exact Hh|].
    intros cur Hcur Htag. subst locale.
    rewrite (getMessage_current _ _ _ _ _ _ _ _ (at_box _ _ _ _ _ He) Hcur).
    rewrite (hasMessage_current _ _ _ _ _ _ (at_box _ _ _ _ _ He) Hcur).
    split; assumption.
Qed.

Lemma first_message_singleton rec fl errors W :
  first_message rec [fl] errors W = rec fl errors W.
Proof.
  cbn. rewrite bind_eq.
  destruct (rec fl errors W) as [[[[s|] e']|e|] W']; reflexivity.
Qed.

Lemma render_answers assets value args errors :
  answers (render assets value args errors).
Proof.
  unfold render, formatPattern. destruct value as [pattern|]; [|exact I].
  destruct (resolvePattern assets pattern args) as [s errs].
  destruct errors as [l|], errs as [|e errs]; exact I.
Qed.

(** With an error array, or when formatting reports nothing, the bundle's
    answer is the text, and the array has received what was reported. *)
Lemma render_returns assets value args errors :
  is_Some errors \/ format_errors assets value args = [] ->
  exists s,
    render assets value args errors
    = Ok (Some s, sink_push errors (format_errors assets value args)).
Proof.
  unfold render, format_errors, formatPattern.
  destruct value as [pattern|].
  - destruct (resolvePattern assets pattern args) as [s errs]. cbn.
    intros [[l ->] | ->]; [eauto|].
    destruct errors; eauto.
  - intros _. exists "". now rewrite sink_push_nil.
Qed.

(** Without an error array, the first error reported is thrown. *)
Lemma render_throws assets value args e rest :
  format_errors assets value args = e :: rest ->
  render assets value args None = Throw (FormattingError e).
Proof.
  unfold render, format_errors, formatPattern.
  destruct value as [pattern|]; [|discriminate].
  destruct (resolvePattern assets pattern args) as [s errs]. cbn.
  now intros ->.
Qed.

(** A locale with nothing of its own and a single fallback that answers. *)
Lemma getMessageByLocale_via_fallback W this b table fbs fuel id locale fl
    args errors r :
  engine_at W this b table fbs ->
  own_message table locale id = None ->
  fallbacks_of fbs locale = [fl] ->
  answers r ->
  _getMessageByLocale fuel this id fl args errors W = (r, W) ->
  _getMessageByLocale (S fuel) this id locale args errors W = (r, W).
Proof.
  intros He Hown Hfb Hr Hrec.
  rewrite (getMessageByLocale_miss _ _ _ _ _ _ _ _ _ _ He Hown), Hfb.
  rewrite first_message_singleton, Hrec.
  destruct r as [[[s|] e']|e|]; cbn in Hr; try contradiction; reflexivity.
Qed.

(** A locale with nothing of its own, fallbacks that answer nothing, and a
    default locale that ends with [r] when asked. *)
Lemma getMessageByLocale_via_default W this b table fbs fuel id locale fls
    args errors r :
  engine_at W this b table fbs ->
  own_message table locale id = None ->
  fallbacks_of fbs locale = fls ->
  first_message (fun fl errors => _getMessageByLocale fuel this id fl args errors)
                fls errors W = (Ok (None, errors), W) ->
  (default_differs b locale = true ->
   _getMessageByLocale fuel this id (default_tag b) args errors W = (r, W)) ->
  (default_differs b locale = false -> r = Ok (None, errors)) ->
  _getMessageByLocale (S fuel) this id locale args errors W = (r, W).
Proof.
  intros He Hown Hfb Hloop Hdef Hend.
  rewrite (getMessageByLocale_miss _ _ _ _ _ _ _ _ _ _ He Hown), Hfb, Hloop.
  destruct (default_differs b locale); [auto | rewrite Hend; auto].
Qed.

(** C4 (amended): the order of the cascade.  Current locale A with
    fallbacks [B], B with fallbacks [C], C without fallbacks, default
    locale D without fallbacks; A's and B's bundles do not define the id.
    If C's bundle defines it, [getMessage] ends as [formatPattern] does on
    C's message; if C's does not and D's does (D being another locale than
    C), as [formatPattern] does on D's message; if neither does, it
    answers [null].  Ending as [formatPattern] does means: the text is
    returned, and the errors reported go to the error array, when there is
    such an array or nothing is reported; without an array, the first
    error reported is thrown. *)
Theorem cascade_lookup_order W this b table fbs cur d A B C D id args errors :
  engine_at W this b table fbs ->
  _currentLocale b = Some cur -> loc_tag cur = A ->
  _defaultLocale b = Some d -> loc_tag d = D ->
  fbs !! A = Some [B] ->
  fbs !! B = Some [C] ->
  fallbacks_of fbs C = [] ->
  fallbacks_of fbs D = [] ->
  own_message table A id = None ->
  own_message table B id = None ->
  (forall assets value,
     own_message table C id = Some (assets, value) ->
     forall fuel, 3 <= fuel ->
       getMessage fuel this id args errors W
       = (render assets value args errors, W))
  /\ (forall assets value,
        own_message table C id = None ->
        toLowerCase C <> toLowerCase D ->
        own_message table D id = Some (assets, value) ->
        forall fuel, 4 <= fuel ->
          getMessage fuel this id args errors W
          = (render assets value args errors, W))
  /\ (own_message table C id = None ->
      own_message table D id = None ->
      forall fuel, 4 <= fuel ->
        getMessage fuel this id args errors W = (Ok (None, errors), W))
  /\ (forall assets value,
        is_Some errors \/ format_errors assets value args = [] ->
        exists s,
          render assets value args errors
          = Ok (Some s, sink_push errors (format_errors assets value args)))
  /\ (forall assets value e rest,
        errors = None ->
        format_errors assets value args = e :: rest ->
        render assets value args errors = Throw (FormattingError e)).
Proof.
  intros He Hcur HA Hd HD HfA HfB HfC HfD HownA HownB.
  pose proof (at_box _ _ _ _ _ He) as Hbox.
  assert (HfA' : fallbacks_of fbs A = [B]) by (unfold fallbacks_of; now rewrite HfA).
  assert (HfB' : fallbacks_of fbs B = [C]) by (unfold fallbacks_of; now rewrite HfB).
  assert (HdD : default_differs b D = false).
  { apply (default_differs_same _ d); [assumption | now rewrite HD]. }
  assert (Hempty : forall fuel,
    first_message (fun fl errors => _getMessageByLocale fuel this id fl args errors)
                  [] errors W = (Ok (None, errors), W)) by reflexivity.
  split; [|split; [|split; [|split]]].
  - intros assets value HownC fuel Hfuel.
    destruct fuel as [|[|[|fuel]]]; try lia.
    rewrite (getMessage_current _ _ _ _ _ _ _ _ Hbox Hcur), HA.
    pose proof (render_answers assets value args errors) as Hr.
    apply (getMessageByLocale_via_fallback _ _ _ _ _ _ _ _ B _ _ _ He HownA HfA' Hr).
    apply (getMessageByLocale_via_fallback _ _ _ _ _ _ _ _ C _ _ _ He HownB HfB' Hr).
    apply (getMessageByLocale_found _ _ _ _ _ _ _ _ _ _ _ _ He HownC).
  - intros assets value HownC HCD HownD fuel Hfuel.
    destruct fuel as [|[|[|[|fuel]]]]; try lia.
    rewrite (getMessage_current _ _ _ _ _ _ _ _ Hbox Hcur), HA.
    pose proof (render_answers assets value args errors) as Hr.
    apply (getMessageByLocale_via_fallback _ _ _ _ _ _ _ _ B _ _ _ He HownA HfA' Hr).
    apply (getMessageByLocale_via_fallback _ _ _ _ _ _ _ _ C _ _ _ He HownB HfB' Hr).
    rewrite <- HD in HCD.
    destruct (default_differs_other _ _ _ Hd HCD) as [Hdiff Htag].
    apply (getMessageByLocale_via_default _ _ _ _ _ _ _ _ [] _ _ _ He HownC HfC).
    + apply Hempty.
    + intros _. rewrite Htag, HD.
      apply (getMessageByLocale_found _ _ _ _ _ _ _ _ _ _ _ _ He HownD).
    + rewrite Hdiff. discriminate.
  - intros HownC HownD fuel Hfuel.
    destruct fuel as [|[|[|[|fuel]]]]; try lia.
    rewrite (getMessage_current _ _ _ _ _ _ _ _ Hbox Hcur), HA.
    assert (HatD : forall n,
      _getMessageByLocale (S n) this id D args errors W = (Ok (None, errors), W)).
    { intros n. now apply (getMessageByLocale_default_end _ _ b table fbs). }
    assert (Htag : default_tag b = D).
    { unfold default_tag. now rewrite Hd. }
    assert (HatC : forall n,
      _getMessageByLocale (S (S n)) this id C args errors W
      = (Ok (None, errors), W)).
    { intros n.
      apply (getMessageByLocale_via_default _ _ _ _ _ _ _ _ [] _ _ _ He HownC HfC);
        [apply Hempty | rewrite Htag; auto | auto]. }
    assert (HatB : forall n,
      _getMessageByLocale (S (S (S n))) this id B args errors W
      = (Ok (None, errors), W)).
    { intros n.
      apply (getMessageByLocale_via_default _ _ _ _ _ _ _ _ [C] _ _ _ He HownB).
      - exact HfB'.
      - rewrite first_message_singleton. apply HatC.
      - rewrite Htag; auto.
      - auto. }
    apply (getMessageByLocale_via_default _ _ _ _ _ _ _ _ [B] _ _ _ He HownA).
    + exact HfA'.
    + rewrite first_message_singleton. apply HatB.
    + rewrite Htag; auto.
    + auto.
  - intros assets value. apply render_returns.
  - intros assets value e rest ->. apply render_throws.
Qed.
(** ** Frames of the operations *)

#[local] Instance same_store_refl : Reflexive same_store.
Proof. intros W. split; reflexivity. Qed.

#[local] Instance same_store_trans : Transitive same_store.
Proof. intros W1 W2 W3 [? ?] [? ?]. split; congruence. Qed.

Lemma with_currentLocale_twice cur cur' b :
  with_currentLocale cur' (with_currentLocale cur b) = with_currentLocale cur' b.
Proof. reflexivity. Qed.

Lemma with_currentLocale_same b : with_currentLocale (_currentLocale b) b = b.
Proof. destruct b; reflexivity. Qed.

Lemma cell_frame_trans this a r c1 c2 c3 :
  cell_frame this a r c1 c2 -> cell_frame this a r c2 c3 ->
  cell_frame this a r c1 c3.
Proof.
  intros [->|[(Hr & b & cur & -> & ->)|(Hr & m & m' & -> & ->)]] H23; auto.
  - destruct H23 as [->|[(_ & b' & cur' & [= <-] & ->)|(_ & m & m' & [=] & _)]].
    + right; left; eauto.
    + right; left. split; auto. exists b, cur'. auto.
  - destruct H23 as [->|[(_ & b' & cur' & [=] & _)|(_ & m2 & m3 & [= <-] & ->)]].
    + right; right; eauto.
    + right; right; eauto.
Qed.

#[local] Instance frame_refl this a : Reflexive (frame this a).
Proof. intros W. split; [reflexivity|]. intros r. left. reflexivity. Qed.

#[local] Instance frame_trans this a : Transitive (frame this a).
Proof.
  intros W1 W2 W3 [Hn12 H12] [Hn23 H23]. split; [congruence|].
  intros r. eapply cell_frame_trans; eauto.
Qed.

Lemma same_store_frame this a W W' : same_store W W' -> frame this a W W'.
Proof. intros [Hs Hn]. split; [exact Hn|]. intros r. left. now rewrite Hs. Qed.

Section Preserves.
Context (R : World -> World -> Prop) `{!Reflexive R} `{!Transitive R}.

Lemma preserves_readonly {A} (m : M A) : readonly m -> preserves R m.
Proof. intros H W. rewrite H. reflexivity. Qed.

Lemma preserves_ret {A} (a : A) : preserves R (ret a).
Proof. intros W. cbn. reflexivity. Qed.

Lemma preserves_throw {A} e : preserves R (throw (A:=A) e).
Proof. intros W. cbn. reflexivity. Qed.

Lemma preserves_bind {A B} (m : M A) (k : A -> M B) :
  preserves R m -> (forall a, preserves R (k a)) -> preserves R (bind m k).
Proof.
  intros Hm Hk W. rewrite bind_eq. specialize (Hm W).
  destruct (m W) as [[a|e|] W1]; cbn in *; auto.
  etransitivity; [exact Hm | apply Hk].
Qed.

Lemma preserves_catch {A} (m : M A) : preserves R m -> preserves R (catch m).
Proof.
  intros Hm W. unfold catch. specialize (Hm W).
  destruct (m W) as [[a|e|] W1]; cbn in *; auto.
Qed.

Lemma preserves_for_of {A} (l : list A) body :
  (forall x, preserves R (body x)) -> preserves R (for_of l body).
Proof.
  intros Hb. induction l as [|x r IH]; cbn.
  - apply preserves_ret.
  - apply preserves_bind; auto.
Qed.

Lemma preserves_foldM {A B} (body : B -> A -> M B) l acc :
  (forall acc x, preserves R (body acc x)) -> preserves R (foldM body l acc).
Proof.
  intros Hb. revert acc. induction l as [|x r IH]; intros acc; cbn.
  - apply preserves_ret.
  - apply preserves_bind; auto.
Qed.

Lemma preserves_array_map {A B} (f : A -> M B) l :
  (forall x, preserves R (f x)) -> preserves R (array_map f l).
Proof.
  intros Hf. induction l as [|x r IH]; cbn.
  - apply preserves_ret.
  - apply preserves_bind; [apply Hf|]. intros y.
    apply preserves_bind; [apply IH|]. intros ys. apply preserves_ret.
Qed.

End Preserves.

(** Apply a frame rule and let instance search find why the relation is
    a preorder. *)
Ltac pres L := apply L; try typeclasses eauto.

Lemma readonly_read_pathmap r : readonly (read_pathmap r).
Proof.
  apply readonly_bind; [apply readonly_read|].
  intros []; first [apply readonly_ret | apply readonly_throw].
Qed.
Lemma readonly_read_files r : readonly (read_files r).
Proof.
  apply readonly_bind; [apply readonly_read|].
  intros []; first [apply readonly_ret | apply readonly_throw].
Qed.
Lemma readonly_read_inits r : readonly (read_inits r).
Proof.
  apply readonly_bind; [apply readonly_read|].
  intros []; first [apply readonly_ret | apply readonly_throw].
Qed.
#[local] Hint Resolve readonly_read_pathmap readonly_read_files
  readonly_read_inits : readonly.

Lemma readonly_supportsLocale this argument :
  readonly (supportsLocale this argument).
Proof.
  apply readonly_bind; auto with readonly. intros b.
  apply readonly_bind; auto with readonly.
Qed.

Lemma same_store_new_Locale a : preserves same_store (new_Locale a).
Proof.
  intros W. unfold new_Locale.
  destruct a as [s|l]; [destruct (canonical s)|]; cbn; split; reflexivity.
Qed.

Lemma same_store_log_fetch s : preserves same_store (log_fetch s).
Proof. intros W. split; reflexivity. Qed.

Lemma same_store_enumerateFallbacksToSet fuel this locale output :
  preserves same_store (_enumerateFallbacksToSet fuel this locale output).
Proof.
  revert locale output.
  induction fuel as [|fuel IH]; intros locale output; cbn.
  - intros W. cbn. reflexivity.
  - pres preserves_bind.
    { pres preserves_readonly; auto with readonly. }
    intros b. pres preserves_bind.
    { pres preserves_readonly; auto with readonly. }
    intros fbs. destruct (fbs !! locale) as [list|].
    + pres preserves_foldM.
      intros acc item. pres preserves_bind.
      * apply same_store_new_Locale.
      * intros l. apply IH.
    + pres preserves_ret.
Qed.

#[local] Instance same_log_refl : Reflexive same_log.
Proof. intros W. reflexivity. Qed.

#[local] Instance same_log_trans : Transitive same_log.
Proof. intros W1 W2 W3. unfold same_log. congruence. Qed.

Lemma same_log_new_Locale a : preserves same_log (new_Locale a).
Proof.
  intros W. unfold new_Locale.
  destruct a as [s|l]; [destruct (canonical s)|]; reflexivity.
Qed.

Lemma same_log_enumerateFallbacksToSet fuel this locale output :
  preserves same_log (_enumerateFallbacksToSet fuel this locale output).
Proof.
  revert locale output.
  induction fuel as [|fuel IH]; intros locale output; cbn.
  - intros W. reflexivity.
  - pres preserves_bind.
    { pres preserves_readonly; auto with readonly. }
    intros b. pres preserves_bind.
    { pres preserves_readonly; auto with readonly. }
    intros fbs. destruct (fbs !! locale) as [list|].
    + pres preserves_foldM.
      intros acc item. pres preserves_bind.
      * apply same_log_new_Locale.
      * intros l. apply IH.
    + pres preserves_ret.
Qed.

Lemma same_store_loadSingleLocale this locale :
  preserves same_store (_loadSingleLocale this locale).
Proof.
  unfold _loadSingleLocale.
  pres preserves_bind.
  { pres preserves_readonly; auto with readonly. }
  intros b. pres preserves_bind.
  { pres preserves_readonly; auto with readonly. }
  intros pcs. pres preserves_bind.
  { pres preserves_readonly; auto with readonly. }
  intros files. pres preserves_bind.
  { apply same_store_log_fetch. }
  intros _. pres preserves_ret.
Qed.

Lemma same_store_load_begin fuel this newLocale :
  preserves same_store (load_begin fuel this newLocale).
Proof.
  unfold load_begin.
  pres preserves_bind.
  { pres preserves_readonly; auto with readonly. }
  intros b.
  destruct (match newLocale with Some l => Some l | None => _defaultLocale b end)
    as [l|]; [|pres preserves_throw].
  pres preserves_bind.
  { pres preserves_readonly. apply readonly_supportsLocale. }
  intros supported.
  destruct (negb supported); [pres preserves_throw|].
  pres preserves_bind.
  - pres preserves_catch.
    pres preserves_bind.
    + apply same_store_enumerateFallbacksToSet.
    + intros toLoad. pres preserves_array_map.
      intros x. apply same_store_loadSingleLocale.
  - intros [tasks|e]; pres preserves_ret.
Qed.

Lemma frame_assets_set this a k v : preserves (frame this a) (assets_set a k v).
Proof.
  intros W. unfold assets_set. rewrite bind_eq.
  destruct (read_assets a W) as [x W1] eqn:Hr.
  apply read_assets_inv in Hr as [-> [(m & -> & Hm)|[-> _]]]; [|reflexivity].
  unfold write, set_store, frame. cbn. split; [reflexivity|]. intros r.
  destruct (decide (r = a)) as [->|Hne].
  - rewrite lookup_insert_eq, Hm. right; right. eauto.
  - rewrite lookup_insert_ne by auto. left. reflexivity.
Qed.

Lemma frame_assets_clear this a : preserves (frame this a) (assets_clear a).
Proof.
  intros W. unfold assets_clear. rewrite bind_eq.
  destruct (read_assets a W) as [x W1] eqn:Hr.
  apply read_assets_inv in Hr as [-> [(m & -> & Hm)|[-> _]]]; [|reflexivity].
  unfold write, set_store, frame. cbn. split; [reflexivity|]. intros r.
  destruct (decide (r = a)) as [->|Hne].
  - rewrite lookup_insert_eq, Hm. right; right. eauto.
  - rewrite lookup_insert_ne by auto. left. reflexivity.
Qed.

Lemma frame_set_currentLocale this a cur :
  preserves (frame this a) (set_field this (with_currentLocale cur)).
Proof.
  intros W. unfold set_field. rewrite bind_eq.
  destruct (read_box this W) as [x W1] eqn:Hr.
  apply read_box_inv in Hr as [-> [(b & -> & Hb)|[-> _]]]; [|reflexivity].
  unfold write, set_store, frame. cbn. split; [reflexivity|]. intros r.
  destruct (decide (r = this)) as [->|Hne].
  - rewrite lookup_insert_eq, Hb. right; left. eauto.
  - rewrite lookup_insert_ne by auto. left. reflexivity.
Qed.

(** The [then] handler once it has read the object. *)
Lemma frame_load_then_body self b newLocale res :
  preserves (frame self (_assets b))
    (let* _ := (if _clean b then assets_clear (_assets b) else ret tt) in
     let* _ := for_of res (fun pair => assets_set (_assets b) (fst pair) (snd pair)) in
     let* _ := set_field self (with_currentLocale (Some newLocale)) in
     let* inits := read_inits (_bundleInitializers b) in
     for_of inits (fun bundleInit =>
       let* assets := read_assets (_assets b) in
       match assets !! loc_tag newLocale with
       | None => throw TypeError
       | Some bundle =>
           match bundleInit newLocale bundle with
           | Returned bundle' => assets_set (_assets b) (loc_tag newLocale) bundle'
           | Raised bundle' =>
               let* _ := assets_set (_assets b) (loc_tag newLocale) bundle' in
               throw InitializerError
           end
       end)).
Proof.
  pres preserves_bind.
  { destruct (_clean b); [apply frame_assets_clear | pres preserves_ret]. }
  intros _. pres preserves_bind.
  { pres preserves_for_of. intros pair. apply frame_assets_set. }
  intros _. pres preserves_bind.
  { apply frame_set_currentLocale. }
  intros _. pres preserves_bind.
  { pres preserves_readonly. auto with readonly. }
  intros inits. pres preserves_for_of. intros bundleInit.
  pres preserves_bind.
  { pres preserves_readonly. auto with readonly. }
  intros assets. destruct (assets !! loc_tag newLocale) as [bundle|].
  - destruct (bundleInit newLocale bundle).
    + apply frame_assets_set.
    + pres preserves_bind; [apply frame_assets_set|].
      intros _. pres preserves_throw.
  - pres preserves_throw.
Qed.

Lemma frame_load_then self newLocale res W b :
  store W !! self = Some (CBox b) ->
  frame self (_assets b) W (snd (load_then self newLocale res W)).
Proof.
  intros Hb. unfold load_then.
  rewrite (bind_ok _ _ _ _ _ (read_box_ok _ _ _ Hb)).
  apply frame_load_then_body.
Qed.

Lemma frame_load_settle self p W b :
  store W !! self = Some (CBox b) ->
  frame self (_assets b) W (snd (load_settle self p W)).
Proof.
  intros Hb. destruct p as [newLocale tasks|e]; cbn; [|reflexivity].
  destruct (Promise_all tasks) as [res|]; [|reflexivity].
  rewrite bind_eq. unfold catch.
  pose proof (frame_load_then self newLocale res W b Hb) as Hf.
  destruct (load_then self newLocale res W) as [[[]|e|] W1]; exact Hf.
Qed.

Lemma load_no_object fuel this newLocale W :
  (forall b, store W !! this <> Some (CBox b)) ->
  load fuel this newLocale W = (Throw TypeError, W).
Proof.
  intros Hno. unfold load, load_begin. rewrite !bind_eq.
  destruct (read_box this W) as [x W1] eqn:Hr.
  apply read_box_inv in Hr as [-> [(b & -> & Hb)|[-> _]]]; [|reflexivity].
  destruct (Hno _ Hb).
Qed.

Lemma frame_load fuel this newLocale W b :
  store W !! this = Some (CBox b) ->
  frame this (_assets b) W (snd (load fuel this newLocale W)).
Proof.
  intros Hb. unfold load. rewrite bind_eq.
  pose proof (same_store_load_begin fuel this newLocale W) as Hs.
  destruct (load_begin fuel this newLocale W) as [[p|e|] W1]; cbn in Hs;
    try (apply same_store_frame; exact Hs).
  etransitivity; [apply same_store_frame; exact Hs|].
  apply frame_load_settle. destruct Hs as [-> _]. exact Hb.
Qed.

(** ** The configuration survives [load] *)

Lemma frame_keeps_cell this a W W' r c :
  frame this a W W' ->
  store W !! r = Some c ->
  (forall b, c <> CBox b) -> (forall m, c <> CAssets m) ->
  store W' !! r = Some c.
Proof.
  intros [_ Hf] Hc Hnb Hna. specialize (Hf r). rewrite Hc in Hf.
  destruct Hf as [->|[(_ & b & cur & [= ->] & _)|(_ & m & m' & [= ->] & _)]].
  - reflexivity.
  - destruct (Hnb b). reflexivity.
  - destruct (Hna m). reflexivity.
Qed.

Lemma frame_object this a W W' b :
  frame this a W W' ->
  store W !! this = Some (CBox b) ->
  exists cur, store W' !! this = Some (CBox (with_currentLocale cur b)).
Proof.
  intros [_ Hf] Hb. specialize (Hf this). rewrite Hb in Hf.
  destruct Hf as [->|[(_ & b' & cur & [= <-] & ->)|(_ & m & m' & [=] & _)]].
  - exists (_currentLocale b). now rewrite with_currentLocale_same.
  - eauto.
Qed.

Lemma frame_elsewhere this a W W' r :
  frame this a W W' -> r <> this -> r <> a ->
  store W' !! r = store W !! r.
Proof.
  intros [_ Hf] Hthis Ha. specialize (Hf r).
  destruct Hf as [->|[(-> & _)|(-> & _)]]; [reflexivity|contradiction..].
Qed.

Lemma frame_read_config this a W W' cfg :
  frame this a W W' ->
  fst (read_config this W) = Ok cfg -> fst (read_config this W') = Ok cfg.
Proof.
  intros Hf. unfold read_config, read_box, read_localeset, read_pathmap,
    read_fallbacks, read_files, read_inits, bind, read.
  destruct (store W !! this) as [[b| | | | | |]|] eqn:Hb; try discriminate.
  destruct (frame_object _ _ _ _ _ Hf Hb) as [cur ->]. cbn.
  destruct (store W !! _locales b) as [[| |ls| | | |]|] eqn:H1; try discriminate.
  rewrite (frame_keeps_cell _ _ _ _ _ _ Hf H1) by discriminate. cbn.
  destruct (store W !! _localeToPathComponents b) as [[|pcs| | | | |]|] eqn:H2;
    try discriminate.
  rewrite (frame_keeps_cell _ _ _ _ _ _ Hf H2) by discriminate. cbn.
  destruct (store W !! _fallbacks b) as [[| | |fbs| | |]|] eqn:H3; try discriminate.
  rewrite (frame_keeps_cell _ _ _ _ _ _ Hf H3) by discriminate. cbn.
  destruct (store W !! _files b) as [[| | | | |files|]|] eqn:H4; try discriminate.
  rewrite (frame_keeps_cell _ _ _ _ _ _ Hf H4) by discriminate. cbn.
  destruct (store W !! _bundleInitializers b) as [[| | | | | |inits]|] eqn:H5;
    try discriminate.
  rewrite (frame_keeps_cell _ _ _ _ _ _ Hf H5) by discriminate. cbn.
  auto.
Qed.

(** C10: what [load], [getMessage] and [hasMessage] leave alone.  A [load]
    through the object at [this] changes no cell of the store other than
    that object and its Asset Table, allocates none, and changes the object
    at most in [_currentLocale]; so the configuration read through the
    handle (locale set, path components, fallback graph, default locale,
    source, files, clean flag, method, initializers) is the same afterwards.
    [getMessage] and [hasMessage] leave the whole world as it was, and the
    sink that [getMessage] hands back is the caller's with errors appended. *)
Theorem load_and_lookup_frame fuel this newLocale id args errors W :
  (forall b, store W !! this = Some (CBox b) ->
     (exists cur,
        store (snd (load fuel this newLocale W)) !! this
        = Some (CBox (with_currentLocale cur b)))
     /\ (forall r, r <> this -> r <> _assets b ->
           store (snd (load fuel this newLocale W)) !! r = store W !! r)
     /\ next_ref (snd (load fuel this newLocale W)) = next_ref W)
  /\ ((forall b, store W !! this <> Some (CBox b)) ->
      snd (load fuel this newLocale W) = W)
  /\ (forall cfg,
        fst (read_config this W) = Ok cfg ->
        fst (read_config this (snd (load fuel this newLocale W))) = Ok cfg)
  /\ snd (getMessage fuel this id args errors W) = W
  /\ snd (hasMessage fuel this id W) = W
  /\ (forall r errors',
        fst (getMessage fuel this id args errors W) = Ok (r, errors') ->
        exists errs, errors' = sink_push errors errs).
Proof.
  split; [|split; [|split; [|split; [|split]]]].
  - intros b Hb. pose proof (frame_load fuel this newLocale W b Hb) as Hf.
    split; [|split].
    + eapply frame_object; eauto.
    + intros r H1 H2. eapply frame_elsewhere; eauto.
    + apply Hf.
  - intros Hno. now rewrite load_no_object.
  - intros cfg Hcfg.
    destruct (store W !! this) as [[b| | | | | |]|] eqn:Hb;
      try (unfold read_config, read_box, bind, read in Hcfg;
           rewrite Hb in Hcfg; discriminate).
    eapply frame_read_config; [|exact Hcfg].
    apply (frame_load fuel this newLocale W b Hb).
  - apply readonly_getMessage.
  - apply readonly_hasMessage.
  - intros r errors' Hg.
    destruct (getMessage fuel this id args errors W) as [x W'] eqn:Hm.
    cbn in Hg. subst x. eapply getMessage_appends; eauto.
Qed.

(** ** Claims about [load] *)

Lemma supportsLocale_ok W this b ls argument :
  store W !! this = Some (CBox b) ->
  store W !! _locales b = Some (CLocaleSet ls) ->
  supportsLocale this argument W
  = (Ok (bool_decide (arg_toString argument ∈ ls)), W).
Proof.
  intros Hb Hls. unfold supportsLocale.
  rewrite (bind_ok _ _ _ _ _ (read_box_ok _ _ _ Hb)).
  rewrite (bind_ok _ _ _ _ _ (read_localeset_ok _ _ _ Hls)).
  reflexivity.
Qed.

Lemma Promise_all_rejected {A} (tasks : list (Promise A)) :
  Rejected ∈ tasks <-> Promise_all tasks = Rejected.
Proof.
  induction tasks as [|[a|] rest IH]; cbn.
  - split; [intros H; inversion H | discriminate].
  - rewrite elem_of_cons. destruct (Promise_all rest) as [res|].
    + split; [|discriminate].
      intros [H|H]; [discriminate | apply IH in H; discriminate].
    + split; [reflexivity|]. intros _. right. now apply IH.
  - split; [reflexivity|]. intros _. left.
Qed.

Lemma Promise_all_fulfilled {A} (tasks : list (Promise A)) res :
  Promise_all tasks = Fulfilled res <-> tasks = Fulfilled <$> res.
Proof.
  revert res. induction tasks as [|[a|] rest IH]; intros res; cbn.
  - split; [intros [= <-]; reflexivity|].
    destruct res; [reflexivity | discriminate].
  - destruct (Promise_all rest) as [res'|] eqn:Hall.
    + split.
      * intros [= <-]. cbn. f_equal. now apply IH.
      * destruct res as [|x res2]; [discriminate|]. cbn.
        intros [= -> Hrest]. apply IH in Hrest. now injection Hrest as ->.
    + split; [discriminate|].
      destruct res as [|x res2]; [discriminate|]. cbn.
      intros [= -> Hrest]. apply IH in Hrest. discriminate.
  - split; [discriminate|]. destruct res; discriminate.
Qed.

(** C6: [load] of a locale outside the supported set throws the
    unsupported-locale error from its synchronous part: the call returns no
    promise, and the world is the one before the call, so no loader was
    started (the fetch log has not grown) and neither the Asset Table nor
    the current locale moved.  The locale is the argument, or the default
    locale when the argument is omitted. *)
Theorem load_unsupported_throws_synchronously fuel this newLocale W b ls l :
  store W !! this = Some (CBox b) ->
  store W !! _locales b = Some (CLocaleSet ls) ->
  match newLocale with Some x => Some x | None => _defaultLocale b end = Some l ->
  loc_tag l ∉ ls ->
  load_begin fuel this newLocale W = (Throw (UnsupportedLocale (loc_tag l)), W)
  /\ load fuel this newLocale W = (Throw (UnsupportedLocale (loc_tag l)), W)
  /\ fetch_log (snd (load fuel this newLocale W)) = fetch_log W
  /\ store (snd (load fuel this newLocale W)) = store W.
Proof.
  intros Hb Hls Hl Hnot.
  assert (Hbegin : load_begin fuel this newLocale W
                   = (Throw (UnsupportedLocale (loc_tag l)), W)).
  { unfold load_begin.
    rewrite (bind_ok _ _ _ _ _ (read_box_ok _ _ _ Hb)), Hl.
    rewrite (bind_ok _ _ _ _ _ (supportsLocale_ok _ _ _ _ (inr l) Hb Hls)).
    cbn [arg_toString]. rewrite bool_decide_eq_false_2 by exact Hnot.
    reflexivity. }
  assert (Hload : load fuel this newLocale W
                  = (Throw (UnsupportedLocale (loc_tag l)), W)).
  { unfold load. rewrite bind_eq, Hbegin. reflexivity. }
  rewrite Hload. auto.
Qed.

Lemma store_currentLocale this W W' :
  store W' = store W -> fst (currentLocale this W') = fst (currentLocale this W).
Proof.
  intros Hs. unfold currentLocale, read_box, bind, read. rewrite Hs.
  destruct (store W !! this) as [[]|]; reflexivity.
Qed.

Lemma store_read_table this W W' :
  store W' = store W -> fst (read_table this W') = fst (read_table this W).
Proof.
  intros Hs. unfold read_table, read_box, read_assets, bind, read. rewrite Hs.
  destruct (store W !! this) as [[b| | | | | |]|]; try reflexivity. cbn.
  rewrite Hs. destruct (store W !! _assets b) as [[]|]; reflexivity.
Qed.

(** C1: a batch with a failed loader.  When the synchronous part of [load]
    has put the batch [tasks] in flight and one of its loaders rejected,
    the promise of [load] is fulfilled with [false] (it is not rejected and
    nothing is thrown), the store after the call is the store before it,
    and so [currentLocale] and the Asset Table read as before.  The
    settlement by itself changes nothing in whatever world it runs. *)
Theorem load_failure_is_atomic fuel this newLocale W requested tasks W1 :
  load_begin fuel this newLocale W = (Ok (InFlight requested tasks), W1) ->
  Rejected ∈ tasks ->
  load fuel this newLocale W = (Ok (Fulfilled false), W1)
  /\ store W1 = store W
  /\ fst (currentLocale this W1) = fst (currentLocale this W)
  /\ fst (read_table this W1) = fst (read_table this W)
  /\ (forall W2,
        load_settle this (InFlight requested tasks) W2 = (Ok (Fulfilled false), W2)).
Proof.
  intros Hbegin Hrej. apply Promise_all_rejected in Hrej.
  assert (Hsettle : forall W2,
    load_settle this (InFlight requested tasks) W2 = (Ok (Fulfilled false), W2)).
  { intros W2. cbn. rewrite Hrej. reflexivity. }
  pose proof (same_store_load_begin fuel this newLocale W) as [Hs _].
  rewrite Hbegin in Hs. cbn in Hs.
  split; [|split; [|split; [|split]]].
  - unfold load. rewrite bind_eq, Hbegin. apply Hsettle.
  - exact Hs.
  - now apply store_currentLocale.
  - now apply store_read_table.
  - exact Hsettle.
Qed.

(** ** The commit, step by step *)

Lemma set_store_id W r c :
  store W !! r = Some c -> set_store (insert r c) W = W.
Proof.
  intros H. destruct W as [st n o f]. unfold set_store. cbn in *.
  now rewrite insert_id.
Qed.

Lemma set_store_twice W r c1 c2 :
  set_store (insert r c2) (set_store (insert r c1) W) = set_store (insert r c2) W.
Proof. unfold set_store. cbn. now rewrite insert_insert_eq. Qed.

Lemma assets_set_ok W a m k v :
  store W !! a = Some (CAssets m) ->
  assets_set a k v W = (Ok tt, set_store (insert a (CAssets (<[k := v]> m))) W).
Proof.
  intros Ha. unfold assets_set.
  rewrite (bind_ok _ _ _ _ _ (read_assets_ok _ _ _ Ha)). reflexivity.
Qed.

Lemma assets_clear_ok W a m :
  store W !! a = Some (CAssets m) ->
  assets_clear a W = (Ok tt, set_store (insert a (CAssets ∅)) W).
Proof.
  intros Ha. unfold assets_clear.
  rewrite (bind_ok _ _ _ _ _ (read_assets_ok _ _ _ Ha)). reflexivity.
Qed.

Lemma store_set_store_eq W r c : store (set_store (insert r c) W) !! r = Some c.
Proof. cbn. apply lookup_insert_eq. Qed.

Lemma store_set_store_ne W r r' c :
  r <> r' -> store (set_store (insert r c) W) !! r' = store W !! r'.
Proof. intros H. cbn. now apply lookup_insert_ne. Qed.

Lemma for_of_assets_set W a m res :
  store W !! a = Some (CAssets m) ->
  for_of res (fun pair => assets_set a (fst pair) (snd pair)) W
  = (Ok tt,
     set_store (insert a (CAssets (foldl (fun acc pair => <[fst pair := snd pair]> acc)
                                         m res))) W).
Proof.
  revert W m. induction res as [|[k v] res IH]; intros W m Ha; cbn.
  - now rewrite set_store_id.
  - rewrite (bind_ok _ _ _ _ _ (assets_set_ok _ _ _ k v Ha)).
    rewrite (IH _ (<[k := v]> m)) by apply store_set_store_eq.
    now rewrite set_store_twice.
Qed.

Lemma for_of_initializers W a table inits newLocale :
  store W !! a = Some (CAssets table) ->
  for_of inits (fun bundleInit =>
    let* assets := read_assets a in
    match assets !! loc_tag newLocale with
    | None => throw TypeError
    | Some bundle =>
        match bundleInit newLocale bundle with
        | Returned bundle' => assets_set a (loc_tag newLocale) bundle'
        | Raised bundle' =>
            let* _ := assets_set a (loc_tag newLocale) bundle' in
            throw InitializerError
        end
    end) W
  = (fst (run_initializers inits newLocale table),
     set_store (insert a (CAssets (snd (run_initializers inits newLocale table)))) W).
Proof.
  revert W table. induction inits as [|bundleInit rest IH]; intros W table Ha; cbn.
  - now rewrite set_store_id.
  - rewrite bind_eq.
    rewrite (bind_ok _ _ _ _ _ (read_assets_ok _ _ _ Ha)).
    destruct (table !! loc_tag newLocale) as [bundle|]; cbn.
    + destruct (bundleInit newLocale bundle) as [bundle'|bundle'].
      * rewrite (assets_set_ok _ _ _ _ _ Ha).
        rewrite (IH _ (<[loc_tag newLocale := bundle']> table))
          by apply store_set_store_eq.
        now rewrite set_store_twice.
      * rewrite (bind_ok _ _ _ _ _ (assets_set_ok _ _ _ _ _ Ha)). reflexivity.
    + now rewrite set_store_id.
Qed.

(** The [then] handler on a well-typed store: the table becomes
    [commit_table] of the batch, then the current locale is set, then the
    initializers run on the table. *)
Lemma load_then_spec W self b m inits newLocale res :
  store W !! self = Some (CBox b) ->
  store W !! _assets b = Some (CAssets m) ->
  store W !! _bundleInitializers b = Some (CInits inits) ->
  let t0 := commit_table (_clean b) m res in
  let ri := run_initializers inits newLocale t0 in
  exists W',
    load_then self newLocale res W = (fst ri, W')
    /\ store W' !! _assets b = Some (CAssets (snd ri))
    /\ store W' !! self = Some (CBox (with_currentLocale (Some newLocale) b)).
Proof.
  intros Hb Ha Hi t0 ri.
  assert (Hne1 : _assets b <> self) by (intros E; rewrite E in Ha; congruence).
  assert (Hne2 : _assets b <> _bundleInitializers b)
    by (intros E; rewrite E in Ha; congruence).
  assert (Hne3 : self <> _bundleInitializers b)
    by (intros E; rewrite E in Hb; congruence).
  unfold load_then.
  rewrite (bind_ok _ _ _ _ _ (read_box_ok _ _ _ Hb)).
  set (W1 := set_store (insert (_assets b)
                          (CAssets (if _clean b then ∅ else m))) W).
  assert (Hclear : (if _clean b then assets_clear (_assets b) else ret tt) W
                   = (Ok tt, W1)).
  { unfold W1. destruct (_clean b).
    - apply (assets_clear_ok _ _ _ Ha).
    - now rewrite set_store_id. }
  rewrite (bind_ok _ _ _ _ _ Hclear).
  assert (Ha1 : store W1 !! _assets b
                = Some (CAssets (if _clean b then ∅ else m)))
    by apply store_set_store_eq.
  rewrite (bind_ok _ _ _ _ _ (for_of_assets_set _ _ _ res Ha1)).
  fold (commit_table (_clean b) m res). fold t0.
  set (W2 := set_store (insert (_assets b) (CAssets t0)) W1).
  assert (Hb2 : store W2 !! self = Some (CBox b)).
  { unfold W2, W1. rewrite !store_set_store_ne by exact Hne1. exact Hb. }
  set (W3 := set_store (insert self (CBox (with_currentLocale (Some newLocale) b))) W2).
  assert (Hset : set_field self (with_currentLocale (Some newLocale)) W2
                 = (Ok tt, W3)).
  { unfold set_field. rewrite (bind_ok _ _ _ _ _ (read_box_ok _ _ _ Hb2)).
    reflexivity. }
  rewrite (bind_ok _ _ _ _ _ Hset).
  assert (Hi3 : store W3 !! _bundleInitializers b = Some (CInits inits)).
  { unfold W3, W2, W1.
    rewrite store_set_store_ne by exact Hne3.
    rewrite !store_set_store_ne by exact Hne2. exact Hi. }
  rewrite (bind_ok _ _ _ _ _ (read_inits_ok _ _ _ Hi3)).
  assert (Ha3 : store W3 !! _assets b = Some (CAssets t0)).
  { unfold W3. rewrite store_set_store_ne by auto. apply store_set_store_eq. }
  eexists. split; [apply (for_of_initializers _ _ _ inits newLocale Ha3)|].
  split.
  - apply store_set_store_eq.
  - rewrite store_set_store_ne by exact Hne1. apply store_set_store_eq.
Qed.

(** ** The table after the commit *)

Lemma foldl_insert_snoc (base : gmap string FluentBundle) res k v :
  foldl (fun acc pair => <[fst pair := snd pair]> acc) base (res ++ [(k, v)])
  = <[k := v]> (foldl (fun acc pair => <[fst pair := snd pair]> acc) base res).
Proof. now rewrite foldl_app. Qed.

Lemma commit_table_outside clean table res k :
  k ∉ res.*1 ->
  commit_table clean table res !! k = (if clean then ∅ else table) !! k.
Proof.
  unfold commit_table. induction res as [|[k' v'] res IH] using rev_ind;
    [reflexivity|].
  rewrite fmap_app, elem_of_app. cbn. intros Hnot.
  rewrite foldl_insert_snoc, lookup_insert_ne.
  - apply IH. tauto.
  - intros ->. apply Hnot. right. left.
Qed.

Lemma commit_table_entry clean table res k bu :
  (forall bu', (k, bu') ∈ res -> bu' = bu) ->
  (k, bu) ∈ res ->
  commit_table clean table res !! k = Some bu.
Proof.
  unfold commit_table. induction res as [|[k' v'] res IH] using rev_ind.
  - intros _ H. inversion H.
  - intros Hfun Hin. rewrite foldl_insert_snoc.
    destruct (decide (k' = k)) as [->|Hne].
    + rewrite lookup_insert_eq. f_equal. apply Hfun.
      rewrite elem_of_app. right. left.
    + rewrite lookup_insert_ne by exact Hne. apply IH.
      * intros bu' H. apply Hfun. rewrite elem_of_app. now left.
      * rewrite elem_of_app in Hin. destruct Hin as [H|H]; [exact H|].
        apply list_elem_of_singleton in H. congruence.
Qed.

Lemma commit_table_dom clean table res :
  dom (commit_table clean table res)
  = dom (if clean then ∅ else table) ∪ list_to_set res.*1.
Proof.
  unfold commit_table. induction res as [|[k' v'] res IH] using rev_ind.
  - cbn. now rewrite union_empty_r_L.
  - rewrite foldl_insert_snoc, dom_insert_L, IH, fmap_app, list_to_set_app_L.
    cbn. apply set_eq. intros x. set_unfold. tauto.
Qed.

Lemma run_initializers_ok inits newLocale table table' :
  run_initializers inits newLocale table = (Ok tt, table') ->
  (forall k, k <> loc_tag newLocale -> table' !! k = table !! k)
  /\ table' !! loc_tag newLocale
     = initialized inits newLocale <$> table !! loc_tag newLocale.
Proof.
  revert table. induction inits as [|bundleInit rest IH]; intros table; cbn.
  - intros [= <-]. split; [reflexivity|].
    now destruct (table !! loc_tag newLocale).
  - destruct (table !! loc_tag newLocale) as [bundle|] eqn:Hb; [|discriminate].
    destruct (bundleInit newLocale bundle) as [bundle'|bundle'] eqn:Hinit;
      [|discriminate].
    intros Hrun. apply IH in Hrun as [Hother Htag]. split.
    + intros k Hk. rewrite Hother by exact Hk. now apply lookup_insert_ne.
    + rewrite Htag, lookup_insert_eq. cbn. now rewrite Hinit.
Qed.

(** ** The batch that [load] puts in flight *)

Lemma set_add_extends l output : exists suffix, set_add l output = output ++ suffix.
Proof.
  unfold set_add. destruct (existsb _ output).
  - exists []. now rewrite app_nil_r.
  - eauto.
Qed.

Lemma enumerateFallbacksToSet_extends fuel this :
  forall locale output W out W',
    _enumerateFallbacksToSet fuel this locale output W = (Ok out, W') ->
    exists suffix, out = output ++ suffix.
Proof.
  induction fuel as [|fuel IH]; intros locale output W out W'; cbn;
    [discriminate|].
  rewrite bind_eq. destruct (read_box this W) as [[b|e|] W1]; try discriminate.
  rewrite bind_eq.
  destruct (read_fallbacks (_fallbacks b) W1) as [[fbs|e|] W2]; try discriminate.
  destruct (fbs !! locale) as [list|].
  - clear W W1. revert output W2.
    induction list as [|item rest IHl]; intros output W2; cbn.
    + intros [= <- <-]. exists []. now rewrite app_nil_r.
    + rewrite !bind_eq.
      destruct (new_Locale (inl item) W2) as [[l|e|] W3]; try discriminate.
      destruct (_enumerateFallbacksToSet fuel this item (set_add l output) W3)
        as [[out1|e|] W4] eqn:Hrec; try discriminate.
      intros Hrest. apply IHl in Hrest as [s2 ->].
      apply IH in Hrec as [s1 ->].
      destruct (set_add_extends l output) as [s0 ->].
      exists (s0 ++ s1 ++ s2). now rewrite !app_assoc.
  - intros [= <- <-]. exists []. now rewrite app_nil_r.
Qed.

Lemma loadSingleLocale_outcome this l W r W' :
  _loadSingleLocale this l W = (r, W') ->
  r = loader_outcome (store W) this (loc_tag l).
Proof.
  unfold loader_outcome, _loadSingleLocale, read_box, read_pathmap, read_files,
    log_fetch, bind, read. cbn.
  destruct (store W !! this) as [[b| | | | | |]|]; cbn;
    try (intros [= <- <-]; reflexivity).
  destruct (store W !! _localeToPathComponents b) as [[|pcs| | | | |]|]; cbn;
    try (intros [= <- <-]; reflexivity).
  destruct (store W !! _files b) as [[| | | | |files|]|]; cbn;
    intros [= <- <-]; reflexivity.
Qed.

Lemma loader_outcome_key st this k p :
  loader_outcome st this k = Ok (Fulfilled p) -> fst p = k.
Proof.
  unfold loader_outcome, _loadSingleLocale, read_box, read_pathmap, read_files,
    log_fetch, bind, read. cbn.
  destruct (st !! this) as [[b| | | | | |]|]; cbn; try discriminate.
  destruct (st !! _localeToPathComponents b) as [[|pcs| | | | |]|]; cbn;
    try discriminate.
  destruct (st !! _files b) as [[| | | | |files|]|]; cbn; try discriminate.
  destruct (match _method b with http => _ | fileSystem => _ end);
    intros [= <-]; reflexivity.
Qed.

Lemma array_map_loaders this toLoad :
  forall W tasks W',
    array_map (_loadSingleLocale this) toLoad W = (Ok tasks, W') ->
    batch_of (store W) this toLoad tasks
    /\ fetch_log W' = fetch_log W ++ (loc_tag <$> toLoad).
Proof.
  induction toLoad as [|l rest IH]; intros W tasks W'; cbn.
  - intros [= <- <-]. split; [constructor | now rewrite app_nil_r].
  - rewrite !bind_eq.
    destruct (_loadSingleLocale this l W) as [[t|e|] W1] eqn:Hl; try discriminate.
    rewrite bind_eq.
    destruct (array_map (_loadSingleLocale this) rest W1) as [[ts|e|] W2] eqn:Hr;
      try discriminate.
    intros [= <- <-].
    pose proof (same_store_loadSingleLocale this l W) as [Hs _].
    rewrite Hl in Hs. cbn in Hs.
    assert (Hlog : fetch_log W1 = fetch_log W ++ [loc_tag l]).
    { revert Hl. unfold _loadSingleLocale, read_box, read_pathmap, read_files,
        log_fetch, bind, read.
      destruct (store W !! this) as [[b| | | | | |]|]; cbn; try discriminate.
      destruct (store W !! _localeToPathComponents b) as [[|pcs| | | | |]|]; cbn;
        try discriminate.
      destruct (store W !! _files b) as [[| | | | |files|]|]; cbn;
        try discriminate.
      intros Heq. inversion Heq. reflexivity. }
    apply IH in Hr as [Hb Hlog']. split.
    + constructor.
      * symmetry. eapply loadSingleLocale_outcome. exact Hl.
      * rewrite <- Hs. exact Hb.
    + rewrite Hlog', Hlog, <- app_assoc. reflexivity.
Qed.

(** What an in-flight [load] is made of: the object is there, the
    requested locale is the argument or the default, [toLoad] starts with
    it, one loader was started per element of [toLoad], in order, and the
    fetch log grew by exactly these. *)
Lemma load_begin_inflight fuel this newLocale W requested tasks W1 :
  load_begin fuel this newLocale W = (Ok (InFlight requested tasks), W1) ->
  exists b others W0,
    store W !! this = Some (CBox b)
    /\ match newLocale with Some x => Some x | None => _defaultLocale b end
       = Some requested
    /\ _enumerateFallbacksToSet fuel this (loc_tag requested) [requested] W
       = (Ok (requested :: others), W0)
    /\ batch_of (store W) this (requested :: others) tasks
    /\ fetch_log W1 = fetch_log W ++ (loc_tag <$> requested :: others).
Proof.
  unfold load_begin. rewrite bind_eq.
  destruct (read_box this W) as [x W0] eqn:Hr.
  apply read_box_inv in Hr as [-> [(b & -> & Hb)|[-> _]]]; [|discriminate].
  destruct (match newLocale with Some l => Some l | None => _defaultLocale b end)
    as [l|] eqn:Hreq; [|discriminate].
  rewrite bind_eq.
  pose proof (readonly_supportsLocale this (inr l) W) as Hro.
  destruct (supportsLocale this (inr l) W) as [[supported|e|] W2]; try discriminate.
  cbn in Hro. subst W2.
  destruct (negb supported); [discriminate|].
  rewrite bind_eq. unfold catch. rewrite bind_eq.
  pose proof (same_store_enumerateFallbacksToSet fuel this (loc_tag l) [l] W)
    as [Hs Hn].
  pose proof (same_log_enumerateFallbacksToSet fuel this (loc_tag l) [l] W)
    as Hquiet.
  destruct (_enumerateFallbacksToSet fuel this (loc_tag l) [l] W)
    as [[toLoad|e|] W3] eqn:Henum; try discriminate.
  cbn in Hs, Hquiet.
  destruct (array_map (_loadSingleLocale this) toLoad W3) as [[ts|e|] W4] eqn:Hmap;
    try discriminate.
  intros [= <- <- <-].
  destruct (enumerateFallbacksToSet_extends _ _ _ _ _ _ _ Henum) as [others ->].
  apply array_map_loaders in Hmap as [Hbatch Hlog]. rewrite Hs in Hbatch.
  exists b, others, W3. split; [exact Hb|]. split; [exact Hreq|].
  split; [exact Henum|]. split; [exact Hbatch|].
  rewrite Hlog. f_equal. exact Hquiet.
Qed.

(** ** The set of [load] against the array of the accessors *)

Lemma set_add_fresh W l output :
  created_before W output -> loc_oid l = next_oid W ->
  set_add l output = output ++ [l].
Proof.
  intros Hfresh Hl. unfold set_add.
  replace (existsb (fun x => Nat.eqb (loc_oid x) (loc_oid l)) output) with false;
    [reflexivity|].
  symmetry. apply not_true_is_false. intros Hex.
  apply existsb_exists in Hex as (x & Hin & Heq).
  apply Nat.eqb_eq in Heq. unfold created_before in Hfresh.
  rewrite Forall_forall in Hfresh. apply list_elem_of_In in Hin.
  specialize (Hfresh x Hin). lia.
Qed.

Lemma new_Locale_fresh a W l W' output :
  new_Locale a W = (Ok l, W') ->
  created_before W output ->
  loc_oid l = next_oid W /\ created_before W' (output ++ [l]).
Proof.
  unfold new_Locale, created_before. intros Hnew Hfresh.
  assert (Hl : loc_oid l = next_oid W /\ next_oid W' = S (next_oid W)).
  { destruct a as [s|x]; [destruct (canonical s); [|discriminate]|];
      injection Hnew as <- <-; split; reflexivity. }
  destruct Hl as [Hl Hn]. split; [exact Hl|].
  apply Forall_app. split.
  - eapply Forall_impl; [exact Hfresh|]. cbn. intros x Hx. lia.
  - constructor; [lia | constructor].
Qed.

(** [_enumerateFallbacksToSet] never merges: started on a set whose
    elements exist already, it does what [_enumerateFallbacks] does on the
    array of the same elements, repetitions included, because every
    element it adds is a new object. *)
Lemma enumerateFallbacksToSet_is_enumerateFallbacks fuel this :
  forall locale output W,
    created_before W output ->
    _enumerateFallbacksToSet fuel this locale output W
    = _enumerateFallbacks fuel this locale output W
    /\ (forall out W',
          _enumerateFallbacks fuel this locale output W = (Ok out, W') ->
          created_before W' out).
Proof.
  induction fuel as [|fuel IH]; intros locale output W Hfresh; cbn.
  - split; [reflexivity | discriminate].
  - rewrite !bind_eq.
    pose proof (readonly_read_box this W) as Hro.
    destruct (read_box this W) as [[b|e|] W1]; cbn in Hro; subst W1;
      try (split; [reflexivity | discriminate]).
    rewrite !bind_eq.
    pose proof (readonly_read_fallbacks (_fallbacks b) W) as Hro.
    destruct (read_fallbacks (_fallbacks b) W) as [[fbs|e|] W1]; cbn in Hro;
      subst W1; try (split; [reflexivity | discriminate]).
    destruct (fbs !! locale) as [list|].
    2:{ split; [reflexivity|]. intros out W' [= <- <-]. exact Hfresh. }
    revert output W Hfresh.
    induction list as [|item rest IHl]; intros output W Hfresh; cbn.
    + split; [reflexivity|]. intros out W' [= <- <-]. exact Hfresh.
    + rewrite !bind_eq.
      destruct (new_Locale (inl item) W) as [[l|e|] W1] eqn:Hnew;
        try (split; [reflexivity | discriminate]).
      destruct (new_Locale_fresh _ _ _ _ _ Hnew Hfresh) as [Hl Hfresh1].
      rewrite (set_add_fresh W l output Hfresh Hl).
      destruct (IH item (output ++ [l]) W1 Hfresh1) as [Heq Hout].
      rewrite Heq.
      destruct (_enumerateFallbacks fuel this item (output ++ [l]) W1)
        as [[out1|e|] W2]; try (split; [reflexivity | discriminate]).
      apply IHl. eapply Hout. reflexivity.
Qed.

(** ** What the constructor declares *)

Lemma parseLocaleOrThrow_ok u W p W1 :
  _parseLocaleOrThrow (inl u) W = (Ok p, W1) ->
  canonical u = Some (loc_tag p)
  /\ store W1 = store W /\ next_ref W1 = next_ref W.
Proof.
  unfold _parseLocaleOrThrow, catch, new_Locale. rewrite bind_eq.
  destruct (canonical u) as [c|]; cbn; [|discriminate].
  intros [= <- <-]. auto.
Qed.

Lemma canonical_forms_cons_ok u c rest :
  canonical u = Some c ->
  canonical_forms (u :: rest) = {[c]} ∪ canonical_forms rest.
Proof. intros H. unfold canonical_forms. cbn. now rewrite H. Qed.

(** The loop over [options.locales]: it adds the canonical form of every
    spelling to the locale set, touching nothing but the two maps. *)
Lemma locales_loop pcs ls unparsed :
  pcs <> ls ->
  forall W m s W',
    store W !! pcs = Some (CPathMap m) ->
    store W !! ls = Some (CLocaleSet s) ->
    for_of unparsed (fun unparsedLocale =>
      let* parsedLocale := _parseLocaleOrThrow (inl unparsedLocale) in
      let* _ := pathmap_set pcs (loc_tag parsedLocale) unparsedLocale in
      localeset_add ls (loc_tag parsedLocale)) W = (Ok tt, W') ->
    store W' !! ls = Some (CLocaleSet (canonical_forms unparsed ∪ s))
    /\ Forall (fun u => is_Some (canonical u)) unparsed
    /\ next_ref W' = next_ref W
    /\ (forall r, r <> pcs -> r <> ls -> store W' !! r = store W !! r).
Proof.
  intros Hne. induction unparsed as [|u rest IH]; intros W m s W' Hp Hl; cbn.
  - intros [= <-]. split; [|split; [constructor | split; reflexivity]].
    rewrite Hl. f_equal. f_equal. unfold canonical_forms. cbn.
    now rewrite union_empty_l_L.
  - rewrite !bind_eq.
    destruct (_parseLocaleOrThrow (inl u) W) as [[p|e|] W1] eqn:Hparse;
      try discriminate.
    apply parseLocaleOrThrow_ok in Hparse as (Hc & Hs1 & Hn1).
    rewrite bind_eq. unfold pathmap_set at 1.
    rewrite (bind_ok _ _ _ _ _ (read_pathmap_ok W1 pcs m ltac:(now rewrite Hs1))).
    cbn [write]. unfold localeset_add at 1.
    set (W2 := set_store (insert pcs (CPathMap (<[loc_tag p := u]> m))) W1).
    assert (Hl2 : store W2 !! ls = Some (CLocaleSet s)).
    { unfold W2, set_store. cbn. rewrite lookup_insert_ne by exact Hne.
      now rewrite Hs1. }
    rewrite (bind_ok _ _ _ _ _ (read_localeset_ok W2 ls s Hl2)). cbn [write].
    set (W3 := set_store (insert ls (CLocaleSet ({[loc_tag p]} ∪ s))) W2).
    intros Hrest.
    assert (Hp3 : store W3 !! pcs = Some (CPathMap (<[loc_tag p := u]> m))).
    { unfold W3, W2, set_store. cbn. rewrite lookup_insert_ne by auto.
      apply lookup_insert_eq. }
    assert (Hl3 : store W3 !! ls = Some (CLocaleSet ({[loc_tag p]} ∪ s))).
    { unfold W3, set_store. cbn. apply lookup_insert_eq. }
    destruct (IH _ _ _ _ Hp3 Hl3 Hrest) as (Hset & Hall & Hn & Hother).
    split; [|split; [|split]].
    + rewrite Hset. f_equal. f_equal.
      unfold canonical_forms. cbn. rewrite Hc. cbn.
      apply set_eq. intros x. set_unfold. tauto.
    + constructor; [rewrite Hc; eauto | exact Hall].
    + rewrite Hn. unfold W3, W2, set_store. cbn. exact Hn1.
    + intros r Hr1 Hr2. rewrite (Hother r Hr1 Hr2).
      unfold W3, W2, set_store. cbn.
      rewrite !lookup_insert_ne by auto. now rewrite Hs1.
Qed.

#[local] Instance keeps_locales_refl ls this : Reflexive (keeps_locales ls this).
Proof. intros W _ _. split; [lia|]. split; [reflexivity|]. eauto. Qed.

#[local] Instance keeps_locales_trans ls this : Transitive (keeps_locales ls this).
Proof.
  intros W1 W2 W3 H12 H23 Hls Hthis.
  destruct (H12 Hls Hthis) as (Hn12 & Hl12 & Hb12).
  destruct (H23 ltac:(lia) ltac:(lia)) as (Hn23 & Hl23 & Hb23).
  split; [lia|]. split; [congruence|].
  intros b Hb. destruct (Hb12 b Hb) as (b2 & Hb2 & Hf2).
  destruct (Hb23 b2 Hb2) as (b3 & Hb3 & Hf3). exists b3. split; congruence.
Qed.

Lemma keeps_locales_same_store ls this {A} (m : M A) :
  preserves same_store m -> preserves (keeps_locales ls this) m.
Proof.
  intros Hm W _ _. destruct (Hm W) as [Hs Hn]. rewrite Hs, Hn.
  split; [lia|]. split; [reflexivity|]. eauto.
Qed.

Lemma keeps_locales_write ls this r c W :
  r <> ls -> r <> this ->
  keeps_locales ls this W (set_store (insert r c) W).
Proof.
  intros H1 H2 _ _. unfold set_store. cbn. split; [lia|].
  rewrite !lookup_insert_ne by auto. eauto.
Qed.

Lemma keeps_locales_fallbacks_set ls this r k v :
  r <> ls -> r <> this ->
  preserves (keeps_locales ls this) (fallbacks_set r k v).
Proof.
  intros H1 H2 W. unfold fallbacks_set. rewrite bind_eq.
  pose proof (readonly_read_fallbacks r W) as Hro.
  destruct (read_fallbacks r W) as [[m|e|] W1]; cbn in Hro; subst W1;
    try reflexivity.
  now apply keeps_locales_write.
Qed.

Lemma keeps_locales_files_push ls this r x :
  r <> ls -> r <> this ->
  preserves (keeps_locales ls this) (files_push r x).
Proof.
  intros H1 H2 W. unfold files_push. rewrite bind_eq.
  pose proof (readonly_read_files r W) as Hro.
  destruct (read_files r W) as [[m|e|] W1]; cbn in Hro; subst W1;
    try reflexivity.
  now apply keeps_locales_write.
Qed.

Lemma keeps_locales_set_field ls this f :
  this <> ls -> (forall b, _locales (f b) = _locales b) ->
  preserves (keeps_locales ls this) (set_field this f).
Proof.
  intros Hne Hf W. unfold set_field. rewrite bind_eq.
  destruct (read_box this W) as [x W1] eqn:Hr.
  apply read_box_inv in Hr as [-> [(b & -> & Hb)|[-> _]]]; [|reflexivity].
  intros _ _. unfold write, set_store. cbn. split; [lia|].
  rewrite lookup_insert_ne by auto. split; [reflexivity|].
  intros b0 Hb0. rewrite lookup_insert_eq. exists (f b). split; [reflexivity|].
  rewrite Hf. congruence.
Qed.

Lemma keeps_locales_alloc_bind ls this {B} c (k : ref -> M B) :
  (forall r, r <> ls -> r <> this -> preserves (keeps_locales ls this) (k r)) ->
  preserves (keeps_locales ls this) (bind (alloc c) k).
Proof.
  intros Hk W. rewrite bind_eq. cbn [alloc]. intros Hls Hthis.
  set (W1 := mkWorld _ _ _ _).
  assert (H01 : keeps_locales ls this W W1).
  { intros _ _. unfold W1. cbn. split; [lia|].
    rewrite !lookup_insert_ne by lia. eauto. }
  assert (H1 : keeps_locales ls this W1 (snd (k (next_ref W) W1))).
  { apply Hk; lia. }
  exact (keeps_locales_trans ls this _ _ _ H01 H1 Hls Hthis).
Qed.

Lemma bind_returns {A B} (m : M A) (k : A -> M B) (P : B -> Prop) :
  (forall a W r W', k a W = (Ok r, W') -> P r) ->
  forall W r W', bind m k W = (Ok r, W') -> P r.
Proof.
  intros Hk W r W'. rewrite bind_eq.
  destruct (m W) as [[a|e|] W1]; try discriminate. apply Hk.
Qed.

Lemma same_store_parseLocaleOrThrow a :
  preserves same_store (_parseLocaleOrThrow a).
Proof.
  unfold _parseLocaleOrThrow. pres preserves_bind.
  - pres preserves_catch. apply same_store_new_Locale.
  - intros [l|e]; [pres preserves_ret | pres preserves_throw].
Qed.

Lemma FluentBox_fields_spec W :
  let n := next_ref W in
  let b0 := mkFluentBox None n (S n) None (S (S n)) (S (S (S n))) ""
              (S (S (S (S n)))) (S (S (S (S (S n))))) true http in
  exists Wa,
    FluentBox_fields W = (Ok (S (S (S (S (S (S n)))))), Wa)
    /\ store Wa !! S (S (S (S (S (S n))))) = Some (CBox b0)
    /\ store Wa !! n = Some (CPathMap ∅)
    /\ store Wa !! S n = Some (CLocaleSet ∅)
    /\ next_ref Wa = S (S (S (S (S (S (S n)))))).
Proof.
  intros n b0. unfold FluentBox_fields, alloc, bind. cbn.
  eexists. split; [reflexivity|]. cbn. fold n.
  split; [apply lookup_insert_eq|].
  split; [rewrite !lookup_insert_ne by lia; apply lookup_insert_eq|].
  split; [rewrite !lookup_insert_ne by lia; apply lookup_insert_eq|].
  reflexivity.
Qed.

(** The locale set of a newly constructed engine holds the canonical forms
    of the declared spellings, all of which parsed. *)
Lemma FluentBox_new_declares options W this W' :
  FluentBox_new options W = (Ok this, W') ->
  exists b,
    store W' !! this = Some (CBox b)
    /\ store W' !! _locales b
       = Some (CLocaleSet (canonical_forms (opt_locales options)))
    /\ Forall (fun u => is_Some (canonical u)) (opt_locales options).
Proof.
  unfold FluentBox_new.
  destruct (FluentBox_fields_spec W) as (Wa & Hfields & Hbox & Hpcs & Hls & Hna).
  set (n := next_ref W) in *.
  set (b0 := mkFluentBox None n (S n) None (S (S n)) (S (S (S n))) ""
               (S (S (S (S n)))) (S (S (S (S (S n))))) true http) in *.
  rewrite (bind_ok _ _ _ _ _ Hfields).
  rewrite (bind_ok _ _ _ _ _ (read_box_ok _ _ _ Hbox)).
  rewrite bind_eq. cbn [_localeToPathComponents _locales b0].
  destruct (for_of (opt_locales options) _ Wa) as [[[]|e|] W2] eqn:Hloop;
    try discriminate.
  destruct (locales_loop n (S n) (opt_locales options) ltac:(lia) Wa ∅ ∅ W2
              Hpcs Hls Hloop) as (Hset & Hall & Hn2 & Hother).
  assert (Hbox2 : store W2 !! S (S (S (S (S (S n))))) = Some (CBox b0)).
  { rewrite Hother by lia. exact Hbox. }
  match goal with
  | |- ?k W2 = _ -> _ =>
      assert (Hk : preserves (keeps_locales (S n) (S (S (S (S (S (S n))))))) k)
  end.
  { pres preserves_bind.
    { pres preserves_for_of. intros [key arr].
      pres preserves_bind.
      { apply keeps_locales_same_store, same_store_parseLocaleOrThrow. }
      intros p. pres preserves_bind.
      { pres preserves_array_map. intros a. pres preserves_bind.
        - apply keeps_locales_same_store, same_store_parseLocaleOrThrow.
        - intros l. pres preserves_ret. }
      intros arr'. apply keeps_locales_fallbacks_set; cbn; lia. }
    intros _. pres preserves_bind.
    { apply keeps_locales_same_store, same_store_parseLocaleOrThrow. }
    intros d. pres preserves_bind.
    { apply keeps_locales_set_field; [lia | reflexivity]. }
    intros _. pres preserves_bind.
    { apply keeps_locales_set_field; [lia | reflexivity]. }
    intros _. apply keeps_locales_alloc_bind. intros files Hf1 Hf2.
    pres preserves_bind.
    { apply keeps_locales_set_field; [lia | reflexivity]. }
    intros _. pres preserves_bind.
    { pres preserves_for_of. intros x. now apply keeps_locales_files_push. }
    intros _. pres preserves_bind.
    { apply keeps_locales_set_field; [lia | reflexivity]. }
    intros _. pres preserves_bind.
    { apply keeps_locales_set_field; [lia | reflexivity]. }
    intros _. pres preserves_ret. }
  intros Hrun.
  assert (Hthis : this = S (S (S (S (S (S n)))))).
  { revert Hrun. generalize W' as Wz. generalize this as r.
    generalize W2 as Wx. clear.
    repeat (apply (bind_returns _ _ (fun r => r = S (S (S (S (S (S n)))))));
            intros ?).
    intros Wx r Wz [= <- _]. reflexivity. }
  specialize (Hk W2). rewrite Hrun in Hk. cbn in Hk.
  assert (Hnext : next_ref W2 = S (S (S (S (S (S (S n))))))).
  { rewrite Hn2. exact Hna. }
  destruct (Hk ltac:(lia) ltac:(lia)) as (_ & Hl' & Hb').
  destruct (Hb' b0 Hbox2) as (b' & Hb'' & Hloc).
  exists b'. subst this. split; [exact Hb''|]. split; [|exact Hall].
  rewrite Hloc. cbn. rewrite Hl', Hset. f_equal. f_equal.
  apply union_empty_r_L.
Qed.

(** So, on a newly constructed engine, [supportsLocale] answers whether the
    [toString()] of its argument is the canonical form of a declared
    spelling: for a locale object that is its canonical identifier, for a
    string the string as given. *)
Lemma supportsLocale_after_new options W this W' argument :
  FluentBox_new options W = (Ok this, W') ->
  supportsLocale this argument W'
  = (Ok (bool_decide (arg_toString argument
                        ∈ canonical_forms (opt_locales options))), W').
Proof.
  intros Hnew. destruct (FluentBox_new_declares _ _ _ _ Hnew) as (b & Hb & Hls & _).
  apply (supportsLocale_ok _ _ _ _ _ Hb Hls).
Qed.

(** ** The Asset Table after a successful [load] *)

Lemma batch_entries st this toLoad res :
  batch_of st this toLoad (Fulfilled <$> res) ->
  Forall2 (fun l p => fst p = loc_tag l
                      /\ loader_outcome st this (fst p) = Ok (Fulfilled p))
          toLoad res.
Proof.
  unfold batch_of. rewrite Forall2_fmap_r.
  intros H. eapply Forall2_impl; [exact H|]. cbn. intros l p Hp.
  pose proof (loader_outcome_key _ _ _ _ Hp) as Hk.
  split; [exact Hk | now rewrite Hk].
Qed.

Lemma batch_functional st this toLoad res k bu bu' :
  batch_of st this toLoad (Fulfilled <$> res) ->
  (k, bu) ∈ res -> (k, bu') ∈ res -> bu' = bu.
Proof.
  intros Hb%batch_entries H1 H2.
  assert (Hall : Forall (fun p => loader_outcome st this (fst p) = Ok (Fulfilled p)) res).
  { clear -Hb. induction Hb as [|l p ls ps [_ Hp] _ IH]; constructor; auto. }
  rewrite Forall_forall in Hall.
  pose proof (Hall _ H1) as E1. pose proof (Hall _ H2) as E2.
  cbn in E1, E2. congruence.
Qed.

Lemma load_fulfilled_true fuel this newLocale W W' :
  load fuel this newLocale W = (Ok (Fulfilled true), W') ->
  exists requested tasks res W1,
    load_begin fuel this newLocale W = (Ok (InFlight requested tasks), W1)
    /\ Promise_all tasks = Fulfilled res
    /\ load_then this requested res W1 = (Ok tt, W').
Proof.
  unfold load. rewrite bind_eq.
  destruct (load_begin fuel this newLocale W) as [[[requested tasks|e]|e|] W1];
    try discriminate.
  cbn. destruct (Promise_all tasks) as [res|] eqn:Hall; [|discriminate].
  rewrite bind_eq. unfold catch.
  destruct (load_then this requested res W1) as [[[]|e|] W2] eqn:Hthen;
    try discriminate.
  intros [= <-]. exists requested, tasks, res, W1. auto.
Qed.

(** C9: the Asset Table after a [load] that resolved [true].  With [res]
    the pairs that the loaders of the batch fulfilled with: under the clean
    policy the table's keys are exactly the batch's, and a locale outside
    the batch has no entry; under the accumulate policy the keys are the
    old ones and the batch's, and a locale outside the batch keeps the
    bundle it had.  Under both, a locale of the batch other than the
    requested one has the bundle the batch loaded for it, and the
    requested locale has the bundle the batch loaded for it after the
    initializers ran on it. *)
Theorem load_commit_lifecycle fuel this newLocale W b table inits W' :
  store W !! this = Some (CBox b) ->
  store W !! _assets b = Some (CAssets table) ->
  store W !! _bundleInitializers b = Some (CInits inits) ->
  load fuel this newLocale W = (Ok (Fulfilled true), W') ->
  exists requested tasks res table' W1,
    load_begin fuel this newLocale W = (Ok (InFlight requested tasks), W1)
    /\ Promise_all tasks = Fulfilled res
    /\ store W' !! _assets b = Some (CAssets table')
    /\ (_clean b = true ->
        dom table' = list_to_set res.*1
        /\ forall Y, Y ∉ res.*1 -> table' !! Y = None)
    /\ (_clean b = false ->
        dom table' = dom table ∪ list_to_set res.*1
        /\ forall Y, Y ∉ res.*1 -> table' !! Y = table !! Y)
    /\ (forall k bundle, (k, bundle) ∈ res -> k <> loc_tag requested ->
          table' !! k = Some bundle)
    /\ (exists bundle, (loc_tag requested, bundle) ∈ res
          /\ table' !! loc_tag requested
             = Some (initialized inits requested bundle)).
Proof.
  intros Hb Ha Hi Hload.
  destruct (load_fulfilled_true _ _ _ _ _ Hload)
    as (requested & tasks & res & W1 & Hbegin & Hall & Hthen).
  pose proof (same_store_load_begin fuel this newLocale W) as [Hs _].
  rewrite Hbegin in Hs. cbn in Hs.
  rewrite <- Hs in Hb, Ha, Hi.
  destruct (load_then_spec W1 this b table inits requested res Hb Ha Hi)
    as (W2 & Hspec & Htable & _).
  rewrite Hthen in Hspec. injection Hspec as Hri <-.
  set (t0 := commit_table (_clean b) table res) in *.
  destruct (run_initializers inits requested t0) as [r table'] eqn:Hrun.
  cbn in Hri, Htable. subst r.
  apply run_initializers_ok in Hrun as [Hother Htag].
  destruct (load_begin_inflight _ _ _ _ _ _ _ Hbegin)
    as (b0 & others & W0 & _ & _ & _ & Hbatch & _).
  apply Promise_all_fulfilled in Hall. subst tasks.
  assert (Hfun : forall k bu bu', (k, bu) ∈ res -> (k, bu') ∈ res -> bu' = bu).
  { intros k bu bu'. eapply batch_functional; eauto. }
  assert (Hhead : exists bundle rest, res = (loc_tag requested, bundle) :: rest).
  { apply batch_entries in Hbatch. inversion Hbatch as [|l p ls ps [Hk _] _]; subst.
    destruct p as [k bundle]. cbn in Hk. subst k. eauto. }
  destruct Hhead as (bundle0 & rest & Hres).
  assert (Hin0 : (loc_tag requested, bundle0) ∈ res) by (rewrite Hres; left).
  assert (Ht0 : t0 !! loc_tag requested = Some bundle0).
  { apply commit_table_entry; [|exact Hin0].
    intros bu' H. eapply Hfun; eauto. }
  assert (Hkey0 : loc_tag requested ∈ res.*1).
  { rewrite Hres. cbn. left. }
  assert (Hlook : forall k, is_Some (table' !! k) <-> is_Some (t0 !! k)).
  { intros k. destruct (decide (k = loc_tag requested)) as [->|Hne].
    - rewrite Htag, Ht0. cbn. split; eauto.
    - now rewrite Hother. }
  assert (Hdom : dom table' = dom t0).
  { apply set_eq. intros k. rewrite !elem_of_dom. apply Hlook. }
  assert (Hout : forall Y, Y ∉ res.*1 ->
                   table' !! Y = (if _clean b then ∅ else table) !! Y).
  { intros Y HY. rewrite Hother.
    - now apply commit_table_outside.
    - intros ->. contradiction. }
  exists requested, (Fulfilled <$> res), res, table', W1.
  split; [exact Hbegin|]. split; [now apply Promise_all_fulfilled|].
  split; [exact Htable|]. split; [|split; [|split]].
  - intros Hclean. split.
    + rewrite Hdom. unfold t0. rewrite commit_table_dom, Hclean.
      now rewrite dom_empty_L, union_empty_l_L.
    + intros Y HY. rewrite (Hout Y HY), Hclean. apply lookup_empty.
  - intros Hclean. split.
    + rewrite Hdom. unfold t0. now rewrite commit_table_dom, Hclean.
    + intros Y HY. now rewrite (Hout Y HY), Hclean.
  - intros k bundle Hin Hne. rewrite Hother by exact Hne.
    apply commit_table_entry; [|exact Hin].
    intros bu' H. eapply Hfun; eauto.
  - exists bundle0. split; [exact Hin0|]. now rewrite Htag, Ht0.
Qed.

(** ** Clones *)

#[local] Instance keeps_object_refl self : Reflexive (keeps_object self).
Proof. intros W b Hb. exact Hb. Qed.

#[local] Instance keeps_object_trans self : Transitive (keeps_object self).
Proof. intros W1 W2 W3 H12 H23 b Hb. auto. Qed.

Lemma keeps_object_assets_set self a k v :
  preserves (keeps_object self) (assets_set a k v).
Proof.
  intros W. unfold assets_set. rewrite bind_eq.
  destruct (read_assets a W) as [x W1] eqn:Hr.
  apply read_assets_inv in Hr as [-> [(m & -> & Hm)|[-> _]]]; [|reflexivity].
  intros b Hb. cbn. rewrite lookup_insert_ne; [exact Hb|].
  intros ->. congruence.
Qed.

Lemma load_then_sets_current self newLocale res W W' :
  load_then self newLocale res W = (Ok tt, W') ->
  exists b, store W' !! self = Some (CBox (with_currentLocale (Some newLocale) b)).
Proof.
  unfold load_then. rewrite bind_eq.
  destruct (read_box self W) as [[b|e|] W0]; try discriminate.
  rewrite bind_eq.
  destruct ((if _clean b then assets_clear (_assets b) else ret tt) W0)
    as [[[]|e|] W1]; try discriminate.
  rewrite bind_eq.
  destruct (for_of res _ W1) as [[[]|e|] W2]; try discriminate.
  rewrite bind_eq. unfold set_field at 1. rewrite bind_eq.
  destruct (read_box self W2) as [[b2|e|] W2'] eqn:Hr; try discriminate.
  apply read_box_inv in Hr as [-> _]. cbn [write].
  set (W3 := set_store _ W2).
  assert (H3 : store W3 !! self
               = Some (CBox (with_currentLocale (Some newLocale) b2)))
    by apply lookup_insert_eq.
  match goal with
  | |- ?k W3 = _ -> _ =>
      assert (Hk : preserves (keeps_object self) k)
  end.
  { pres preserves_bind.
    { pres preserves_readonly. auto with readonly. }
    intros inits. pres preserves_for_of. intros bundleInit.
    pres preserves_bind.
    { pres preserves_readonly. auto with readonly. }
    intros assets. destruct (assets !! loc_tag newLocale) as [bundle|].
    - destruct (bundleInit newLocale bundle).
      + apply keeps_object_assets_set.
      + pres preserves_bind; [apply keeps_object_assets_set|].
        intros _. pres preserves_throw.
    - pres preserves_throw. }
  intros Hrun. specialize (Hk W3 _ H3). rewrite Hrun in Hk. eauto.
Qed.

Lemma same_config_refl b : same_config b b.
Proof. reflexivity. Qed.

Lemma same_config_current cur b : same_config b (with_currentLocale cur b).
Proof. reflexivity. Qed.

Lemma same_config_assets b1 b2 : same_config b1 b2 -> _assets b1 = _assets b2.
Proof. intros H. apply (f_equal _assets) in H. exact H. Qed.

Lemma aliases_sym W h1 h2 : aliases W h1 h2 -> aliases W h2 h1.
Proof.
  intros (Hne & b1 & b2 & H1 & H2 & Hc). split; [auto|].
  exists b2, b1. unfold same_config in *. auto.
Qed.

Lemma currentLocale_ok W this b :
  store W !! this = Some (CBox b) ->
  currentLocale this W = (Ok (_currentLocale b), W).
Proof.
  intros Hb. unfold currentLocale.
  now rewrite (bind_ok _ _ _ _ _ (read_box_ok _ _ _ Hb)).
Qed.

Lemma clone_spec W this b :
  store W !! this = Some (CBox b) ->
  this < next_ref W ->
  exists r W',
    clone this W = (Ok r, W')
    /\ r <> this
    /\ store W' !! this = Some (CBox b)
    /\ store W' !! r = Some (CBox b).
Proof.
  intros Hb Hlt. unfold clone, FluentBox_fields, alloc, bind. cbn.
  erewrite (read_box_ok _ this b);
    [|cbn [store]; rewrite !lookup_insert_ne by lia; exact Hb].
  eexists _, _. split; [reflexivity|]. split; [lia|].
  unfold set_store. cbn [store]. split.
  - rewrite !lookup_insert_ne by lia. exact Hb.
  - rewrite lookup_insert_eq. destruct b; reflexivity.
Qed.

Lemma load_through_alias W this other fuel newLocale :
  aliases W this other ->
  let W' := snd (load fuel this newLocale W) in
  aliases W' this other
  /\ fst (read_table other W') = fst (read_table this W')
  /\ fst (currentLocale other W') = fst (currentLocale other W).
Proof.
  intros (Hne & b1 & b2 & H1 & H2 & Hc) W'.
  pose proof (frame_load fuel this newLocale W b1 H1) as Hf. fold W' in Hf.
  destruct (frame_object _ _ _ _ _ Hf H1) as [cur H1'].
  assert (H2' : store W' !! other = Some (CBox b2)).
  { destruct Hf as [_ Hf]. specialize (Hf other). rewrite H2 in Hf.
    destruct Hf as [->|[(-> & _)|(_ & m & m' & [=] & _)]];
      [reflexivity | contradiction]. }
  split; [|split].
  - split; [exact Hne|]. exists (with_currentLocale cur b1), b2.
    split; [exact H1'|]. split; [exact H2'|]. exact Hc.
  - unfold read_table, read_box, read_assets, bind, read.
    rewrite H1', H2'. cbn.
    change (_assets (with_currentLocale cur b1)) with (_assets b1).
    now rewrite (same_config_assets _ _ Hc).
  - rewrite (currentLocale_ok _ _ _ H2'), (currentLocale_ok _ _ _ H2).
    reflexivity.
Qed.

Lemma load_true_sets_current fuel this newLocale W W' :
  load fuel this newLocale W = (Ok (Fulfilled true), W') ->
  exists b requested,
    store W !! this = Some (CBox b)
    /\ match newLocale with Some x => Some x | None => _defaultLocale b end
       = Some requested
    /\ fst (currentLocale this W') = Ok (Some requested).
Proof.
  intros Hload.
  destruct (load_fulfilled_true _ _ _ _ _ Hload)
    as (requested & tasks & res & W1 & Hbegin & _ & Hthen).
  destruct (load_begin_inflight _ _ _ _ _ _ _ Hbegin)
    as (b & _ & _ & Hb & Hreq & _).
  destruct (load_then_sets_current _ _ _ _ _ Hthen) as [b' Hb'].
  exists b, requested. split; [exact Hb|]. split; [exact Hreq|].
  now rewrite (currentLocale_ok _ _ _ Hb').
Qed.

(** C2, as the code has it.  [clone] makes a second object whose fields are
    those of the first, so the two share one Asset Table (and locale set,
    fallback graph, path components, files and initializers) while each has
    a [_currentLocale] of its own, the clone's starting at the original's.
    From then on, a [load] through either handle keeps the two aliased, the
    Asset Table read through one is the one read through the other, a
    [load] that resolved [true] has set the current locale of the handle it
    went through to the requested locale, and it has left the current
    locale of the other handle as it was. *)
Theorem clone_shares_table_keeps_own_current :
  (forall W this b,
     store W !! this = Some (CBox b) -> this < next_ref W ->
     exists r W',
       clone this W = (Ok r, W')
       /\ aliases W' this r
       /\ fst (currentLocale r W') = Ok (_currentLocale b)
       /\ fst (currentLocale this W') = Ok (_currentLocale b))
  /\ (forall W h1 h2 this other fuel newLocale,
        aliases W h1 h2 ->
        (this = h1 /\ other = h2) \/ (this = h2 /\ other = h1) ->
        aliases (snd (load fuel this newLocale W)) h1 h2
        /\ fst (read_table other (snd (load fuel this newLocale W)))
           = fst (read_table this (snd (load fuel this newLocale W)))
        /\ fst (currentLocale other (snd (load fuel this newLocale W)))
           = fst (currentLocale other W)
        /\ (fst (load fuel this newLocale W) = Ok (Fulfilled true) ->
            exists b requested,
              store W !! this = Some (CBox b)
              /\ match newLocale with
                 | Some x => Some x
                 | None => _defaultLocale b
                 end = Some requested
              /\ fst (currentLocale this (snd (load fuel this newLocale W)))
                 = Ok (Some requested))).
Proof.
  split.
  - intros W this b Hb Hlt.
    destruct (clone_spec W this b Hb Hlt) as (r & W' & Hclone & Hne & H1 & H2).
    exists r, W'. split; [exact Hclone|]. split; [|split].
    + split; [auto|]. exists b, b. auto using same_config_refl.
    + now rewrite (currentLocale_ok _ _ _ H2).
    + now rewrite (currentLocale_ok _ _ _ H1).
  - intros W h1 h2 this other fuel newLocale Hal Hwho.
    assert (Hal' : aliases W this other).
    { destruct Hwho as [[-> ->]|[-> ->]]; [exact Hal | now apply aliases_sym]. }
    destruct (load_through_alias W this other fuel newLocale Hal')
      as (Hal2 & Htab & Hcur).
    split; [|split; [|split]].
    + destruct Hwho as [[-> ->]|[-> ->]]; [exact Hal2 | now apply aliases_sym].
    + exact Htab.
    + exact Hcur.
    + intros Hres. apply (load_true_sets_current fuel).
      destruct (load fuel this newLocale W) as [x Wx]. cbn in *. now subst x.
Qed.


(** ** The constructor, in full *)

Lemma bind_throw {A B} (m : M A) (k : A -> M B) W e :
  fst (m W) = Throw e -> fst (bind m k W) = Throw e.
Proof.
  intros H. rewrite bind_eq. destruct (m W) as [[a|e'|] W1]; cbn in *;
    congruence.
Qed.

Lemma find_app_first {A} (f : A -> bool) l1 l2 :
  find f (l1 ++ l2)
  = match find f l1 with Some x => Some x | None => find f l2 end.
Proof.
  induction l1 as [|x l1 IH]; cbn; [reflexivity|].
  destruct (f x); [reflexivity | exact IH].
Qed.

Lemma parseLocaleOrThrow_run u W :
  match canonical u with
  | Some c =>
      _parseLocaleOrThrow (inl u) W
      = (Ok (mkLocale (next_oid W) c),
         mkWorld (store W) (next_ref W) (S (next_oid W)) (fetch_log W))
  | None => _parseLocaleOrThrow (inl u) W = (Throw (MalformedLocale u), W)
  end.
Proof.
  unfold _parseLocaleOrThrow, catch, new_Locale. rewrite bind_eq.
  destruct (canonical u); reflexivity.
Qed.

#[local] Instance only_at_refl r : Reflexive (only_at r).
Proof. intros W. split; [reflexivity | auto]. Qed.

#[local] Instance only_at_trans r : Transitive (only_at r).
Proof.
  intros W1 W2 W3 [Hn12 H12] [Hn23 H23]. split; [congruence|].
  intros r' Hr. rewrite H23, H12; auto.
Qed.

(** The loop over [options.locales], whatever the spellings. *)
Lemma ctor_locales_run pcs ls (declared : list string) :
  pcs <> ls ->
  forall unparsed W m s,
    store W !! pcs = Some (CPathMap m) ->
    store W !! ls = Some (CLocaleSet s) ->
    dom m = s ->
    (forall c u, m !! c = Some u -> canonical u = Some c /\ u ∈ declared) ->
    (forall u, u ∈ unparsed -> u ∈ declared) ->
    match find malformed unparsed with
    | Some u =>
        fst (for_of unparsed (fun unparsedLocale =>
               let* parsedLocale := _parseLocaleOrThrow (inl unparsedLocale) in
               let* _ := pathmap_set pcs (loc_tag parsedLocale) unparsedLocale in
               localeset_add ls (loc_tag parsedLocale)) W)
        = Throw (MalformedLocale u)
    | None =>
        exists W' m',
          for_of unparsed (fun unparsedLocale =>
            let* parsedLocale := _parseLocaleOrThrow (inl unparsedLocale) in
            let* _ := pathmap_set pcs (loc_tag parsedLocale) unparsedLocale in
            localeset_add ls (loc_tag parsedLocale)) W = (Ok tt, W')
          /\ store W' !! ls = Some (CLocaleSet (canonical_forms unparsed ∪ s))
          /\ store W' !! pcs = Some (CPathMap m')
          /\ dom m' = canonical_forms unparsed ∪ s
          /\ (forall c u, m' !! c = Some u ->
                canonical u = Some c /\ u ∈ declared)
          /\ next_ref W' = next_ref W
          /\ (forall r, r <> pcs -> r <> ls -> store W' !! r = store W !! r)
    end.
Proof.
  intros Hne unparsed.
  induction unparsed as [|u rest IH]; intros W m s Hp Hl Hdom Hinv Hdecl;
    cbn [find for_of].
  - exists W, m. split; [reflexivity|].
    assert (Hs : canonical_forms [] ∪ s = s).
    { unfold canonical_forms. cbn. apply union_empty_l_L. }
    rewrite Hs. auto 10.
  - unfold malformed at 1.
    pose proof (parseLocaleOrThrow_run u W) as Hparse.
    destruct (canonical u) as [c|] eqn:Hc.
    2:{ apply bind_throw. cbv beta. apply bind_throw. now rewrite Hparse. }
    set (W1 := mkWorld (store W) (next_ref W) (S (next_oid W)) (fetch_log W))
      in *.
    set (W2 := set_store (insert pcs (CPathMap (<[c := u]> m))) W1).
    set (W3 := set_store (insert ls (CLocaleSet ({[c]} ∪ s))) W2).
    assert (Hstep :
      (let* parsedLocale := _parseLocaleOrThrow (inl u) in
       let* _ := pathmap_set pcs (loc_tag parsedLocale) u in
       localeset_add ls (loc_tag parsedLocale)) W = (Ok tt, W3)).
    { rewrite (bind_ok _ _ _ _ _ Hparse). cbn [loc_tag].
      unfold pathmap_set.
      rewrite (bind_ok _ _ _ _ _ (bind_ok _ _ _ _ _
                 (read_pathmap_ok W1 pcs m Hp))).
      cbn [write]. fold W2. unfold localeset_add.
      assert (Hl2 : store W2 !! ls = Some (CLocaleSet s)).
      { unfold W2, set_store. cbn. now rewrite lookup_insert_ne. }
      rewrite (bind_ok _ _ _ _ _ (read_localeset_ok W2 ls s Hl2)).
      reflexivity. }
    assert (Hp3 : store W3 !! pcs = Some (CPathMap (<[c := u]> m))).
    { unfold W3, W2, set_store. cbn. rewrite lookup_insert_ne by auto.
      apply lookup_insert_eq. }
    assert (Hl3 : store W3 !! ls = Some (CLocaleSet ({[c]} ∪ s)))
      by apply lookup_insert_eq.
    assert (Hdom3 : dom (<[c := u]> m) = {[c]} ∪ s).
    { rewrite dom_insert_L. now rewrite Hdom. }
    assert (Hinv3 : forall c' u', <[c := u]> m !! c' = Some u' ->
                      canonical u' = Some c' /\ u' ∈ declared).
    { intros c' u'. rewrite lookup_insert.
      destruct (decide (c = c')) as [->|Hcc].
      - intros [= <-]. split; [exact Hc|]. apply Hdecl. left.
      - apply Hinv. }
    assert (Hdecl3 : forall x, x ∈ rest -> x ∈ declared).
    { intros x Hx. apply Hdecl. now right. }
    specialize (IH W3 _ _ Hp3 Hl3 Hdom3 Hinv3 Hdecl3).
    assert (Hcf : canonical_forms (u :: rest) ∪ s
                  = canonical_forms rest ∪ ({[c]} ∪ s)).
    { unfold canonical_forms. cbn. rewrite Hc. cbn.
      apply set_eq. intros x. set_unfold. tauto. }
    destruct (find malformed rest) as [bad|].
    + rewrite bind_eq, Hstep. exact IH.
    + destruct IH as (W' & m' & Hrun & Hset & Hpcs & Hdom' & Hinv' & Hn & Hother).
      exists W', m'. rewrite bind_eq, Hstep. split; [exact Hrun|].
      rewrite Hcf. split; [exact Hset|]. split; [exact Hpcs|].
      split; [exact Hdom'|]. split; [exact Hinv'|]. split; [exact Hn|].
      intros r Hr1 Hr2. rewrite (Hother r Hr1 Hr2).
      unfold W3, W2, set_store. cbn. now rewrite !lookup_insert_ne.
Qed.

(** The [map] over one fallback array. *)
Lemma ctor_array_run arr :
  forall W,
    match find malformed arr with
    | Some a =>
        fst (array_map (fun a => let* l := _parseLocaleOrThrow (inl a) in
                                 ret (loc_tag l)) arr W)
        = Throw (MalformedLocale a)
    | None =>
        exists W' list,
          array_map (fun a => let* l := _parseLocaleOrThrow (inl a) in
                              ret (loc_tag l)) arr W = (Ok list, W')
          /\ Forall2 (fun a c => canonical a = Some c) arr list
          /\ store W' = store W /\ next_ref W' = next_ref W
    end.
Proof.
  induction arr as [|a rest IH]; intros W; cbn [find array_map].
  - exists W, []. split; [reflexivity|]. split; [constructor | auto].
  - unfold malformed at 1.
    pose proof (parseLocaleOrThrow_run a W) as Hparse.
    destruct (canonical a) as [c|] eqn:Hc.
    2:{ apply bind_throw, bind_throw. now rewrite Hparse. }
    set (W1 := mkWorld (store W) (next_ref W) (S (next_oid W)) (fetch_log W))
      in *.
    assert (Hstep : (let* l := _parseLocaleOrThrow (inl a) in ret (loc_tag l)) W
                    = (Ok c, W1)).
    { now rewrite (bind_ok _ _ _ _ _ Hparse). }
    specialize (IH W1). rewrite bind_eq, Hstep.
    destruct (find malformed rest) as [bad|].
    + now apply bind_throw.
    + destruct IH as (W' & list & Hrun & Hall & Hs & Hn).
      exists W', (c :: list). rewrite (bind_ok _ _ _ _ _ Hrun).
      split; [reflexivity|]. split; [now constructor | auto].
Qed.

(** The loop over [options.fallbacks], whatever the spellings. *)
Lemma ctor_fallbacks_run fbs (declared : list (string * list string)) :
  forall entries W m,
    store W !! fbs = Some (CFallbacks m) ->
    (forall k list, m !! k = Some list ->
       exists key arr,
         (key, arr) ∈ declared /\ canonical key = Some k
         /\ Forall2 (fun a c => canonical a = Some c) arr list) ->
    (forall e, e ∈ entries -> e ∈ declared) ->
    match find malformed (fallback_spellings entries) with
    | Some s =>
        fst (for_of entries (fun '(fallbackUnparsedLocale, fallbackArray) =>
               let* fallbackParsedLocale :=
                 _parseLocaleOrThrow (inl fallbackUnparsedLocale) in
               let* arr :=
                 array_map (fun a =>
                              let* l := _parseLocaleOrThrow (inl a) in
                              ret (loc_tag l))
                           fallbackArray in
               fallbacks_set fbs (loc_tag fallbackParsedLocale) arr) W)
        = Throw (MalformedLocale s)
    | None =>
        exists W' m',
          for_of entries (fun '(fallbackUnparsedLocale, fallbackArray) =>
            let* fallbackParsedLocale :=
              _parseLocaleOrThrow (inl fallbackUnparsedLocale) in
            let* arr :=
              array_map (fun a =>
                           let* l := _parseLocaleOrThrow (inl a) in
                           ret (loc_tag l))
                        fallbackArray in
            fallbacks_set fbs (loc_tag fallbackParsedLocale) arr) W
          = (Ok tt, W')
          /\ store W' !! fbs = Some (CFallbacks m')
          /\ dom m' = canonical_forms (fst <$> entries) ∪ dom m
          /\ (forall k list, m' !! k = Some list ->
                exists key arr,
                  (key, arr) ∈ declared /\ canonical key = Some k
                  /\ Forall2 (fun a c => canonical a = Some c) arr list)
          /\ only_at fbs W W'
    end.
Proof.
  induction entries as [|[key arr] rest IH]; intros W m Hf Hinv Hdecl.
  - cbn. exists W, m. split; [reflexivity|]. split; [exact Hf|].
    split; [|split; [exact Hinv | reflexivity]].
    unfold canonical_forms. cbn. now rewrite union_empty_l_L.
  - cbn [for_of fallback_spellings flat_map fst snd].
    change (flat_map (fun entry => fst entry :: snd entry) rest)
      with (fallback_spellings rest).
    rewrite <- app_comm_cons. cbn [find]. unfold malformed at 1.
    pose proof (parseLocaleOrThrow_run key W) as Hparse.
    destruct (canonical key) as [k|] eqn:Hk.
    2:{ apply bind_throw. apply bind_throw. now rewrite Hparse. }
    set (W1 := mkWorld (store W) (next_ref W) (S (next_oid W)) (fetch_log W))
      in *.
    rewrite find_app_first.
    pose proof (ctor_array_run arr W1) as Harr.
    destruct (find malformed arr) as [bad|].
    { apply bind_throw. rewrite (bind_ok _ _ _ _ _ Hparse).
      now apply bind_throw. }
    destruct Harr as (W2 & list & Hrun & Hall & Hs2 & Hn2).
    set (W3 := set_store (insert fbs (CFallbacks (<[k := list]> m))) W2).
    assert (Hstep :
      (let* fallbackParsedLocale := _parseLocaleOrThrow (inl key) in
       let* arr0 :=
         array_map (fun a => let* l := _parseLocaleOrThrow (inl a) in
                             ret (loc_tag l)) arr in
       fallbacks_set fbs (loc_tag fallbackParsedLocale) arr0) W = (Ok tt, W3)).
    { rewrite (bind_ok _ _ _ _ _ Hparse), (bind_ok _ _ _ _ _ Hrun).
      cbn [loc_tag]. unfold fallbacks_set.
      assert (Hf2 : store W2 !! fbs = Some (CFallbacks m)) by now rewrite Hs2.
      rewrite (bind_ok _ _ _ _ _ (read_fallbacks_ok W2 fbs m Hf2)).
      reflexivity. }
    assert (Hf3 : store W3 !! fbs = Some (CFallbacks (<[k := list]> m)))
      by apply lookup_insert_eq.
    assert (Hinv3 : forall k' list', <[k := list]> m !! k' = Some list' ->
              exists key' arr',
                (key', arr') ∈ declared /\ canonical key' = Some k'
                /\ Forall2 (fun a c => canonical a = Some c) arr' list').
    { intros k' list'. rewrite lookup_insert.
      destruct (decide (k = k')) as [->|Hkk].
      - intros [= <-]. exists key, arr. split; [apply Hdecl; left | auto].
      - apply Hinv. }
    assert (Hdecl3 : forall e, e ∈ rest -> e ∈ declared).
    { intros e He. apply Hdecl. now right. }
    assert (H03 : only_at fbs W W3).
    { split; [exact Hn2|]. intros r' Hr. unfold W3, set_store. cbn.
      rewrite lookup_insert_ne by auto. now rewrite Hs2. }
    specialize (IH W3 _ Hf3 Hinv3 Hdecl3).
    rewrite bind_eq, Hstep.
    destruct (find malformed (fallback_spellings rest)) as [bad|].
    + exact IH.
    + destruct IH as (W' & m' & Hrest & Hf' & Hdom' & Hinv' & Honly).
      exists W', m'. split; [exact Hrest|]. split; [exact Hf'|].
      split; [|split; [exact Hinv' | etransitivity; eassumption]].
      rewrite Hdom', dom_insert_L. unfold canonical_forms. cbn. rewrite Hk. cbn.
      apply set_eq. intros x. set_unfold. tauto.
Qed.

Lemma set_field_ok W this b f :
  store W !! this = Some (CBox b) ->
  set_field this f W = (Ok tt, set_store (insert this (CBox (f b))) W).
Proof.
  intros Hb. unfold set_field.
  now rewrite (bind_ok _ _ _ _ _ (read_box_ok _ _ _ Hb)).
Qed.

Lemma for_of_files_push W r l0 files :
  store W !! r = Some (CFiles l0) ->
  for_of files (files_push r) W
  = (Ok tt, set_store (insert r (CFiles (l0 ++ files))) W).
Proof.
  revert W l0. induction files as [|x rest IH]; intros W l0 Hr; cbn.
  - rewrite app_nil_r. now rewrite set_store_id.
  - unfold files_push at 1.
    rewrite (bind_ok _ _ _ _ _ (bind_ok _ _ _ _ _ (read_files_ok W r l0 Hr))).
    cbn [write]. rewrite (IH _ (l0 ++ [x])) by apply store_set_store_eq.
    rewrite set_store_twice, <- app_assoc. reflexivity.
Qed.

Lemma alloc_at W c r :
  next_ref W = r ->
  alloc c W
  = (Ok r, mkWorld (<[r := c]> (store W)) (S r) (next_oid W) (fetch_log W)).
Proof. intros <-. reflexivity. Qed.

Lemma FluentBox_fields_full W :
  let n := next_ref W in
  exists Wa,
    FluentBox_fields W = (Ok (6 + n), Wa)
    /\ store Wa !! (6 + n)
       = Some (CBox (mkFluentBox None n (1 + n) None (2 + n) (3 + n) ""
                       (4 + n) (5 + n) true http))
    /\ store Wa !! n = Some (CPathMap ∅)
    /\ store Wa !! (1 + n) = Some (CLocaleSet ∅)
    /\ store Wa !! (2 + n) = Some (CFallbacks ∅)
    /\ store Wa !! (3 + n) = Some (CAssets ∅)
    /\ store Wa !! (5 + n) = Some (CInits [])
    /\ next_ref Wa = 7 + n
    /\ (forall r, r < n -> store Wa !! r = store W !! r).
Proof.
  intros n. unfold FluentBox_fields, alloc, bind. cbn.
  eexists. split; [reflexivity|]. cbn. fold n.
  split; [apply lookup_insert_eq|].
  repeat (split; [rewrite !lookup_insert_ne by lia; apply lookup_insert_eq|]).
  split; [reflexivity|].
  intros r Hr. rewrite !lookup_insert_ne by lia. reflexivity.
Qed.

(** The constructor after its two loops: the default locale is parsed, then
    the remaining fields are assigned. *)
Lemma ctor_tail options this files0 b0 W :
  store W !! this = Some (CBox b0) ->
  this < next_ref W ->
  match canonical (opt_defaultLocale options) with
  | None =>
      fst ((let* defaultLocale :=
              _parseLocaleOrThrow (inl (opt_defaultLocale options)) in
            let* _ := set_field this (with_defaultLocale (Some defaultLocale)) in
            let* _ := set_field this (with_source (opt_source options)) in
            let* files := alloc (CFiles []) in
            let* _ := set_field this (with_files files) in
            let* _ := for_of (opt_files options) (files_push files) in
            let* _ := set_field this (with_clean (opt_clean options)) in
            let* _ := set_field this (with_method (opt_method options)) in
            ret this) W)
      = Throw (MalformedLocale (opt_defaultLocale options))
  | Some c =>
      files0 = next_ref W ->
      exists W',
        (let* defaultLocale :=
           _parseLocaleOrThrow (inl (opt_defaultLocale options)) in
         let* _ := set_field this (with_defaultLocale (Some defaultLocale)) in
         let* _ := set_field this (with_source (opt_source options)) in
         let* files := alloc (CFiles []) in
         let* _ := set_field this (with_files files) in
         let* _ := for_of (opt_files options) (files_push files) in
         let* _ := set_field this (with_clean (opt_clean options)) in
         let* _ := set_field this (with_method (opt_method options)) in
         ret this) W = (Ok this, W')
        /\ store W' !! this
           = Some (CBox (with_method (opt_method options)
                          (with_clean (opt_clean options)
                            (with_files files0
                              (with_source (opt_source options)
                                (with_defaultLocale
                                   (Some (mkLocale (next_oid W) c)) b0))))))
        /\ store W' !! files0 = Some (CFiles (opt_files options))
        /\ next_ref W' = S files0
        /\ (forall r, r <> this -> r <> files0 -> store W' !! r = store W !! r)
  end.
Proof.
  intros Hb Hlt.
  pose proof (parseLocaleOrThrow_run (opt_defaultLocale options) W) as Hparse.
  destruct (canonical (opt_defaultLocale options)) as [c|].
  2:{ apply bind_throw. now rewrite Hparse. }
  intros ->.
  set (d := mkLocale (next_oid W) c) in *.
  set (W1 := mkWorld (store W) (next_ref W) (S (next_oid W)) (fetch_log W)) in *.
  set (b1 := with_defaultLocale (Some d) b0).
  set (W2 := set_store (insert this (CBox b1)) W1).
  set (b2 := with_source (opt_source options) b1).
  set (W3 := set_store (insert this (CBox b2)) W2).
  set (W4 := mkWorld (<[next_ref W := CFiles []]> (store W3)) (S (next_ref W))
                     (next_oid W3) (fetch_log W3)).
  set (b3 := with_files (next_ref W) b2).
  set (W5 := set_store (insert this (CBox b3)) W4).
  set (W6 := set_store (insert (next_ref W) (CFiles ([] ++ opt_files options))) W5).
  set (b4 := with_clean (opt_clean options) b3).
  set (W7 := set_store (insert this (CBox b4)) W6).
  set (b5 := with_method (opt_method options) b4).
  set (W8 := set_store (insert this (CBox b5)) W7).
  assert (Hne : next_ref W <> this) by lia.
  exists W8.
  rewrite (bind_ok _ _ _ _ _ Hparse).
  rewrite (bind_ok _ _ _ _ _ (set_field_ok W1 this b0 _ Hb)). fold b1 W2.
  rewrite (bind_ok _ _ _ _ _ (set_field_ok W2 this b1 _
             (store_set_store_eq _ _ _))). fold b2 W3.
  rewrite (bind_ok _ _ _ _ _ (alloc_at W3 (CFiles []) (next_ref W) eq_refl)).
  fold W4.
  assert (Hb4 : store W4 !! this = Some (CBox b2)).
  { unfold W4. cbn [store]. rewrite lookup_insert_ne by exact Hne.
    apply store_set_store_eq. }
  rewrite (bind_ok _ _ _ _ _ (set_field_ok W4 this b2 _ Hb4)). fold b3 W5.
  assert (Hf5 : store W5 !! next_ref W = Some (CFiles [])).
  { unfold W5. rewrite store_set_store_ne by auto. unfold W4. cbn [store].
    apply lookup_insert_eq. }
  rewrite (bind_ok _ _ _ _ _ (for_of_files_push W5 _ [] _ Hf5)). fold W6.
  assert (Hb6 : store W6 !! this = Some (CBox b3)).
  { unfold W6. rewrite store_set_store_ne by exact Hne.
    apply store_set_store_eq. }
  rewrite (bind_ok _ _ _ _ _ (set_field_ok W6 this b3 _ Hb6)). fold b4 W7.
  rewrite (bind_ok _ _ _ _ _ (set_field_ok W7 this b4 _
             (store_set_store_eq _ _ _))). fold b5 W8.
  split; [reflexivity|]. split; [apply store_set_store_eq|].
  split; [|split; [reflexivity|]].
  - unfold W8, W7. rewrite !store_set_store_ne by auto.
    unfold W6. apply store_set_store_eq.
  - intros r Hr1 Hr2. unfold W8, W7, W6, W5.
    rewrite !store_set_store_ne by auto. unfold W4. cbn [store].
    rewrite lookup_insert_ne by auto. unfold W3, W2.
    rewrite !store_set_store_ne by auto. reflexivity.
Qed.

(** [new FluentBox(options)], in full: it throws for the first spelling
    that does not parse, in the order the constructor meets them, and
    otherwise builds the engine that [constructed] describes. *)
Lemma FluentBox_new_run options W :
  match first_malformed options with
  | Some s => fst (FluentBox_new options W) = Throw (MalformedLocale s)
  | None =>
      exists W',
        FluentBox_new options W = (Ok (6 + next_ref W), W')
        /\ constructed options (next_ref W) W W'
  end.
Proof.
  unfold first_malformed, option_spellings. rewrite !find_app_first.
  destruct (FluentBox_fields_full W)
    as (Wa & Hfields & Hbox & Hpcs & Hls & Hfbs & Has & Hin & Hna & Hold).
  set (n := next_ref W) in *.
  set (b0 := mkFluentBox None n (1 + n) None (2 + n) (3 + n) ""
               (4 + n) (5 + n) true http) in *.
  unfold FluentBox_new.
  rewrite (bind_ok _ _ _ _ _ Hfields).
  rewrite (bind_ok _ _ _ _ _ (read_box_ok _ _ _ Hbox)).
  cbn [_localeToPathComponents _locales _fallbacks b0].
  pose proof (ctor_locales_run n (1 + n) (opt_locales options) ltac:(lia)
                (opt_locales options) Wa ∅ ∅ Hpcs Hls dom_empty_L
                ltac:(intros c u; rewrite lookup_empty; discriminate)
                ltac:(auto)) as Hloc.
  destruct (find malformed (opt_locales options)) as [bad|].
  { now apply bind_throw. }
  destruct Hloc as (W2 & pcs & Hrun2 & Hls2 & Hpcs2 & Hdom2 & Hinv2 & Hn2 & Hoth2).
  rewrite (bind_ok _ _ _ _ _ Hrun2).
  assert (Hfbs2 : store W2 !! (2 + n) = Some (CFallbacks ∅)).
  { rewrite Hoth2 by lia. exact Hfbs. }
  pose proof (ctor_fallbacks_run (2 + n) (default [] (opt_fallbacks options))
                (default [] (opt_fallbacks options)) W2 ∅ Hfbs2
                ltac:(intros k l; rewrite lookup_empty; discriminate)
                ltac:(auto)) as Hfb.
  destruct (find malformed (fallback_spellings (default [] (opt_fallbacks options))))
    as [bad|].
  { now apply bind_throw. }
  destruct Hfb as (W3 & fbs & Hrun3 & Hfbs3 & Hdom3 & Hinv3 & Hn3 & Hoth3).
  rewrite (bind_ok _ _ _ _ _ Hrun3).
  assert (Hbox3 : store W3 !! (6 + n) = Some (CBox b0)).
  { rewrite Hoth3 by lia. rewrite Hoth2 by lia. exact Hbox. }
  assert (Hnext3 : next_ref W3 = 7 + n) by congruence.
  pose proof (ctor_tail options (6 + n) (7 + n) b0 W3 Hbox3 ltac:(lia)) as Htail.
  cbn [find]. unfold malformed.
  destruct (canonical (opt_defaultLocale options)) as [c|] eqn:Hc.
  2:{ exact Htail. }
  destruct (Htail (eq_sym Hnext3)) as (W' & Hrun & Hobj & Hfiles & Hnext & Hoth).
  exists W'. split; [exact Hrun|].
  assert (Hkeep : forall r, r <> 6 + n -> r <> 7 + n -> r <> 2 + n ->
                    store W' !! r = store W2 !! r).
  { intros r H1 H2 H3. rewrite Hoth by auto. now apply Hoth3. }
  constructor; fold n.
  - exists (mkLocale (next_oid W3) c). split; [exact Hobj | exact Hc].
  - rewrite Hkeep by lia. etransitivity; [exact Hls2|].
    f_equal. f_equal. apply union_empty_r_L.
  - exists pcs. rewrite Hkeep by lia. split; [exact Hpcs2|].
    split; [|exact Hinv2]. rewrite Hdom2. apply union_empty_r_L.
  - exists fbs. rewrite Hoth by lia. split; [exact Hfbs3|].
    split; [|exact Hinv3]. rewrite Hdom3, dom_empty_L. apply union_empty_r_L.
  - rewrite Hkeep by lia. etransitivity; [apply Hoth2; lia | exact Has].
  - rewrite Hkeep by lia. etransitivity; [apply Hoth2; lia | exact Hin].
  - exact Hfiles.
  - exact Hnext.
  - intros r Hr. rewrite Hkeep by lia.
    etransitivity; [apply Hoth2; lia | now apply Hold].
Qed.

(** ** Further properties: construction *)

Lemma FluentBox_new_constructed options W this W' :
  FluentBox_new options W = (Ok this, W') ->
  this = 6 + next_ref W /\ constructed options (next_ref W) W W'.
Proof.
  intros Hnew. pose proof (FluentBox_new_run options W) as Hrun.
  destruct (first_malformed options) as [s|].
  - rewrite Hnew in Hrun. discriminate.
  - destruct Hrun as (W2 & Hrun & Hc). rewrite Hnew in Hrun.
    injection Hrun as -> ->. auto.
Qed.

(** X1: the outcome of construction.  [new FluentBox(options)] throws
    "malformed locale" for the first spelling that [Intl.Locale] rejects,
    in the order the constructor meets them (the locales, then each
    fallback key followed by its array, then the default locale), and
    returns the new object exactly when every spelling parses. *)
Theorem constructor_outcome options W :
  fst (FluentBox_new options W)
  = match first_malformed options with
    | Some s => Throw (MalformedLocale s)
    | None => Ok (6 + next_ref W)
    end.
Proof.
  pose proof (FluentBox_new_run options W) as Hrun.
  destruct (first_malformed options) as [s|]; [exact Hrun|].
  destruct Hrun as (W' & -> & _). reflexivity.
Qed.

(** X2: what a constructed engine holds.  It has no current locale, an
    empty Asset Table and no initializer; its locale set is the set of
    canonical forms of the declared locales (duplicates collapse); its
    default locale is the parsed default; source, files, clean flag and
    method are the options'; and no object that existed before was
    touched. *)
Theorem constructor_establishes options W this W' :
  FluentBox_new options W = (Ok this, W') ->
  fst (currentLocale this W') = Ok None
  /\ fst (read_table this W') = Ok ∅
  /\ (exists cfg,
        fst (read_config this W') = Ok cfg
        /\ cfg_locales cfg = canonical_forms (opt_locales options)
        /\ (exists d, cfg_defaultLocale cfg = Some d
                      /\ canonical (opt_defaultLocale options) = Some (loc_tag d))
        /\ cfg_source cfg = opt_source options
        /\ cfg_files cfg = opt_files options
        /\ cfg_clean cfg = opt_clean options
        /\ cfg_method cfg = opt_method options
        /\ cfg_bundleInitializers cfg = [])
  /\ (forall r, r < next_ref W -> store W' !! r = store W !! r).
Proof.
  intros Hnew. destruct (FluentBox_new_constructed _ _ _ _ Hnew) as [-> Hc].
  destruct Hc as [(d & Hobj & Hd) Hls (pcs & Hpcs & _) (fbs & Hfbs & _)
                    Has Hin Hfiles _ Hold].
  split; [|split; [|split]].
  - now rewrite (currentLocale_ok _ _ _ Hobj).
  - unfold read_table. rewrite (bind_ok _ _ _ _ _ (read_box_ok _ _ _ Hobj)).
    cbn [_assets]. now rewrite (read_assets_ok _ _ _ Has).
  - eexists. split.
    + unfold read_config.
      rewrite (bind_ok _ _ _ _ _ (read_box_ok _ _ _ Hobj)).
      cbn [_locales _localeToPathComponents _fallbacks _files
           _bundleInitializers].
      rewrite (bind_ok _ _ _ _ _ (read_localeset_ok _ _ _ Hls)).
      rewrite (bind_ok _ _ _ _ _ (read_pathmap_ok _ _ _ Hpcs)).
      rewrite (bind_ok _ _ _ _ _ (read_fallbacks_ok _ _ _ Hfbs)).
      rewrite (bind_ok _ _ _ _ _ (read_files_ok _ _ _ Hfiles)).
      rewrite (bind_ok _ _ _ _ _ (read_inits_ok _ _ _ Hin)).
      reflexivity.
    + cbn. split; [reflexivity|]. split; [eauto|]. auto 10.
  - exact Hold.
Qed.

(** X3: path components.  Every supported locale of a constructed engine
    has a path component, which is one of the declared spellings and
    canonicalises to that locale; and the loader that [_loadSingleLocale]
    starts for such a locale is handed this spelling, with the source and
    the file list of the options. *)
Theorem constructor_path_components options W this W' :
  FluentBox_new options W = (Ok this, W') ->
  exists pcs,
    fst (bind (read_box this)
              (fun b => read_pathmap (_localeToPathComponents b)) W') = Ok pcs
    /\ dom pcs = canonical_forms (opt_locales options)
    /\ (forall c u, pcs !! c = Some u ->
          canonical u = Some c /\ u ∈ opt_locales options)
    /\ (forall l, loc_tag l ∈ canonical_forms (opt_locales options) ->
          exists u,
            pcs !! loc_tag l = Some u
            /\ fst (_loadSingleLocale this l W')
               = Ok (match
                       match opt_method options with
                       | fileSystem =>
                           fsloader (opt_source options) (Some u)
                                    (opt_files options) (loc_tag l)
                       | http =>
                           httpLoader (opt_source options) (Some u)
                                      (opt_files options) (loc_tag l)
                       end
                     with
                     | Some bundle => Fulfilled (loc_tag l, bundle)
                     | None => Rejected
                     end)).
Proof.
  intros Hnew. destruct (FluentBox_new_constructed _ _ _ _ Hnew) as [-> Hc].
  destruct Hc as [(d & Hobj & Hd) Hls (pcs & Hpcs & Hdom & Hinv) _
                    Has Hin Hfiles _ Hold].
  exists pcs. split; [|split; [exact Hdom | split; [exact Hinv|]]].
  - rewrite (bind_ok _ _ _ _ _ (read_box_ok _ _ _ Hobj)).
    cbn [_localeToPathComponents]. now rewrite (read_pathmap_ok _ _ _ Hpcs).
  - intros l Hl. rewrite <- Hdom in Hl. apply elem_of_dom in Hl as [u Hu].
    exists u. split; [exact Hu|].
    unfold _loadSingleLocale.
    rewrite (bind_ok _ _ _ _ _ (read_box_ok _ _ _ Hobj)).
    cbn [_localeToPathComponents _files _method _source].
    rewrite (bind_ok _ _ _ _ _ (read_pathmap_ok _ _ _ Hpcs)).
    rewrite (bind_ok _ _ _ _ _ (read_files_ok _ _ _ Hfiles)).
    rewrite Hu. unfold log_fetch, bind. cbn.
    destruct (opt_method options); reflexivity.
Qed.

(** X4: the fallback graph.  The keys of the graph of a constructed engine
    are the canonical forms of the declared keys, and every list stored is
    the element-wise canonical form of an array declared under a key with
    that canonical form. *)
Theorem constructor_fallback_graph options W this W' :
  FluentBox_new options W = (Ok this, W') ->
  exists fbs,
    fst (bind (read_box this) (fun b => read_fallbacks (_fallbacks b)) W')
    = Ok fbs
    /\ dom fbs = canonical_forms (fst <$> default [] (opt_fallbacks options))
    /\ (forall k list, fbs !! k = Some list ->
          exists key arr,
            (key, arr) ∈ default [] (opt_fallbacks options)
            /\ canonical key = Some k
            /\ Forall2 (fun a c => canonical a = Some c) arr list).
Proof.
  intros Hnew. destruct (FluentBox_new_constructed _ _ _ _ Hnew) as [-> Hc].
  destruct Hc as [(d & Hobj & Hd) _ _ (fbs & Hfbs & Hdom & Hinv) _ _ _ _ _].
  exists fbs. split; [|split; [exact Hdom | exact Hinv]].
  rewrite (bind_ok _ _ _ _ _ (read_box_ok _ _ _ Hobj)).
  cbn [_fallbacks]. now rewrite (read_fallbacks_ok _ _ _ Hfbs).
Qed.

(** X5: before any [load].  On a constructed engine, whatever the message
    and the recursion budget, [getMessage] answers [null] and leaves the
    sink alone, [hasMessage] answers [false], and the [fallbacks] and
    [localeAndFallbacks] accessors answer the empty array. *)
Theorem nothing_before_load options W this W' fuel id args errors :
  FluentBox_new options W = (Ok this, W') ->
  getMessage fuel this id args errors W' = (Ok (None, errors), W')
  /\ hasMessage fuel this id W' = (Ok false, W')
  /\ fallbacks fuel this W' = (Ok [], W')
  /\ localeAndFallbacks fuel this W' = (Ok [], W').
Proof.
  intros Hnew. destruct (FluentBox_new_constructed _ _ _ _ Hnew) as [-> Hc].
  destruct Hc as [(d & Hobj & Hd) _ _ _ _ _ _ _ _].
  unfold getMessage, hasMessage, fallbacks, localeAndFallbacks.
  rewrite !(bind_ok _ _ _ _ _ (read_box_ok _ _ _ Hobj)). cbn. auto.
Qed.

(** ** Further properties: when the cascade returns *)

Lemma ranked_lookup rank fbs locale :
  ranked rank fbs ->
  Forall (fun item => rank item < rank locale) (fallbacks_of fbs locale).
Proof.
  intros Hr. unfold fallbacks_of.
  destruct (fbs !! locale) as [list|] eqn:Hl; cbn; [|constructor].
  exact (Hr _ _ Hl).
Qed.

Lemma any_message_returns rec fallbacks W :
  Forall (fun fl => exists r, rec fl W = (Ok r, W)) fallbacks ->
  exists r, any_message rec fallbacks W = (Ok r, W).
Proof.
  induction 1 as [|fl rest Hfl _ IH]; cbn.
  - eauto.
  - destruct Hfl as (r & Hr). rewrite (bind_ok _ _ _ _ _ Hr).
    destruct r; [eauto | apply IH].
Qed.

(** The call for the default locale returns at once when the default
    locale's bundle defines the message or when it has no fallbacks. *)
Lemma default_call_returns W this b table fbs d id fuel :
  engine_at W this b table fbs ->
  _defaultLocale b = Some d ->
  is_Some (own_message table (loc_tag d) id)
  \/ fallbacks_of fbs (loc_tag d) = [] ->
  exists r,
    _hasMessageByLocale (S fuel) this id (loc_tag d) W = (Ok r, W)
    /\ (is_Some (own_message table (loc_tag d) id) -> r = true).
Proof.
  intros He Hd Hok.
  destruct (own_message table (loc_tag d) id) as [mv|] eqn:Hown.
  - rewrite (hasMessageByLocale_found _ _ _ _ _ _ _ _ _ He Hown). eauto.
  - destruct Hok as [[x Hx]|Hfb]; [discriminate|].
    exists false. split; [|intros [x Hx]; discriminate].
    apply (hasMessageByLocale_default_end _ _ b table fbs); auto.
    apply (default_differs_same _ d); auto.
Qed.

Lemma cascade_returns W this b table fbs d rank id :
  engine_at W this b table fbs ->
  _defaultLocale b = Some d ->
  ranked rank fbs ->
  is_Some (own_message table (loc_tag d) id)
  \/ fallbacks_of fbs (loc_tag d) = [] ->
  forall fuel locale,
    rank locale + 2 <= fuel ->
    exists r,
      _hasMessageByLocale fuel this id locale W = (Ok r, W)
      /\ (is_Some (own_message table (loc_tag d) id) ->
          default_differs b locale = true -> r = true).
Proof.
  intros He Hd Hrank Hok.
  induction fuel as [|fuel IH]; intros locale Hfuel; [lia|].
  destruct (own_message table locale id) as [mv|] eqn:Hown.
  { rewrite (hasMessageByLocale_found _ _ _ _ _ _ _ _ _ He Hown). eauto. }
  rewrite (hasMessageByLocale_miss _ _ _ _ _ _ _ _ He Hown).
  assert (Hloop : exists r,
    any_message (fun fl => _hasMessageByLocale fuel this id fl)
                (fallbacks_of fbs locale) W = (Ok r, W)).
  { apply any_message_returns.
    eapply Forall_impl; [apply (ranked_lookup rank fbs locale Hrank)|].
    cbn. intros fl Hfl.
    destruct (IH fl ltac:(lia)) as (r & Hr & _). eauto. }
  destruct Hloop as (r & ->).
  destruct r; [exists true; split; eauto|].
  destruct (default_differs b locale) eqn:Hdiff.
  - assert (Htag : default_tag b = loc_tag d) by (unfold default_tag; now rewrite Hd).
    rewrite Htag. destruct fuel as [|fuel]; [lia|].
    destruct (default_call_returns W this b table fbs d id fuel He Hd Hok)
      as (r & Hr & Hsome).
    exists r. split; [exact Hr | auto].
  - exists false. split; [reflexivity | discriminate].
Qed.

(** X6: the cascade ends, and reaches the default locale.  On a fallback
    graph without cycle (a rank decreases along its edges), with a default
    locale whose bundle defines the message or which has no fallbacks of
    its own, the two lookups end for every current locale once the
    recursion budget exceeds the rank of the current locale by two, and
    they leave the state as it is: [hasMessage] returns a boolean [found];
    [getMessage] ends with an outcome [r] that is a returned value or a
    thrown formatting error, [found] telling whether it is a string or
    such an error; with an error array [getMessage] returns; and when the
    default locale's bundle defines the message, [found] is [true] for a
    current locale that is not the default locale up to case. *)
Theorem cascade_returns_and_reaches_default
    W this b table fbs cur d rank id args errors fuel :
  engine_at W this b table fbs ->
  _currentLocale b = Some cur ->
  _defaultLocale b = Some d ->
  ranked rank fbs ->
  is_Some (own_message table (loc_tag d) id)
  \/ fallbacks_of fbs (loc_tag d) = [] ->
  rank (loc_tag cur) + 2 <= fuel ->
  exists found r,
    hasMessage fuel this id W = (Ok found, W)
    /\ getMessage fuel this id args errors W = (r, W)
    /\ has_of r = Ok found
    /\ (is_Some errors -> exists p, r = Ok p)
    /\ (is_Some (own_message table (loc_tag d) id) ->
        toLowerCase (loc_tag cur) <> toLowerCase (loc_tag d) ->
        found = true).
Proof.
  intros He Hcur Hd Hrank Hok Hfuel.
  destruct (cascade_returns W this b table fbs d rank id He Hd Hrank Hok
              fuel (loc_tag cur) Hfuel) as (found & Hhas & Hsome).
  pose proof (at_box _ _ _ _ _ He) as Hbox.
  rewrite <- (hasMessage_current _ _ _ _ _ _ Hbox Hcur) in Hhas.
  pose proof (agree_top fuel this id args errors W) as Hag.
  rewrite Hhas in Hag. cbn in Hag.
  exists found, (fst (getMessage fuel this id args errors W)).
  split; [exact Hhas|]. split; [|split; [|split]].
  - pose proof (readonly_getMessage fuel this id args errors W) as Hro.
    destruct (getMessage fuel this id args errors W) as [r W']. cbn in *.
    now subst W'.
  - now symmetry.
  - intros [l ->].
    pose proof (getMessage_collects fuel this id args l W) as Hcol.
    destruct (fst (getMessage fuel this id args (Some l) W)) as [p|e|];
      [eauto | | discriminate].
    destruct e; try discriminate. now destruct (Hcol e).
  - intros Hdef Hne. apply Hsome; [exact Hdef|].
    apply (default_differs_other _ _ _ Hd Hne).
Qed.

(** ** Further properties: when the cascade does not return *)

Lemma defined_nowhere table id :
  defined_somewhere table id = false ->
  forall locale, own_message table locale id = None.
Proof.
  intros Hnone locale. unfold own_message.
  destruct (table !! locale) as [bundle|] eqn:Hl; [|reflexivity].
  destruct (bundle_getMessage bundle id) as [value|] eqn:Hm; [|reflexivity].
  exfalso. apply not_true_iff_false in Hnone. apply Hnone.
  unfold defined_somewhere. apply existsb_exists.
  exists (locale, bundle). split.
  - apply list_elem_of_In, elem_of_map_to_list, Hl.
  - cbn. now rewrite Hm.
Qed.

Lemma any_message_absent rec fallbacks W :
  (forall fl, rec fl W = (Ok false, W) \/ fst (rec fl W) = OutOfFuel) ->
  any_message rec fallbacks W = (Ok false, W)
  \/ fst (any_message rec fallbacks W) = OutOfFuel.
Proof.
  intros Hrec. induction fallbacks as [|fl rest IH]; cbn.
  - now left.
  - unfold bind. destruct (Hrec fl) as [-> | Ho]; [exact IH|].
    right. destruct (rec fl W) as [[r|e|] W1]; cbn in Ho; try discriminate.
    reflexivity.
Qed.

Lemma any_message_stuck rec fallbacks W :
  (forall fl, rec fl W = (Ok false, W) \/ fst (rec fl W) = OutOfFuel) ->
  Exists (fun fl => fst (rec fl W) = OutOfFuel) fallbacks ->
  fst (any_message rec fallbacks W) = OutOfFuel.
Proof.
  intros Hrec. induction 1 as [fl rest Ho | fl rest _ IH]; cbn; unfold bind.
  - destruct (rec fl W) as [[r|e|] W1]; cbn in Ho; try discriminate.
    reflexivity.
  - destruct (Hrec fl) as [-> | Ho]; [exact IH|].
    destruct (rec fl W) as [[r|e|] W1]; cbn in Ho; try discriminate.
    reflexivity.
Qed.

Lemma hasMessageByLocale_absent W this b table fbs id :
  engine_at W this b table fbs ->
  (forall locale, own_message table locale id = None) ->
  forall fuel locale,
    _hasMessageByLocale fuel this id locale W = (Ok false, W)
    \/ fst (_hasMessageByLocale fuel this id locale W) = OutOfFuel.
Proof.
  intros He Habs. induction fuel as [|fuel IH]; intros locale.
  - now right.
  - rewrite (hasMessageByLocale_miss _ _ _ _ _ _ _ _ He (Habs locale)).
    destruct (any_message_absent
                (fun fl => _hasMessageByLocale fuel this id fl)
                (fallbacks_of fbs locale) W IH) as [-> | Ho].
    + destruct (default_differs b locale); [apply IH | now left].
    + right.
      destruct (any_message _ _ W) as [[[|]|e|] W1]; cbn in Ho;
        try discriminate.
      reflexivity.
Qed.

Lemma hasMessageByLocale_trapped W this b table fbs id trap :
  engine_at W this b table fbs ->
  (forall locale, own_message table locale id = None) ->
  trapped (cascade_next b fbs) trap ->
  forall fuel locale,
    locale ∈ trap ->
    fst (_hasMessageByLocale fuel this id locale W) = OutOfFuel.
Proof.
  intros He Habs Htrap. induction fuel as [|fuel IH]; intros locale Hin.
  - reflexivity.
  - rewrite (hasMessageByLocale_miss _ _ _ _ _ _ _ _ He (Habs locale)).
    pose proof (hasMessageByLocale_absent W this b table fbs id He Habs fuel)
      as Hrec.
    pose proof (Htrap locale Hin) as Hnext. unfold cascade_next in Hnext.
    apply Exists_app in Hnext as [Hfb | Hdef].
    + assert (Ho : fst (any_message
                          (fun fl => _hasMessageByLocale fuel this id fl)
                          (fallbacks_of fbs locale) W) = OutOfFuel).
      { apply any_message_stuck; [exact Hrec|].
        eapply Exists_impl; [exact Hfb|]. cbn. intros fl Hfl. now apply IH. }
      destruct (any_message _ _ W) as [[[|]|e|] W1]; cbn in Ho;
        try discriminate.
      reflexivity.
    + destruct (default_differs b locale); [|now apply Exists_nil in Hdef].
      apply Exists_cons in Hdef as [Hd | Hnil]; [|now apply Exists_nil in Hnil].
      destruct (any_message_absent
                  (fun fl => _hasMessageByLocale fuel this id fl)
                  (fallbacks_of fbs locale) W Hrec) as [-> | Ho].
      * now apply IH.
      * destruct (any_message _ _ W) as [[[|]|e|] W1]; cbn in Ho;
          try discriminate.
        reflexivity.
Qed.

Lemma lookup_trapped W this b table fbs cur id trap args errors fuel :
  engine_at W this b table fbs ->
  _currentLocale b = Some cur ->
  (forall locale, own_message table locale id = None) ->
  trapped (cascade_next b fbs) trap ->
  loc_tag cur ∈ trap ->
  fst (hasMessage fuel this id W) = OutOfFuel
  /\ fst (getMessage fuel this id args errors W) = OutOfFuel.
Proof.
  intros He Hcur Habs Htrap Hin.
  pose proof (at_box _ _ _ _ _ He) as Hbox.
  assert (Hhas : fst (hasMessage fuel this id W) = OutOfFuel).
  { rewrite (hasMessage_current _ _ _ _ _ _ Hbox Hcur).
    now apply (hasMessageByLocale_trapped W this b table fbs id trap). }
  split; [exact Hhas|].
  pose proof (agree_top fuel this id args errors W) as Hag.
  rewrite Hhas in Hag.
  destruct (fst (getMessage fuel this id args errors W)) as [p|e|];
    cbn in Hag; [discriminate | destruct e; discriminate | reflexivity].
Qed.

(** X7: a lookup that never returns.  The cascade goes from a locale to
    its fallbacks and then, unless the locale is the default locale up to
    case, to the default locale.  If the current locale lies in a set of
    locales each of which has such a successor in the set (a cycle of the
    fallback graph, or one closed by the step to the default locale), and
    no loaded bundle defines the message, then [hasMessage] and
    [getMessage] exhaust every recursion budget: the source recurses
    without end. *)
Theorem lookup_in_trap_never_returns
    W this b table fbs cur id trap args errors fuel :
  engine_at W this b table fbs ->
  _currentLocale b = Some cur ->
  defined_somewhere table id = false ->
  trapped (cascade_next b fbs) trap ->
  loc_tag cur ∈ trap ->
  fst (hasMessage fuel this id W) = OutOfFuel
  /\ fst (getMessage fuel this id args errors W) = OutOfFuel.
Proof.
  intros He Hcur Hnone Htrap Hin.
  apply (lookup_trapped W this b table fbs cur id trap); auto.
  now apply defined_nowhere.
Qed.

(** X8: a fallback of the default locale makes the cascade loop.  If the
    default locale has a fallback that is not the default locale up to
    case, and no loaded bundle defines the message, then a lookup from a
    current locale that is the default locale, or is not the default
    locale up to case, never returns, whatever the recursion budget: an
    acyclic fallback graph is not enough for the cascade to end. *)
Theorem default_with_fallback_never_returns
    W this b table fbs cur d c id args errors fuel :
  engine_at W this b table fbs ->
  _currentLocale b = Some cur ->
  _defaultLocale b = Some d ->
  c ∈ fallbacks_of fbs (loc_tag d) ->
  toLowerCase c <> toLowerCase (loc_tag d) ->
  loc_tag cur = loc_tag d
  \/ toLowerCase (loc_tag cur) <> toLowerCase (loc_tag d) ->
  defined_somewhere table id = false ->
  fst (hasMessage fuel this id W) = OutOfFuel
  /\ fst (getMessage fuel this id args errors W) = OutOfFuel.
Proof.
  intros He Hcur Hd Hc Hcd Hcurd Hnone.
  assert (Htag : default_tag b = loc_tag d)
    by (unfold default_tag; now rewrite Hd).
  assert (Hstep : forall l, toLowerCase l <> toLowerCase (loc_tag d) ->
            Exists (fun item => item ∈ ({[loc_tag d; c; loc_tag cur]} : gset string))
                   (cascade_next b fbs l)).
  { intros l Hl. unfold cascade_next. apply Exists_app. right.
    destruct (default_differs_other _ _ _ Hd Hl) as [-> _]. rewrite Htag.
    apply Exists_cons_hd. set_unfold; tauto. }
  apply (lookup_trapped W this b table fbs cur id
           {[loc_tag d; c; loc_tag cur]}); auto.
  - now apply defined_nowhere.
  - intros l Hl.
    assert (Hcases : l = loc_tag d \/ toLowerCase l <> toLowerCase (loc_tag d)).
    { set_unfold in Hl. destruct Hl as [[Hl | Hl] | Hl]; subst l; auto. }
    destruct Hcases as [-> | Hne]; [|now apply Hstep].
    unfold cascade_next. apply Exists_app. left.
    apply Exists_exists. exists c. split; [exact Hc | set_unfold; tauto].
  - set_unfold; tauto.
Qed.

(** ** Further properties: the enumerations of the fallback graph *)

Lemma same_store_enumerateFallbacks fuel this locale output :
  preserves same_store (_enumerateFallbacks fuel this locale output).
Proof.
  revert locale output.
  induction fuel as [|fuel IH]; intros locale output; cbn.
  - intros W. cbn. reflexivity.
  - pres preserves_bind.
    { pres preserves_readonly; auto with readonly. }
    intros b. pres preserves_bind.
    { pres preserves_readonly; auto with readonly. }
    intros fbs. destruct (fbs !! locale) as [list|].
    + pres preserves_foldM.
      intros acc item. pres preserves_bind.
      * apply same_store_new_Locale.
      * intros l. apply IH.
    + pres preserves_ret.
Qed.

(** The array that [_enumerateFallbacks] is given is only ever pushed
    to. *)
Lemma enumerateFallbacks_accumulates fuel this :
  forall locale output W,
    _enumerateFallbacks fuel this locale output W
    = (let (r, W') := _enumerateFallbacks fuel this locale [] W in
       (res_map (app output) r, W')).
Proof.
  induction fuel as [|fuel IH]; intros locale output W; cbn; [reflexivity|].
  rewrite !bind_eq. destruct (read_box this W) as [[b|e|] W1]; try reflexivity.
  rewrite !bind_eq.
  destruct (read_fallbacks (_fallbacks b) W1) as [[fbs|e|] W2]; try reflexivity.
  destruct (fbs !! locale) as [list|]; [|cbn; now rewrite app_nil_r].
  enough (Hgen : forall acc W2,
    foldM (fun output item =>
             let* l := new_Locale (inl item) in
             _enumerateFallbacks fuel this item (output ++ [l]))
          list (output ++ acc) W2
    = (let (r, W') :=
         foldM (fun output item =>
                  let* l := new_Locale (inl item) in
                  _enumerateFallbacks fuel this item (output ++ [l]))
               list acc W2 in
       (res_map (app output) r, W'))).
  { specialize (Hgen [] W2). now rewrite app_nil_r in Hgen. }
  clear W W1 W2.
  induction list as [|item rest IHl]; intros acc W2; cbn; [reflexivity|].
  rewrite !bind_eq.
  destruct (new_Locale (inl item) W2) as [[l|e|] W3]; try reflexivity.
  rewrite (IH item ((output ++ acc) ++ [l]) W3), (IH item (acc ++ [l]) W3).
  destruct (_enumerateFallbacks fuel this item [] W3) as [[out|e|] W4]; cbn;
    try reflexivity.
  replace (((output ++ acc) ++ [l]) ++ out) with (output ++ ((acc ++ [l]) ++ out))
    by now rewrite !app_assoc.
  apply IHl.
Qed.

(** X9: [localeAndFallbacks] is the current locale followed by what
    [fallbacks] returns: the same fallback objects, in the same order, with
    the same effect on the state; both are empty when no locale is
    loaded, and both fail alike. *)
Theorem localeAndFallbacks_is_current_then_fallbacks fuel this W :
  localeAndFallbacks fuel this W
  = (let (r, W') := fallbacks fuel this W in
     (match fst (currentLocale this W) with
      | Ok (Some cur) => res_map (cons cur) r
      | _ => r
      end, W')).
Proof.
  unfold localeAndFallbacks, fallbacks, currentLocale. rewrite !bind_eq.
  destruct (read_box this W) as [[b|e|] W1]; cbn; try reflexivity.
  destruct (_currentLocale b) as [cur|]; cbn; [|reflexivity].
  rewrite (enumerateFallbacks_accumulates fuel this (loc_tag cur) [cur] W1).
  destruct (_enumerateFallbacks fuel this (loc_tag cur) [] W1) as [[out|e|] W2];
    reflexivity.
Qed.

(** *** A cycle in the graph *)

Lemma graph_at_same_store W W' this b fbs :
  same_store W W' -> graph_at W this b fbs -> graph_at W' this b fbs.
Proof. intros [Hs _] [Hb Hf]. split; now rewrite Hs. Qed.

Lemma foldM_stuck {A B} (T : World -> Prop) (P : A -> Prop)
    (body : B -> A -> M B) list :
  (forall acc x W, T W -> T (snd (body acc x W))) ->
  (forall acc x W, T W -> P x -> no_value (fst (body acc x W))) ->
  Exists P list ->
  forall acc W, T W -> no_value (fst (foldM body list acc W)).
Proof.
  intros Hkeep Hstuck.
  induction list as [|x rest IH]; intros Hex acc W HT.
  - now apply Exists_nil in Hex.
  - cbn. rewrite bind_eq.
    pose proof (Hkeep acc x W HT) as HT1.
    apply Exists_cons in Hex as [Hx | Hrest].
    + pose proof (Hstuck acc x W HT Hx) as Hno.
      destruct (body acc x W) as [[acc'|e|] W1]; cbn in *; tauto.
    + destruct (body acc x W) as [[acc'|e|] W1]; cbn in *; auto.
Qed.

Ltac enumeration_stuck IH same_store_rec :=
  let Hb := fresh "Hb" in
  let Hf := fresh "Hf" in
  let Hnext := fresh "Hnext" in
  let Hl := fresh "Hl" in
  match goal with
  | Hg : graph_at ?W ?this ?b ?fbs, Htrap : trapped _ ?trap, Hin : ?locale ∈ ?trap
    |- _ =>
      pose proof Hg as [Hb Hf];
      rewrite (bind_ok _ _ _ _ _ (read_box_ok _ _ _ Hb));
      rewrite (bind_ok _ _ _ _ _ (read_fallbacks_ok _ _ _ Hf));
      pose proof (Htrap locale Hin) as Hnext; unfold fallbacks_of in Hnext;
      destruct (fbs !! locale) as [list|] eqn:Hl; cbn in Hnext;
      [|now apply Exists_nil in Hnext];
      apply (foldM_stuck (fun W => graph_at W this b fbs) (fun item => item ∈ trap));
      [ intros acc x W0 HT; rewrite bind_eq;
        let Hn := fresh "Hn" in
        pose proof (same_store_new_Locale (inl x) W0) as Hn;
        destruct (new_Locale (inl x) W0) as [[l|e|] W1]; cbn in Hn |- *;
        [ eapply graph_at_same_store; [apply same_store_rec|]
        | | ];
        (eapply graph_at_same_store; [exact Hn | exact HT])
      | intros acc x W0 HT Hx; rewrite bind_eq;
        let Hn := fresh "Hn" in
        pose proof (same_store_new_Locale (inl x) W0) as Hn;
        destruct (new_Locale (inl x) W0) as [[l|e|] W1]; cbn; auto;
        apply IH; [eapply graph_at_same_store; [exact Hn | exact HT] | exact Hx]
      | exact Hnext
      | exact Hg ]
  end.

Lemma enumerateFallbacksToSet_trapped this b fbs trap :
  trapped (fallbacks_of fbs) trap ->
  forall fuel locale output W,
    graph_at W this b fbs -> locale ∈ trap ->
    no_value (fst (_enumerateFallbacksToSet fuel this locale output W)).
Proof.
  intros Htrap. induction fuel as [|fuel IH]; intros locale output W Hg Hin;
    cbn [_enumerateFallbacksToSet]; [exact I|].
  enumeration_stuck IH same_store_enumerateFallbacksToSet.
Qed.

(** X10: [load] on a cyclic graph.  When the requested locale lies on a
    cycle of the fallback graph, the promise of [load] never resolves,
    neither with [true] nor with [false], whatever the recursion budget. *)
Theorem load_on_cycle_never_resolves W this b fbs requested trap fuel ok :
  graph_at W this b fbs ->
  trapped (fallbacks_of fbs) trap ->
  loc_tag requested ∈ trap ->
  fst (load fuel this (Some requested) W) <> Ok (Fulfilled ok).
Proof.
  intros Hg Htrap Hin. pose proof Hg as [Hb _].
  unfold load, load_begin.
  rewrite bind_eq, (bind_ok _ _ _ _ _ (read_box_ok _ _ _ Hb)), bind_eq.
  pose proof (readonly_supportsLocale this (inr requested) W) as Hro.
  destruct (supportsLocale this (inr requested) W) as [[supported|e|] W1];
    cbn in Hro; subst W1; try discriminate.
  destruct supported; cbn [negb]; [|discriminate].
  rewrite bind_eq. unfold catch. rewrite bind_eq.
  pose proof (enumerateFallbacksToSet_trapped this b fbs trap Htrap fuel
                (loc_tag requested) [requested] W Hg Hin) as Hno.
  destruct (_enumerateFallbacksToSet fuel this (loc_tag requested) [requested] W)
    as [[toLoad|e|] W1]; cbn in Hno; [tauto | |]; discriminate.
Qed.

(** *** A graph without cycle *)

Lemma foldM_returns {A B} (T : World -> Prop) (body : B -> A -> M B) list :
  Forall (fun x => forall acc W, T W ->
            exists acc' W', body acc x W = (Ok acc', W') /\ T W') list ->
  forall acc W, T W ->
    exists acc' W', foldM body list acc W = (Ok acc', W') /\ T W'.
Proof.
  induction 1 as [|x rest Hx _ IH]; intros acc W HT; cbn.
  - eauto.
  - destruct (Hx acc W HT) as (acc1 & W1 & Hbody & HT1).
    rewrite (bind_ok _ _ _ _ _ Hbody). apply IH, HT1.
Qed.

Lemma new_Locale_parsed item tag W :
  canonical item = Some tag ->
  exists l W', new_Locale (inl item) W = (Ok l, W') /\ same_store W W'.
Proof.
  intros Hc. unfold new_Locale. rewrite Hc. eexists _, _.
  split; [reflexivity | split; reflexivity].
Qed.

Lemma enumerateFallbacksToSet_returns this b fbs rank :
  ranked rank fbs -> parsable fbs ->
  forall fuel locale output W,
    graph_at W this b fbs -> rank locale < fuel ->
    exists out W',
      _enumerateFallbacksToSet fuel this locale output W = (Ok out, W')
      /\ graph_at W' this b fbs.
Proof.
  intros Hrank Hpars.
  induction fuel as [|fuel IH]; intros locale output W Hg Hfuel; [lia|].
  cbn [_enumerateFallbacksToSet]. pose proof Hg as [Hb Hf].
  rewrite (bind_ok _ _ _ _ _ (read_box_ok _ _ _ Hb)).
  rewrite (bind_ok _ _ _ _ _ (read_fallbacks_ok _ _ _ Hf)).
  destruct (fbs !! locale) as [list|] eqn:Hl; [|cbn; eauto].
  apply (foldM_returns (fun W => graph_at W this b fbs)); [|exact Hg].
  pose proof (Hrank _ _ Hl) as Hr. pose proof (Hpars _ _ Hl) as Hp. cbn in Hr, Hp.
  rewrite Forall_forall in Hr, Hp. apply Forall_forall.
  intros item Hitem acc W0 HT.
  destruct (Hp item Hitem) as [tag Htag].
  destruct (new_Locale_parsed item tag W0 Htag) as (l & W1 & Hnew & Hs).
  rewrite (bind_ok _ _ _ _ _ Hnew).
  apply IH; [eapply graph_at_same_store; eauto|].
  specialize (Hr item Hitem). lia.
Qed.

(** X11: the accessors on a graph without cycle.  When a rank decreases
    along every edge of the fallback graph and every listed identifier is
    accepted by [Intl.Locale], [fallbacks] returns an array [out] and
    [localeAndFallbacks] returns the current locale followed by [out], once
    the recursion budget exceeds the rank of the current locale; no cell of
    the store changes. *)
Theorem accessors_return_without_cycle W this b fbs cur rank fuel :
  graph_at W this b fbs ->
  _currentLocale b = Some cur ->
  ranked rank fbs ->
  parsable fbs ->
  rank (loc_tag cur) < fuel ->
  exists out W',
    fallbacks fuel this W = (Ok out, W')
    /\ localeAndFallbacks fuel this W = (Ok (cur :: out), W')
    /\ same_store W W'.
Proof.
  intros Hg Hcur Hrank Hpars Hfuel. pose proof Hg as [Hb _].
  destruct (enumerateFallbacksToSet_returns this b fbs rank Hrank Hpars fuel
              (loc_tag cur) [] W Hg Hfuel) as (out & W' & Hset & _).
  destruct (enumerateFallbacksToSet_is_enumerateFallbacks fuel this
              (loc_tag cur) [] W) as [Heq _]; [constructor|].
  rewrite Heq in Hset.
  exists out, W'. unfold fallbacks, localeAndFallbacks.
  rewrite !(bind_ok _ _ _ _ _ (read_box_ok _ _ _ Hb)), Hcur.
  rewrite (enumerateFallbacks_accumulates fuel this (loc_tag cur) [cur] W), Hset.
  split; [reflexivity|]. split; [reflexivity|].
  pose proof (same_store_enumerateFallbacks fuel this (loc_tag cur) [] W) as Hs.
  now rewrite Hset in Hs.
Qed.

(** ** Further properties: [load] *)

Lemma read_config_inv this W cfg :
  fst (read_config this W) = Ok cfg ->
  exists b,
    store W !! this = Some (CBox b)
    /\ store W !! _locales b = Some (CLocaleSet (cfg_locales cfg))
    /\ store W !! _localeToPathComponents b
       = Some (CPathMap (cfg_pathComponents cfg))
    /\ store W !! _fallbacks b = Some (CFallbacks (cfg_fallbacks cfg))
    /\ store W !! _files b = Some (CFiles (cfg_files cfg))
    /\ store W !! _bundleInitializers b
       = Some (CInits (cfg_bundleInitializers cfg))
    /\ _defaultLocale b = cfg_defaultLocale cfg.
Proof.
  unfold read_config, read_box, read_localeset, read_pathmap,
    read_fallbacks, read_files, read_inits, bind, read.
  destruct (store W !! this) as [[b| | | | | |]|] eqn:Hb; try discriminate. cbn.
  destruct (store W !! _locales b) as [[| |ls| | | |]|] eqn:H1; try discriminate.
  cbn.
  destruct (store W !! _localeToPathComponents b) as [[|pcs| | | | |]|] eqn:H2;
    try discriminate.
  cbn.
  destruct (store W !! _fallbacks b) as [[| | |fbs| | |]|] eqn:H3; try discriminate.
  cbn.
  destruct (store W !! _files b) as [[| | | | |files|]|] eqn:H4; try discriminate.
  cbn.
  destruct (store W !! _bundleInitializers b) as [[| | | | | |inits]|] eqn:H5;
    try discriminate.
  cbn. intros [= <-]. exists b. cbn. auto 10.
Qed.

Lemma read_table_inv this W table :
  fst (read_table this W) = Ok table ->
  exists b, store W !! this = Some (CBox b)
            /\ store W !! _assets b = Some (CAssets table).
Proof.
  unfold read_table, read_box, read_assets, bind, read.
  destruct (store W !! this) as [[b| | | | | |]|] eqn:Hb; try discriminate. cbn.
  destruct (store W !! _assets b) as [[| | | |m| |]|] eqn:H1; try discriminate.
  cbn. intros [= <-]. eauto.
Qed.

Lemma read_table_ok W this b table :
  store W !! this = Some (CBox b) ->
  store W !! _assets b = Some (CAssets table) ->
  read_table this W = (Ok table, W).
Proof.
  intros Hb Ha. unfold read_table.
  rewrite (bind_ok _ _ _ _ _ (read_box_ok _ _ _ Hb)).
  apply (read_assets_ok _ _ _ Ha).
Qed.

Lemma loadSingleLocale_returns W this b pcs files l :
  store W !! this = Some (CBox b) ->
  store W !! _localeToPathComponents b = Some (CPathMap pcs) ->
  store W !! _files b = Some (CFiles files) ->
  exists t W', _loadSingleLocale this l W = (Ok t, W') /\ same_store W W'.
Proof.
  intros Hb Hp Hf. unfold _loadSingleLocale.
  rewrite (bind_ok _ _ _ _ _ (read_box_ok _ _ _ Hb)).
  rewrite (bind_ok _ _ _ _ _ (read_pathmap_ok _ _ _ Hp)).
  rewrite (bind_ok _ _ _ _ _ (read_files_ok _ _ _ Hf)).
  eexists _, _. split; [reflexivity | split; reflexivity].
Qed.

Lemma loaders_return this b pcs files toLoad :
  forall W,
    store W !! this = Some (CBox b) ->
    store W !! _localeToPathComponents b = Some (CPathMap pcs) ->
    store W !! _files b = Some (CFiles files) ->
    exists tasks W',
      array_map (_loadSingleLocale this) toLoad W = (Ok tasks, W')
      /\ same_store W W'.
Proof.
  induction toLoad as [|l rest IH]; intros W Hb Hp Hf; cbn.
  - eexists _, _. split; [reflexivity | split; reflexivity].
  - destruct (loadSingleLocale_returns W this b pcs files l Hb Hp Hf)
      as (t & W1 & Hl & [Hs Hn]).
    rewrite (bind_ok _ _ _ _ _ Hl).
    destruct (IH W1) as (ts & W2 & Hr & [Hs2 Hn2]); try (rewrite Hs; assumption).
    rewrite (bind_ok _ _ _ _ _ Hr). eexists _, _.
    split; [reflexivity|]. split; congruence.
Qed.

Lemma run_initializers_ends inits newLocale table :
  fst (run_initializers inits newLocale table) <> OutOfFuel.
Proof.
  revert table. induction inits as [|bundleInit rest IH]; intros table; cbn.
  - discriminate.
  - destruct (table !! loc_tag newLocale) as [bundle|]; [|discriminate].
    destruct (bundleInit newLocale bundle); [apply IH | discriminate].
Qed.

Lemma run_initializers_outside inits newLocale table k :
  k <> loc_tag newLocale ->
  snd (run_initializers inits newLocale table) !! k = table !! k.
Proof.
  intros Hk. revert table.
  induction inits as [|bundleInit rest IH]; intros table; cbn; [reflexivity|].
  destruct (table !! loc_tag newLocale) as [bundle|]; [|reflexivity].
  destruct (bundleInit newLocale bundle); cbn.
  - rewrite IH. now apply lookup_insert_ne.
  - now apply lookup_insert_ne.
Qed.

(** X12: [load] on a graph without cycle.  With a configuration whose
    fallback graph has no cycle (a rank decreases along its edges) and
    lists only identifiers that [Intl.Locale] accepts, a [load] of a
    supported locale always settles by resolving, with [true] or with
    [false]: it does not throw, its promise is not rejected and the
    enumeration ends, once the recursion budget exceeds the rank of the
    requested locale. *)
Theorem load_resolves_without_cycle
    W this cfg table newLocale requested rank fuel :
  fst (read_config this W) = Ok cfg ->
  fst (read_table this W) = Ok table ->
  match newLocale with Some x => Some x | None => cfg_defaultLocale cfg end
  = Some requested ->
  loc_tag requested ∈ cfg_locales cfg ->
  ranked rank (cfg_fallbacks cfg) ->
  parsable (cfg_fallbacks cfg) ->
  rank (loc_tag requested) < fuel ->
  exists ok W', load fuel this newLocale W = (Ok (Fulfilled ok), W').
Proof.
  intros Hcfg Htab Hreq Hsup Hrank Hpars Hfuel.
  destruct (read_config_inv _ _ _ Hcfg)
    as (b & Hb & Hls & Hpcs & Hfbs & Hfiles & Hinits & Hdef).
  destruct (read_table_inv _ _ _ Htab) as (b' & Hb' & Ha).
  assert (b' = b) by congruence. subst b'.
  rewrite <- Hdef in Hreq.
  unfold load, load_begin.
  rewrite bind_eq, (bind_ok _ _ _ _ _ (read_box_ok _ _ _ Hb)), Hreq.
  rewrite (bind_ok _ _ _ _ _ (supportsLocale_ok _ _ _ _ (inr requested) Hb Hls)).
  cbn [arg_toString]. rewrite (bool_decide_eq_true_2 _ Hsup). cbn [negb].
  destruct (enumerateFallbacksToSet_returns this b (cfg_fallbacks cfg) rank
              Hrank Hpars fuel (loc_tag requested) [requested] W
              (conj Hb Hfbs) Hfuel) as (toLoad & W0 & Henum & _).
  pose proof (same_store_enumerateFallbacksToSet fuel this (loc_tag requested)
                [requested] W) as [Hs0 _].
  rewrite Henum in Hs0. cbn in Hs0.
  destruct (loaders_return this b (cfg_pathComponents cfg) (cfg_files cfg)
              toLoad W0) as (tasks & W1 & Hmap & [Hs1 _]);
    try (rewrite Hs0; assumption).
  rewrite bind_eq. unfold catch. rewrite bind_eq, Henum, Hmap. cbn [ret].
  unfold load_settle. destruct (Promise_all tasks) as [res|]; [|cbn; eauto].
  destruct (load_then_spec W1 this b table (cfg_bundleInitializers cfg)
              requested res) as (W2 & Hthen & _);
    try (rewrite Hs1, Hs0; assumption).
  cbn zeta in Hthen. rewrite bind_eq. unfold catch. rewrite Hthen.
  pose proof (run_initializers_ends (cfg_bundleInitializers cfg) requested
                (commit_table (_clean b) table res)) as Hends.
  destruct (fst (run_initializers _ requested _)) as [[]|e|]; cbn; eauto.
  contradiction.
Qed.

(** X13: [load] never merges two paths to the same locale.  The loaders
    that a [load] starts are, in order, one for the requested locale and
    one for each element of what [_enumerateFallbacks] pushes for it, so a
    locale that is reachable along two paths of the fallback graph is
    fetched once per path; the set [toLoad] removes nothing, because its
    elements are new objects. *)
Theorem load_starts_a_loader_per_path
    fuel this newLocale W requested tasks W1 :
  load_begin fuel this newLocale W = (Ok (InFlight requested tasks), W1) ->
  created_before W [requested] ->
  exists others W0,
    _enumerateFallbacks fuel this (loc_tag requested) [] W = (Ok others, W0)
    /\ fetch_log W1
       = fetch_log W ++ loc_tag requested :: (loc_tag <$> others)
    /\ length tasks = S (length others).
Proof.
  intros Hbegin Hfresh.
  destruct (load_begin_inflight _ _ _ _ _ _ _ Hbegin)
    as (b & others & W0 & Hb & Hreq & Henum & Hbatch & Hlog).
  destruct (enumerateFallbacksToSet_is_enumerateFallbacks fuel this
              (loc_tag requested) [requested] W Hfresh) as [Heq _].
  rewrite Heq, (enumerateFallbacks_accumulates fuel this (loc_tag requested)
                  [requested] W) in Henum.
  destruct (_enumerateFallbacks fuel this (loc_tag requested) [] W)
    as [[out|e|] W0'] eqn:Harr; cbn in Henum; try discriminate.
  injection Henum as Hout HW. subst out W0'.
  exists others, W0. split; [reflexivity|]. split; [exact Hlog|].
  apply Forall2_length in Hbatch. cbn in Hbatch. now rewrite <- Hbatch.
Qed.

(** X14: a [false] that is not a rollback.  When every loader of the
    batch fulfils and a bundle initializer then throws, [load] resolves
    [false], yet the batch is committed and the current locale is the
    requested one: the Asset Table holds, outside the entry of the
    requested locale, exactly what the commit of the batch put there. *)
Theorem initializer_failure_keeps_the_commit
    fuel this newLocale W b table inits requested tasks W1 res e :
  store W !! this = Some (CBox b) ->
  store W !! _assets b = Some (CAssets table) ->
  store W !! _bundleInitializers b = Some (CInits inits) ->
  load_begin fuel this newLocale W = (Ok (InFlight requested tasks), W1) ->
  Promise_all tasks = Fulfilled res ->
  fst (run_initializers inits requested (commit_table (_clean b) table res))
  = Throw e ->
  exists W' table',
    load fuel this newLocale W = (Ok (Fulfilled false), W')
    /\ fst (currentLocale this W') = Ok (Some requested)
    /\ fst (read_table this W') = Ok table'
    /\ forall k, k <> loc_tag requested ->
         table' !! k = commit_table (_clean b) table res !! k.
Proof.
  intros Hb Ha Hi Hbegin Hall Hthrow.
  pose proof (same_store_load_begin fuel this newLocale W) as [Hs _].
  rewrite Hbegin in Hs. cbn in Hs.
  destruct (load_then_spec W1 this b table inits requested res)
    as (W2 & Hthen & Ha2 & Hb2); try (rewrite Hs; assumption).
  cbn zeta in Hthen, Ha2. rewrite Hthrow in Hthen.
  exists W2, (snd (run_initializers inits requested
                     (commit_table (_clean b) table res))).
  split; [|split; [|split]].
  - unfold load. rewrite (bind_ok _ _ _ _ _ Hbegin).
    unfold load_settle. rewrite Hall, bind_eq. unfold catch.
    now rewrite Hthen.
  - now rewrite (currentLocale_ok _ _ _ Hb2).
  - now rewrite (read_table_ok _ _ _ _ Hb2 Ha2).
  - intros k Hk. now apply run_initializers_outside.
Qed.

(** ** Further properties: a [null] answer and the error array *)

Lemma first_message_null rec fallbacks :
  (forall fl errors W errors' W',
     rec fl errors W = (Ok (None, errors'), W') -> errors' = errors) ->
  forall errors W errors' W',
    first_message rec fallbacks errors W = (Ok (None, errors'), W') ->
    errors' = errors.
Proof.
  intros Hrec. induction fallbacks as [|fl rest IH]; intros errors W errors' W';
    cbn.
  - now intros [= <- <-].
  - rewrite bind_eq.
    destruct (rec fl errors W) as [[[[s|] e1]|e|] W1] eqn:Hfl; try discriminate.
    intros Hrest. apply IH in Hrest. apply Hrec in Hfl. congruence.
Qed.

Lemma getMessageByLocale_null fuel this id args :
  forall locale errors W errors' W',
    _getMessageByLocale fuel this id locale args errors W
    = (Ok (None, errors'), W') ->
    errors' = errors.
Proof.
  induction fuel as [|fuel IH]; intros locale errors W errors' W'; cbn;
    [discriminate|].
  rewrite bind_eq. destruct (read_box this W) as [[b|e|] W1]; try discriminate.
  rewrite bind_eq. destruct (read_assets (_assets b) W1) as [[table|e|] W2];
    try discriminate.
  destruct (match table !! locale with Some _ => _ | None => _ end)
    as [answer|] eqn:Hown.
  - unfold of_res. intros Heq. injection Heq as Hans _. subst answer. exfalso.
    destruct (table !! locale) as [assets|]; [|discriminate].
    destruct (bundle_getMessage assets id) as [[value|]|]; try discriminate.
    unfold formatPattern in Hown.
    destruct (resolvePattern assets value args) as [s errs].
    destruct errors as [l|], errs as [|e0 errs]; discriminate.
  - rewrite bind_eq.
    destruct (read_fallbacks (_fallbacks b) W2) as [[fbs|e|] W3];
      try discriminate.
    assert (Htail : forall W4,
      match _defaultLocale b with
      | Some d =>
          let nextLocale := loc_tag d in
          if bool_decide (toLowerCase locale <> toLowerCase nextLocale)
          then _getMessageByLocale fuel this id nextLocale args errors
          else ret (None, errors)
      | None => ret (None, errors)
      end W4 = (Ok (None, errors'), W') -> errors' = errors).
    { intros W4. destruct (_defaultLocale b) as [d|]; [cbn zeta; case_bool_decide|].
      - apply IH.
      - now intros [= <- <-].
      - now intros [= <- <-]. }
    rewrite bind_eq. destruct (fbs !! locale) as [l|].
    + destruct (first_message _ l errors W3) as [[[[s|] e1]|e|] W4] eqn:Hl;
        try discriminate.
      assert (e1 = errors) by (eapply first_message_null; [|exact Hl]; apply IH).
      subst e1. apply Htail.
    + cbn. apply Htail.
Qed.

(** X16: a [null] answer reports nothing.  When [getMessage] answers
    [null], the caller's error array is as it was: formatting errors are
    only ever pushed by the bundle that provides the answer. *)
Theorem null_answer_leaves_errors fuel this id args errors W errors' W' :
  getMessage fuel this id args errors W = (Ok (None, errors'), W') ->
  errors' = errors /\ W' = W.
Proof.
  intros Hget. split.
  - revert Hget. unfold getMessage. rewrite bind_eq.
    destruct (read_box this W) as [[b|e|] W1]; try discriminate.
    destruct (_currentLocale b).
    + apply getMessageByLocale_null.
    + now intros [= <- <-].
  - pose proof (readonly_getMessage fuel this id args errors W) as Hro.
    now rewrite Hget in Hro.
Qed.

(** ** Further properties: bundle initializers and handles *)

Lemma read_config_ok W this b ls pcs fbs files inits :
  store W !! this = Some (CBox b) ->
  store W !! _locales b = Some (CLocaleSet ls) ->
  store W !! _localeToPathComponents b = Some (CPathMap pcs) ->
  store W !! _fallbacks b = Some (CFallbacks fbs) ->
  store W !! _files b = Some (CFiles files) ->
  store W !! _bundleInitializers b = Some (CInits inits) ->
  read_config this W
  = (Ok (mkConfig ls pcs fbs (_defaultLocale b) (_source b) files (_clean b)
                  (_method b) inits), W).
Proof.
  intros Hb H1 H2 H3 H4 H5. unfold read_config.
  rewrite (bind_ok _ _ _ _ _ (read_box_ok _ _ _ Hb)).
  rewrite (bind_ok _ _ _ _ _ (read_localeset_ok _ _ _ H1)).
  rewrite (bind_ok _ _ _ _ _ (read_pathmap_ok _ _ _ H2)).
  rewrite (bind_ok _ _ _ _ _ (read_fallbacks_ok _ _ _ H3)).
  rewrite (bind_ok _ _ _ _ _ (read_files_ok _ _ _ H4)).
  rewrite (bind_ok _ _ _ _ _ (read_inits_ok _ _ _ H5)).
  reflexivity.
Qed.

Lemma read_config_cells this W cfg :
  fst (read_config this W) = Ok cfg ->
  exists b ls pcs fbs files inits,
    store W !! this = Some (CBox b)
    /\ store W !! _locales b = Some (CLocaleSet ls)
    /\ store W !! _localeToPathComponents b = Some (CPathMap pcs)
    /\ store W !! _fallbacks b = Some (CFallbacks fbs)
    /\ store W !! _files b = Some (CFiles files)
    /\ store W !! _bundleInitializers b = Some (CInits inits)
    /\ cfg = mkConfig ls pcs fbs (_defaultLocale b) (_source b) files
                      (_clean b) (_method b) inits.
Proof.
  unfold read_config, read_box, read_localeset, read_pathmap,
    read_fallbacks, read_files, read_inits, bind, read.
  destruct (store W !! this) as [[b| | | | | |]|] eqn:Hb; try discriminate. cbn.
  destruct (store W !! _locales b) as [[| |ls| | | |]|] eqn:H1; try discriminate.
  cbn.
  destruct (store W !! _localeToPathComponents b) as [[|pcs| | | | |]|] eqn:H2;
    try discriminate.
  cbn.
  destruct (store W !! _fallbacks b) as [[| | |fbs| | |]|] eqn:H3; try discriminate.
  cbn.
  destruct (store W !! _files b) as [[| | | | |files|]|] eqn:H4; try discriminate.
  cbn.
  destruct (store W !! _bundleInitializers b) as [[| | | | | |inits]|] eqn:H5;
    try discriminate.
  cbn. intros [= <-]. exists b, ls, pcs, fbs, files, inits. auto 10.
Qed.

(** X17: bundle initializers belong to the engine, not to the handle.
    An initializer registered through a handle is appended to the list
    that this handle and every handle cloned from or into it read, after
    the initializers registered before; the rest of the configuration, the
    Asset Table and the current locale of each handle are as they were. *)
Theorem initializer_is_registered_for_every_handle
    W h1 h2 fn cfg table :
  h1 = h2 \/ aliases W h1 h2 ->
  fst (read_config h1 W) = Ok cfg ->
  fst (read_table h1 W) = Ok table ->
  exists W',
    addBundleInitializer h2 fn W = (Ok tt, W')
    /\ fst (read_config h1 W') = Ok (with_initializer fn cfg)
    /\ fst (read_config h2 W') = Ok (with_initializer fn cfg)
    /\ fst (read_table h1 W') = Ok table
    /\ fst (currentLocale h1 W') = fst (currentLocale h1 W)
    /\ fst (currentLocale h2 W') = fst (currentLocale h2 W).
Proof.
  intros Hh Hcfg Htab.
  destruct (read_config_cells _ _ _ Hcfg)
    as (b1 & ls & pcs & fbs & files & inits
        & Hb1 & H1 & H2 & H3 & H4 & H5 & ->).
  destruct (read_table_inv _ _ _ Htab) as (b' & Hb' & Ha).
  assert (b' = b1) by congruence. subst b'.
  assert (Hb2 : exists b2, store W !! h2 = Some (CBox b2) /\ same_config b1 b2).
  { destruct Hh as [<- | (_ & x1 & x2 & Hx1 & Hx2 & Hc)].
    - exists b1. split; [exact Hb1 | apply same_config_refl].
    - exists x2. split; [exact Hx2|]. congruence. }
  destruct Hb2 as (b2 & Hb2 & Hsame). unfold same_config in Hsame.
  pose proof (f_equal _locales Hsame) as E1.
  pose proof (f_equal _localeToPathComponents Hsame) as E2.
  pose proof (f_equal _fallbacks Hsame) as E3.
  pose proof (f_equal _files Hsame) as E4.
  pose proof (f_equal _bundleInitializers Hsame) as E5.
  pose proof (f_equal _defaultLocale Hsame) as E6.
  pose proof (f_equal _source Hsame) as E7.
  pose proof (f_equal _clean Hsame) as E8.
  pose proof (f_equal _method Hsame) as E9.
  cbn in E1, E2, E3, E4, E5, E6, E7, E8, E9.
  set (i := _bundleInitializers b1) in *.
  set (W' := set_store (insert i (CInits (inits ++ [fn]))) W).
  assert (Hkeep : forall r c, store W !! r = Some c ->
            (forall l, c <> CInits l) -> store W' !! r = Some c).
  { intros r c Hr Hc. unfold W'. rewrite store_set_store_ne; [exact Hr|].
    intros ->. rewrite H5 in Hr. injection Hr as <-. now apply (Hc inits). }
  assert (Hi : store W' !! i = Some (CInits (inits ++ [fn])))
    by apply store_set_store_eq.
  exists W'. split; [|split; [|split; [|split; [|split]]]].
  - unfold addBundleInitializer, inits_push.
    rewrite (bind_ok _ _ _ _ _ (read_box_ok _ _ _ Hb2)), <- E5.
    now rewrite (bind_ok _ _ _ _ _ (read_inits_ok _ _ _ H5)).
  - erewrite read_config_ok; [reflexivity | | | | | |];
      try (apply Hkeep; [eassumption | discriminate]); exact Hi.
  - erewrite read_config_ok; [| | | | | |];
      [ | apply Hkeep; [exact Hb2 | discriminate]
        | rewrite <- E1; apply Hkeep; [exact H1 | discriminate]
        | rewrite <- E2; apply Hkeep; [exact H2 | discriminate]
        | rewrite <- E3; apply Hkeep; [exact H3 | discriminate]
        | rewrite <- E4; apply Hkeep; [exact H4 | discriminate]
        | rewrite <- E5; exact Hi ].
    cbn. unfold with_initializer. cbn. now rewrite <- E6, <- E7, <- E8, <- E9.
  - erewrite read_table_ok; [reflexivity | |];
      apply Hkeep; try eassumption; discriminate.
  - rewrite (currentLocale_ok _ _ _ Hb1).
    now rewrite (currentLocale_ok W' _ _ (Hkeep _ _ Hb1 ltac:(discriminate))).
  - rewrite (currentLocale_ok _ _ _ Hb2).
    now rewrite (currentLocale_ok W' _ _ (Hkeep _ _ Hb2 ltac:(discriminate))).
Qed.

End Properties.

(** * The theorems at work on the sample application *)

Lemma sample_engine_at_gl :
  engine_at world_gl sample_box (the_box world_gl sample_box)
            (the_table world_gl sample_box) (the_fallbacks world_gl sample_box).
Proof. constructor; vm_compute; exact eq_refl. Qed.

Lemma sample_engine_at_default :
  engine_at world_default sample_box (the_box world_default sample_box)
            (the_table world_default sample_box)
            (the_fallbacks world_default sample_box).
Proof. constructor; vm_compute; exact eq_refl. Qed.

(** Galician falls back on Portuguese, Portuguese on French, the default is
    American English: ["merci"] is French only, ["bye"] English only,
    ["nope"] nobody's; ["salut"] is French only and refers to a variable
    that the call does not give. *)
Lemma cascade_lookup_order_witness :
  getMessage 4 sample_box "merci" None None world_gl
  = (Ok (Some "Merci", None), world_gl)
  /\ getMessage 4 sample_box "bye" None None world_gl
     = (Ok (Some "Goodbye", None), world_gl)
  /\ getMessage 4 sample_box "nope" None None world_gl
     = (Ok (None, None), world_gl)
  /\ getMessage 4 sample_box "salut" None None world_gl
     = (Throw (FormattingError "Unknown variable: $name"), world_gl).
Proof.
  assert (Hcur : _currentLocale (the_box world_gl sample_box) = Some gl)
    by (vm_compute; exact eq_refl).
  assert (Hdef : _defaultLocale (the_box world_gl sample_box) = Some en_US)
    by (vm_compute; exact eq_refl).
  split; [|split; [|split]].
  - apply (proj1 (cascade_lookup_order world_gl sample_box _ _ _ gl
                    en_US "gl" "pt" "fr" "en-US" "merci" None None
                    sample_engine_at_gl Hcur eq_refl Hdef eq_refl
                    ltac:(vm_compute; exact eq_refl) ltac:(vm_compute; exact eq_refl)
                    ltac:(vm_compute; exact eq_refl) ltac:(vm_compute; exact eq_refl)
                    ltac:(vm_compute; exact eq_refl) ltac:(vm_compute; exact eq_refl))
                  bundle_fr (Some "Merci"));
      [vm_compute; exact eq_refl | lia].
  - apply (proj1 (proj2 (cascade_lookup_order world_gl sample_box _ _ _ gl
                    en_US "gl" "pt" "fr" "en-US" "bye" None None
                    sample_engine_at_gl Hcur eq_refl Hdef eq_refl
                    ltac:(vm_compute; exact eq_refl) ltac:(vm_compute; exact eq_refl)
                    ltac:(vm_compute; exact eq_refl) ltac:(vm_compute; exact eq_refl)
                    ltac:(vm_compute; exact eq_refl) ltac:(vm_compute; exact eq_refl)))
                  (brand bundle_en_us) (Some "Goodbye"));
      [vm_compute; exact eq_refl | vm_compute; discriminate
       | vm_compute; exact eq_refl | lia].
  - apply (proj1 (proj2 (proj2 (cascade_lookup_order world_gl sample_box _ _ _ gl
                    en_US "gl" "pt" "fr" "en-US" "nope" None None
                    sample_engine_at_gl Hcur eq_refl Hdef eq_refl
                    ltac:(vm_compute; exact eq_refl) ltac:(vm_compute; exact eq_refl)
                    ltac:(vm_compute; exact eq_refl) ltac:(vm_compute; exact eq_refl)
                    ltac:(vm_compute; exact eq_refl) ltac:(vm_compute; exact eq_refl)))));
      [vm_compute; exact eq_refl | vm_compute; exact eq_refl | lia].
  - apply (proj1 (cascade_lookup_order world_gl sample_box _ _ _ gl
                    en_US "gl" "pt" "fr" "en-US" "salut" None None
                    sample_engine_at_gl Hcur eq_refl Hdef eq_refl
                    ltac:(vm_compute; exact eq_refl) ltac:(vm_compute; exact eq_refl)
                    ltac:(vm_compute; exact eq_refl) ltac:(vm_compute; exact eq_refl)
                    ltac:(vm_compute; exact eq_refl) ltac:(vm_compute; exact eq_refl))
                  bundle_fr (Some "$name"));
      [vm_compute; exact eq_refl | lia].
Defined.

(** Dutch falls back on German, which has no resources: the batch of
    [load(nl)] has a rejected loader. *)
Lemma load_failure_is_atomic_witness :
  Rejected ∈ [Fulfilled ("nl", bundle_nl); Rejected]
  /\ load 8 sample_box (Some nl) world_nl_arg
     = (Ok (Fulfilled false), snd (load_begin 8 sample_box (Some nl) world_nl_arg))
  /\ store (snd (load_begin 8 sample_box (Some nl) world_nl_arg))
     = store world_nl_arg.
Proof.
  assert (Hin : Rejected ∈ [Fulfilled ("nl", bundle_nl); Rejected]).
  { rewrite !elem_of_cons. auto. }
  split; [exact Hin|].
  assert (load_begin 8 sample_box (Some nl) world_nl_arg
          = (Ok (InFlight nl [Fulfilled ("nl", bundle_nl); Rejected]),
             snd (load_begin 8 sample_box (Some nl) world_nl_arg))) as Hbegin.
  { apply (run_pair (load_begin 8 sample_box (Some nl)) world_nl_arg).
    vm_compute. exact eq_refl. }
  pose proof (load_failure_is_atomic 8 sample_box (Some nl) world_nl_arg nl
                [Fulfilled ("nl", bundle_nl); Rejected]
                (snd (load_begin 8 sample_box (Some nl) world_nl_arg))
                Hbegin Hin)
    as (Hload & Hstore & _).
  split; [exact Hload | exact Hstore].
Defined.

(** Japanese is not among the declared locales. *)
Lemma load_unsupported_throws_synchronously_witness :
  ("ja" ∉ the_locales world_ja_arg sample_box)
  /\ load 8 sample_box (Some ja) world_ja_arg
     = (Throw (UnsupportedLocale "ja"), world_ja_arg)
  /\ fetch_log (snd (load 8 sample_box (Some ja) world_ja_arg))
     = fetch_log world_ja_arg.
Proof.
  assert ("ja" ∉ the_locales world_ja_arg sample_box) as Hnot.
  { apply (proj1 (bool_decide_eq_false _)). vm_compute. exact eq_refl. }
  split; [exact Hnot|].
  pose proof (load_unsupported_throws_synchronously 8 sample_box (Some ja)
                world_ja_arg (the_box world_ja_arg sample_box)
                (the_locales world_ja_arg sample_box) ja
                ltac:(vm_compute; exact eq_refl) ltac:(vm_compute; exact eq_refl)
                eq_refl Hnot) as (_ & Hload & Hlog & _).
  split; [exact Hload | exact Hlog].
Defined.

(** ["blank"] is defined in the default locale's bundle without a value. *)
Lemma hasMessage_agrees_with_getMessage_witness :
  hasMessage 1 sample_box "blank" world_default = (Ok true, world_default)
  /\ getMessage 1 sample_box "blank" None (Some []) world_default
     = (Ok (Some "", Some []), world_default).
Proof.
  apply (proj1 (proj2 (proj2 (proj2 (proj2
           (hasMessage_agrees_with_getMessage 1 sample_box "blank" None
              (Some []) world_default)))))
           _ _ _ en_US (brand bundle_en_us) sample_engine_at_default);
    [vm_compute; exact eq_refl | vm_compute; exact eq_refl | lia].
Defined.

(** C7, as stated, fails: Galician is current and falls back on
    Portuguese and then French, whose bundle defines ["salut"] with a
    reference to a variable.  Asked without arguments and without an error
    array, [hasMessage] answers [true] while [getMessage] returns nothing:
    it throws the formatting error. *)
Lemma hasMessage_true_where_getMessage_throws :
  fst (hasMessage 4 sample_box "salut" world_gl) = Ok true
  /\ fst (getMessage 4 sample_box "salut" None None world_gl)
     = Throw (FormattingError "Unknown variable: $name")
  /\ ~ (exists s errors',
          fst (getMessage 4 sample_box "salut" None None world_gl)
          = Ok (Some s, errors')).
Proof.
  assert (fst (getMessage 4 sample_box "salut" None None world_gl)
          = Throw (FormattingError "Unknown variable: $name")) as Hthrow
    by (vm_compute; exact eq_refl).
  split; [vm_compute; exact eq_refl|]. split; [exact Hthrow|].
  intros (s & errors' & Hok). rewrite Hthrow in Hok. discriminate.
Qed.

(** C4, as stated, fails on the same input: ["salut"] is defined in the
    bundle of French only, the last of Galician's chain, and [getMessage]
    does not return French's formatted value: it throws. *)
Lemma cascade_answer_may_be_thrown :
  the_fallbacks world_gl sample_box !! "gl" = Some ["pt"]
  /\ the_fallbacks world_gl sample_box !! "pt" = Some ["fr"]
  /\ own_message (the_table world_gl sample_box) "gl" "salut" = None
  /\ own_message (the_table world_gl sample_box) "pt" "salut" = None
  /\ own_message (the_table world_gl sample_box) "en-US" "salut" = None
  /\ own_message (the_table world_gl sample_box) "fr" "salut"
     = Some (bundle_fr, Some "$name")
  /\ fst (getMessage 4 sample_box "salut" None None world_gl)
     = Throw (FormattingError "Unknown variable: $name")
  /\ fst (getMessage 4 sample_box "salut" None (Some []) world_gl)
     = Ok (Some "{$name}", Some ["Unknown variable: $name"]).
Proof.
  split; [|split; [|split; [|split; [|split; [|split; [|split]]]]]];
    vm_compute; exact eq_refl.
Qed.

(** The current locale is the default locale and nobody defines ["nope"]. *)
Lemma default_locale_termination_witness :
  (_getMessageByLocale 1 sample_box "nope" "en-US" None None world_default
   = (Ok (None, None), world_default)
   /\ _hasMessageByLocale 1 sample_box "nope" "en-US" world_default
      = (Ok false, world_default))
  /\ getMessage 1 sample_box "nope" None None world_default
     = (Ok (None, None), world_default)
  /\ hasMessage 1 sample_box "nope" world_default = (Ok false, world_default).
Proof.
  destruct (proj2 (default_locale_termination world_default sample_box _ _ _
                     en_US "en-US" "nope" None None
                     sample_engine_at_default
                     ltac:(vm_compute; exact eq_refl) eq_refl
                     ltac:(vm_compute; exact eq_refl))
                  ltac:(vm_compute; exact eq_refl) 1 ltac:(lia))
    as (Hg & Hh & Hcur).
  split; [split; [exact Hg | exact Hh]|].
  exact (Hcur en_US ltac:(vm_compute; exact eq_refl) eq_refl).
Defined.

(** Galician loaded after the default locale, under the accumulate
    policy. *)
Lemma load_commit_lifecycle_witness :
  load 8 sample_box (Some gl) world_gl_arg = (Ok (Fulfilled true), world_gl)
  /\ exists requested tasks res table' W1,
       load_begin 8 sample_box (Some gl) world_gl_arg
       = (Ok (InFlight requested tasks), W1)
       /\ Promise_all tasks = Fulfilled res
       /\ store world_gl !! _assets (the_box world_gl_arg sample_box)
          = Some (CAssets table')
       /\ (_clean (the_box world_gl_arg sample_box) = true ->
           dom table' = list_to_set res.*1
           /\ forall Y, Y ∉ res.*1 -> table' !! Y = None)
       /\ (_clean (the_box world_gl_arg sample_box) = false ->
           dom table' = dom (the_table world_gl_arg sample_box) ∪ list_to_set res.*1
           /\ forall Y, Y ∉ res.*1 ->
                table' !! Y = the_table world_gl_arg sample_box !! Y)
       /\ (forall k bundle, (k, bundle) ∈ res -> k <> loc_tag requested ->
             table' !! k = Some bundle)
       /\ (exists bundle, (loc_tag requested, bundle) ∈ res
             /\ table' !! loc_tag requested
                = Some (initialized (the_initializers world_gl_arg sample_box)
                                    requested bundle)).
Proof.
  assert (load 8 sample_box (Some gl) world_gl_arg
          = (Ok (Fulfilled true), world_gl)) as Hload.
  { apply (run_pair (load 8 sample_box (Some gl)) world_gl_arg).
    vm_compute. exact eq_refl. }
  split; [exact Hload|].
  exact (load_commit_lifecycle 8 sample_box (Some gl) world_gl_arg
           (the_box world_gl_arg sample_box) (the_table world_gl_arg sample_box)
           (the_initializers world_gl_arg sample_box) world_gl
           ltac:(vm_compute; exact eq_refl) ltac:(vm_compute; exact eq_refl)
           ltac:(vm_compute; exact eq_refl) Hload).
Defined.

(** The same [load], seen from the rest of the store. *)
Lemma load_and_lookup_frame_witness :
  store world_gl_arg !! sample_box = Some (CBox (the_box world_gl_arg sample_box))
  /\ (exists cur,
        store world_gl !! sample_box
        = Some (CBox (with_currentLocale cur (the_box world_gl_arg sample_box))))
  /\ (forall r, r <> sample_box -> r <> _assets (the_box world_gl_arg sample_box) ->
        store world_gl !! r = store world_gl_arg !! r)
  /\ next_ref world_gl = next_ref world_gl_arg.
Proof.
  assert (store world_gl_arg !! sample_box
          = Some (CBox (the_box world_gl_arg sample_box))) as Hb
    by (vm_compute; exact eq_refl).
  split; [exact Hb|].
  exact (proj1 (load_and_lookup_frame 8 sample_box (Some gl) "hello" None None
                  world_gl_arg) _ Hb).
Defined.

(** The handle is cloned, then French is loaded through the original. *)
Lemma clone_shares_table_keeps_own_current_witness :
  (exists r W',
     clone sample_box world_new = (Ok r, W')
     /\ aliases W' sample_box r
     /\ fst (currentLocale r W') = Ok (_currentLocale (the_box world_new sample_box))
     /\ fst (currentLocale sample_box W')
        = Ok (_currentLocale (the_box world_new sample_box)))
  /\ aliases world_fr_arg sample_box sample_clone
  /\ aliases world_fr sample_box sample_clone
  /\ fst (read_table sample_clone world_fr) = fst (read_table sample_box world_fr)
  /\ fst (currentLocale sample_clone world_fr)
     = fst (currentLocale sample_clone world_fr_arg).
Proof.
  assert (aliases world_fr_arg sample_box sample_clone) as Hal.
  { split; [discriminate|].
    exists (the_box world_fr_arg sample_box), (the_box world_fr_arg sample_clone).
    split; [|split]; vm_compute; exact eq_refl. }
  split; [|split; [exact Hal|]].
  - exact (proj1 clone_shares_table_keeps_own_current world_new sample_box
             (the_box world_new sample_box)
             ltac:(vm_compute; exact eq_refl) ltac:(vm_compute; lia)).
  - destruct (proj2 clone_shares_table_keeps_own_current world_fr_arg
                sample_box sample_clone sample_box sample_clone 8 (Some fr)
                Hal ltac:(left; split; reflexivity))
      as (Hal' & Htab & Hcur & _).
    split; [exact Hal' | split; [exact Htab | exact Hcur]].
Defined.

(** C2, as stated, fails: after [clone], French is loaded through the
    original handle and the load resolves [true]; [currentLocale] on the
    original is French, on the clone it is still [null]. *)
Lemma clone_does_not_follow_current_locale :
  fst (clone sample_box world_new) = Ok sample_clone
  /\ fst (load 8 sample_box (Some fr) world_fr_arg) = Ok (Fulfilled true)
  /\ fst (currentLocale sample_box world_fr) = Ok (Some fr)
  /\ fst (currentLocale sample_clone world_fr) = Ok None
  /\ fst (currentLocale sample_clone world_fr) <> Ok (Some fr).
Proof.
  assert (fst (currentLocale sample_clone world_fr) = Ok None) as Hnone
    by (vm_compute; exact eq_refl).
  split; [|split; [|split; [|split]]]; try (vm_compute; exact eq_refl).
  rewrite Hnone. discriminate.
Qed.

(** C3 at work: Brazilian Portuguese falls back on Portuguese and on
    Spanish, which both fall back on French.  [load(pt-BR)] resolves
    [true] having started five loaders, two of them for French: the
    elements of [toLoad] are distinct objects, and the set does not merge
    them. *)
Lemma load_fetches_shared_fallback_twice :
  fetch_log world_ptBR_arg = []
  /\ fst (load 8 sample_box (Some ptBR) world_ptBR_arg) = Ok (Fulfilled true)
  /\ fetch_log (snd (load 8 sample_box (Some ptBR) world_ptBR_arg))
     = ["pt-BR"; "pt"; "fr"; "es"; "fr"]
  /\ fst (_enumerateFallbacksToSet 8 sample_box "pt-BR" [ptBR] world_ptBR_arg)
     = Ok [ptBR; mkLocale 21 "pt"; mkLocale 22 "fr"; mkLocale 23 "es";
           mkLocale 24 "fr"].
Proof. split; [|split; [|split]]; vm_compute; exact eq_refl. Qed.

(** C5 at work: the application declares ["en-us"], which the constructor
    stores in canonical form.  [supportsLocale] compares its argument's
    [toString()] with the stored forms, and a string is its own
    [toString()]: the declared spelling itself is answered [false], the
    canonical spelling and the locale object [true]. *)
Lemma supportsLocale_misses_declared_spelling :
  "en-us" ∈ opt_locales (sample_options false)
  /\ canonical "en-us" = Some "en-US"
  /\ fst (supportsLocale sample_box (inl "en-us") world_new) = Ok false
  /\ fst (supportsLocale sample_box (inl "en-US") world_new) = Ok true
  /\ fst (supportsLocale sample_box (inr en_US) world_new) = Ok true.
Proof.
  split; [left|]. split; [|split; [|split]]; vm_compute; exact eq_refl.
Qed.

(** The two policies side by side: after the default locale, Galician is
    loaded with its fallbacks Portuguese and French.  The clean table
    holds these three and has dropped American English; the accumulating
    table holds all four, the bundles of the two requested locales branded
    by the initializer, that of a fallback as loaded. *)
Example clean_policy_drops_previous_locale :
  dom (the_table clean_default sample_box) = {["en-US"]}
  /\ dom (the_table clean_gl sample_box) = {["gl"; "pt"; "fr"]}
  /\ the_table clean_gl sample_box !! "en-US" = None.
Proof. split; [|split]; vm_compute; exact eq_refl. Qed.

Example accumulate_policy_keeps_previous_locale :
  dom (the_table world_default sample_box) = {["en-US"]}
  /\ dom (the_table world_gl sample_box) = {["en-US"; "gl"; "pt"; "fr"]}
  /\ the_table world_gl sample_box !! "en-US" = Some (brand bundle_en_us)
  /\ the_table world_gl sample_box !! "gl" = Some (brand bundle_gl)
  /\ the_table world_gl sample_box !! "pt" = Some bundle_pt.
Proof. split; [|split; [|split; [|split]]]; vm_compute; exact eq_refl. Qed.

(** The accessors enumerate with an array, [load] with a set, and the two
    agree, repetitions included: Brazilian Portuguese once current, its
    fallbacks list French twice. *)
Example fallbacks_lists_shared_fallback_twice :
  res_map (fmap loc_tag)
          (fst (fallbacks 8 sample_box
                  (snd (load 8 sample_box (Some ptBR) world_ptBR_arg))))
  = Ok ["pt"; "fr"; "es"; "fr"].
Proof. vm_compute. exact eq_refl. Qed.


(** * The further properties at work *)

Lemma sample_constructed :
  FluentBox_new (sample_options false) empty_world
  = (Ok sample_box, world_constructed).
Proof.
  apply (run_pair (FluentBox_new (sample_options false)) empty_world).
  vm_compute. exact eq_refl.
Qed.

(** The application as its constructor leaves it. *)
Lemma constructor_establishes_witness :
  fst (currentLocale sample_box world_constructed) = Ok None
  /\ fst (read_table sample_box world_constructed) = Ok ∅.
Proof.
  pose proof (constructor_establishes (sample_options false) empty_world
                sample_box world_constructed sample_constructed)
    as (Hcur & Htab & _).
  split; [exact Hcur | exact Htab].
Defined.

Lemma constructor_path_components_witness :
  exists pcs,
    fst (bind (read_box sample_box)
              (fun b => read_pathmap (_localeToPathComponents b))
              world_constructed) = Ok pcs
    /\ dom pcs = canonical_forms (opt_locales (sample_options false)).
Proof.
  destruct (constructor_path_components (sample_options false) empty_world
              sample_box world_constructed sample_constructed)
    as (pcs & Hread & Hdom & _).
  exists pcs. split; [exact Hread | exact Hdom].
Defined.

Lemma constructor_fallback_graph_witness :
  exists fbs,
    fst (bind (read_box sample_box) (fun b => read_fallbacks (_fallbacks b))
              world_constructed) = Ok fbs
    /\ dom fbs
       = canonical_forms
           (fst <$> default [] (opt_fallbacks (sample_options false))).
Proof.
  destruct (constructor_fallback_graph (sample_options false) empty_world
              sample_box world_constructed sample_constructed)
    as (fbs & Hread & Hdom & _).
  exists fbs. split; [exact Hread | exact Hdom].
Defined.

Lemma nothing_before_load_witness :
  getMessage 0 sample_box "hello" None None world_constructed
  = (Ok (None, None), world_constructed)
  /\ hasMessage 0 sample_box "hello" world_constructed
     = (Ok false, world_constructed)
  /\ fallbacks 0 sample_box world_constructed = (Ok [], world_constructed)
  /\ localeAndFallbacks 0 sample_box world_constructed
     = (Ok [], world_constructed).
Proof.
  exact (nothing_before_load (sample_options false) empty_world sample_box
           world_constructed 0 "hello" None None sample_constructed).
Defined.

Lemma sample_graph_ranked :
  ranked sample_rank sample_graph /\ parsable sample_graph.
Proof.
  unfold ranked, parsable, sample_graph.
  split; repeat (apply map_Forall_insert_2; [|]); try apply map_Forall_empty;
    repeat constructor; try (vm_compute; lia); try (vm_compute; eauto).
Qed.

Lemma sample_graph_gl : the_fallbacks world_gl sample_box = sample_graph.
Proof. vm_compute. exact eq_refl. Qed.

(** Galician is current, American English the default: ["bye"] is defined
    by the default locale's bundle only. *)
Lemma cascade_returns_and_reaches_default_witness :
  exists found r,
    hasMessage 5 sample_box "bye" world_gl = (Ok found, world_gl)
    /\ getMessage 5 sample_box "bye" None None world_gl = (r, world_gl)
    /\ has_of r = Ok found
    /\ found = true.
Proof.
  assert (Hne : toLowerCase (loc_tag gl) <> toLowerCase (loc_tag en_US))
    by (vm_compute; discriminate).
  assert (Hdef : is_Some (own_message (the_table world_gl sample_box)
                            (loc_tag en_US) "bye")).
  { exists (brand bundle_en_us, Some "Goodbye"). vm_compute. exact eq_refl. }
  assert (Hrank : ranked sample_rank (the_fallbacks world_gl sample_box))
    by (rewrite sample_graph_gl; exact (proj1 sample_graph_ranked)).
  destruct (cascade_returns_and_reaches_default world_gl sample_box
              (the_box world_gl sample_box) (the_table world_gl sample_box)
              (the_fallbacks world_gl sample_box) gl en_US sample_rank
              "bye" None None 5 sample_engine_at_gl
              ltac:(vm_compute; exact eq_refl) ltac:(vm_compute; exact eq_refl)
              Hrank (or_introl Hdef) ltac:(vm_compute; lia))
    as (found & r & Hhas & Hget & Hof & _ & Hsome).
  exists found, r. split; [exact Hhas|]. split; [exact Hget|].
  split; [exact Hof | exact (Hsome Hdef Hne)].
Defined.

Lemma looping_engine_at_fr :
  engine_at looping_fr sample_box (the_box looping_fr sample_box)
            (the_table looping_fr sample_box)
            (the_fallbacks looping_fr sample_box).
Proof. constructor; vm_compute; exact eq_refl. Qed.

Lemma looping_engine_at_default :
  engine_at looping_default sample_box (the_box looping_default sample_box)
            (the_table looping_default sample_box)
            (the_fallbacks looping_default sample_box).
Proof. constructor; vm_compute; exact eq_refl. Qed.

(** American English, the default, falls back on French; French is
    current and nobody defines ["nope"]: the cascade goes from French to
    the default locale and from there to French again. *)
Lemma lookup_in_trap_never_returns_witness :
  fst (hasMessage 100 sample_box "nope" looping_fr) = OutOfFuel
  /\ fst (getMessage 100 sample_box "nope" None None looping_fr) = OutOfFuel.
Proof.
  apply (lookup_in_trap_never_returns looping_fr sample_box
           (the_box looping_fr sample_box) (the_table looping_fr sample_box)
           (the_fallbacks looping_fr sample_box)
           (locale_in looping_default "fr") "nope" {["fr"; "en-US"]}
           None None 100 looping_engine_at_fr).
  - vm_compute. exact eq_refl.
  - vm_compute. exact eq_refl.
  - intros l Hl. apply elem_of_union in Hl as [Hl | Hl];
      apply elem_of_singleton in Hl; subst l.
    + apply Exists_exists. exists "en-US". split.
      * apply list_elem_of_In. vm_compute. auto.
      * set_unfold; tauto.
    + apply Exists_exists. exists "fr". split.
      * apply list_elem_of_In. vm_compute. auto.
      * set_unfold; tauto.
  - set_unfold; tauto.
Defined.

(** The same application with its default locale current. *)
Lemma default_with_fallback_never_returns_witness :
  fst (hasMessage 100 sample_box "nope" looping_default) = OutOfFuel
  /\ fst (getMessage 100 sample_box "nope" None None looping_default)
     = OutOfFuel.
Proof.
  apply (default_with_fallback_never_returns looping_default sample_box
           (the_box looping_default sample_box)
           (the_table looping_default sample_box)
           (the_fallbacks looping_default sample_box)
           looping_en_US looping_en_US "fr" "nope" None None 100
           looping_engine_at_default).
  - vm_compute. exact eq_refl.
  - vm_compute. exact eq_refl.
  - apply list_elem_of_In. vm_compute. auto.
  - vm_compute. discriminate.
  - left. reflexivity.
  - vm_compute. exact eq_refl.
Defined.

(** Portuguese falls back on Spanish and Spanish on Portuguese. *)
Lemma load_on_cycle_never_resolves_witness :
  fst (load 100 sample_box (Some cyclic_pt) cyclic_pt_arg) <> Ok (Fulfilled true)
  /\ fst (load 100 sample_box (Some cyclic_pt) cyclic_pt_arg)
     <> Ok (Fulfilled false).
Proof.
  assert (Hg : graph_at cyclic_pt_arg sample_box
                 (the_box cyclic_pt_arg sample_box)
                 (the_fallbacks cyclic_pt_arg sample_box))
    by (split; vm_compute; exact eq_refl).
  assert (Htrap : trapped (fallbacks_of (the_fallbacks cyclic_pt_arg sample_box))
                          {["pt"; "es"]}).
  { intros l Hl. apply elem_of_union in Hl as [Hl | Hl];
      apply elem_of_singleton in Hl; subst l.
    - apply Exists_exists. exists "es". split.
      + apply list_elem_of_In. vm_compute. auto.
      + set_unfold; tauto.
    - apply Exists_exists. exists "pt". split.
      + apply list_elem_of_In. vm_compute. auto.
      + set_unfold; tauto. }
  assert (Hin : loc_tag cyclic_pt ∈ ({["pt"; "es"]} : gset string))
    by (apply elem_of_union; left; apply elem_of_singleton; exact eq_refl).
  split.
  - exact (load_on_cycle_never_resolves cyclic_pt_arg sample_box _ _ cyclic_pt
             {["pt"; "es"]} 100 true Hg Htrap Hin).
  - exact (load_on_cycle_never_resolves cyclic_pt_arg sample_box _ _ cyclic_pt
             {["pt"; "es"]} 100 false Hg Htrap Hin).
Defined.

(** Galician is current: its fallbacks are Portuguese, then French. *)
Lemma accessors_return_without_cycle_witness :
  exists out W',
    fallbacks 4 sample_box world_gl = (Ok out, W')
    /\ localeAndFallbacks 4 sample_box world_gl = (Ok (gl :: out), W')
    /\ same_store world_gl W'.
Proof.
  apply (accessors_return_without_cycle world_gl sample_box
           (the_box world_gl sample_box) (the_fallbacks world_gl sample_box)
           gl sample_rank 4).
  - split; vm_compute; exact eq_refl.
  - vm_compute. exact eq_refl.
  - rewrite sample_graph_gl. exact (proj1 sample_graph_ranked).
  - rewrite sample_graph_gl. exact (proj2 sample_graph_ranked).
  - vm_compute. lia.
Defined.

Lemma sample_graph_gl_arg :
  cfg_fallbacks (the_config world_gl_arg sample_box) = sample_graph.
Proof. vm_compute. exact eq_refl. Qed.

(** Galician is requested after the default locale. *)
Lemma load_resolves_without_cycle_witness :
  exists ok W',
    load 8 sample_box (Some gl) world_gl_arg = (Ok (Fulfilled ok), W').
Proof.
  apply (load_resolves_without_cycle world_gl_arg sample_box
           (the_config world_gl_arg sample_box)
           (the_table world_gl_arg sample_box) (Some gl) gl sample_rank 8).
  - vm_compute. exact eq_refl.
  - vm_compute. exact eq_refl.
  - exact eq_refl.
  - apply (bool_decide_unpack _). vm_compute. exact I.
  - rewrite sample_graph_gl_arg. exact (proj1 sample_graph_ranked).
  - rewrite sample_graph_gl_arg. exact (proj2 sample_graph_ranked).
  - vm_compute. lia.
Defined.

(** Brazilian Portuguese reaches French through Portuguese and through
    Spanish. *)
Lemma load_starts_a_loader_per_path_witness :
  exists others W0,
    _enumerateFallbacks 8 sample_box (loc_tag ptBR) [] world_ptBR_arg
    = (Ok others, W0)
    /\ fetch_log (after (load_begin 8 sample_box (Some ptBR)) world_ptBR_arg)
       = fetch_log world_ptBR_arg ++ loc_tag ptBR :: (loc_tag <$> others)
    /\ length (tasks_of (fst (load_begin 8 sample_box (Some ptBR) world_ptBR_arg)))
       = S (length others).
Proof.
  apply (load_starts_a_loader_per_path 8 sample_box (Some ptBR) world_ptBR_arg
           ptBR).
  - apply (run_pair (load_begin 8 sample_box (Some ptBR)) world_ptBR_arg).
    vm_compute. exact eq_refl.
  - constructor; [vm_compute; lia | constructor].
Defined.

(** Galician is requested from the application whose only initializer
    throws: the three bundles of the batch are in the table all the
    same. *)
Lemma initializer_failure_keeps_the_commit_witness :
  exists W' table',
    load 8 sample_box (Some failing_gl) failing_gl_arg
    = (Ok (Fulfilled false), W')
    /\ fst (currentLocale sample_box W') = Ok (Some failing_gl)
    /\ fst (read_table sample_box W') = Ok table'
    /\ forall k, k <> loc_tag failing_gl ->
         table' !! k
         = commit_table (_clean (the_box failing_gl_arg sample_box))
                        (the_table failing_gl_arg sample_box)
                        [("gl", bundle_gl); ("pt", bundle_pt); ("fr", bundle_fr)]
           !! k.
Proof.
  apply (initializer_failure_keeps_the_commit 8 sample_box (Some failing_gl)
           failing_gl_arg (the_box failing_gl_arg sample_box)
           (the_table failing_gl_arg sample_box)
           (the_initializers failing_gl_arg sample_box) failing_gl
           [Fulfilled ("gl", bundle_gl); Fulfilled ("pt", bundle_pt);
            Fulfilled ("fr", bundle_fr)]
           (after (load_begin 8 sample_box (Some failing_gl)) failing_gl_arg)
           [("gl", bundle_gl); ("pt", bundle_pt); ("fr", bundle_fr)]
           InitializerError).
  - vm_compute. exact eq_refl.
  - vm_compute. exact eq_refl.
  - vm_compute. exact eq_refl.
  - apply (run_pair (load_begin 8 sample_box (Some failing_gl)) failing_gl_arg).
    vm_compute. exact eq_refl.
  - vm_compute. exact eq_refl.
  - vm_compute. exact eq_refl.
Defined.

(** Nobody defines ["nope"]. *)
Lemma null_answer_leaves_errors_witness :
  sink_of (fst (getMessage 4 sample_box "nope" None earlier_errors world_gl))
  = earlier_errors
  /\ snd (getMessage 4 sample_box "nope" None earlier_errors world_gl)
     = world_gl.
Proof.
  apply (null_answer_leaves_errors 4 sample_box "nope" None earlier_errors
           world_gl).
  apply (run_pair (getMessage 4 sample_box "nope" None earlier_errors)
           world_gl).
  vm_compute. exact eq_refl.
Defined.

(** An initializer registered through the clone is read through the
    original. *)
Lemma initializer_is_registered_for_every_handle_witness :
  exists W',
    addBundleInitializer sample_clone failing_initializer world_cloned
    = (Ok tt, W')
    /\ fst (read_config sample_box W')
       = Ok (with_initializer failing_initializer
               (the_config world_cloned sample_box))
    /\ fst (read_config sample_clone W')
       = Ok (with_initializer failing_initializer
               (the_config world_cloned sample_box)).
Proof.
  assert (aliases world_cloned sample_box sample_clone) as Hal.
  { split; [discriminate|].
    exists (the_box world_cloned sample_box), (the_box world_cloned sample_clone).
    split; [|split]; vm_compute; exact eq_refl. }
  destruct (initializer_is_registered_for_every_handle world_cloned sample_box
              sample_clone failing_initializer
              (the_config world_cloned sample_box)
              (the_table world_cloned sample_box) (or_intror Hal)
              ltac:(vm_compute; exact eq_refl) ltac:(vm_compute; exact eq_refl))
    as (W' & Hadd & H1 & H2 & _).
  exists W'. split; [exact Hadd|]. split; [exact H1 | exact H2].
Defined.
